(** * DCA++ threaded Monte Carlo core: matrix views, work partition,
      configuration snapshots, single-particle symmetrization and the
      walker/accumulator rendezvous.

    Each module embeds one source file (or one group of functions of it):

    - [MatrixView]   : include/dca/linalg/matrix_view.hpp
    - [Solver]       : stdthread_qmci_cluster_solver.hpp (constructor,
                       integrate, iterateOverLocalMeasurements, snapshots)
    - [Symmetrize]   : symmetrize_single_particle_function.hpp
    - [Rendezvous]   : startWalker / startAccumulator as an interleaving
                       step function. *)

From Stdlib Require Import ZArith Lia List Bool.
From Stdlib Require Import QArith Qcanon Qcabs Field.
From Stdlib Require Import Permutation.
From stdpp Require Import base tactics option list strings pretty.

(** ** Machine integers

    The sources index with C++ [int].  We keep the values in [Z] and write the
    32-bit two's-complement reduction out wherever the source computes with
    them. *)

Module Int.
Local Open Scope Z_scope.

Definition INT_MIN : Z := - 2 ^ 31.
Definition INT_MAX : Z := 2 ^ 31 - 1.

Definition is_int (z : Z) : Prop := INT_MIN <= z <= INT_MAX.

Definition wrap (z : Z) : Z := (z + 2 ^ 31) mod 2 ^ 32 - 2 ^ 31.

Definition add (a b : Z) : Z := wrap (a + b).
Definition sub (a b : Z) : Z := wrap (a - b).
Definition mul (a b : Z) : Z := wrap (a * b).

End Int.

(** ** [dca::linalg::MatrixView]

    A view is the triple of private members [ptr_], [ldm_], [size_].  The
    pointer is kept as an element address into the store of the referent; a
    store is a function from addresses to scalars.  The [assert]s of the
    source are modelled as in a debug build: an accessor returns [None] when
    one of its assertions fails. *)

Module MatrixView.
Local Open Scope Z_scope.

Record MatrixView : Type := mkView {
  ptr_ : Z;
  ldm_ : Z;
  size_ : Z * Z
}.

Definition leadingDimension (v : MatrixView) : Z := ldm_ v.
Definition ld (v : MatrixView) : Z := leadingDimension v.
Definition size (v : MatrixView) : Z * Z := size_ v.
Definition nrRows (v : MatrixView) : Z := fst (size_ v).
Definition nrCols (v : MatrixView) : Z := snd (size_ v).
Definition is_square (v : MatrixView) : bool := fst (size_ v) =? snd (size_ v).

(** The two assertions of [ptr(int i, int j)]. *)
Definition ptr_asserts (v : MatrixView) (i j : Z) : bool :=
  ((0 <=? i) && (i <=? fst (size_ v))) && ((0 <=? j) && (j <=? snd (size_ v))).

(** [ptr(i, j)]: [ptr_ + leadingDimension() * j + i]. *)
Definition ptr (v : MatrixView) (i j : Z) : option Z :=
  if ptr_asserts v i j
  then Some (ptr_ v + Int.mul (leadingDimension v) j + i)
  else None.

(** The two assertions of [operator()(int i, int j)]. *)
Definition access_asserts (v : MatrixView) (i j : Z) : bool :=
  ((0 <=? i) && (i <? fst (size_ v))) && ((0 <=? j) && (j <? snd (size_ v))).

(** [operator()(i, j)]: the address of [ptr_[i + j * ldm_]]. *)
Definition at_ (v : MatrixView) (i j : Z) : option Z :=
  if access_asserts v i j
  then Some (ptr_ v + Int.add i (Int.mul j (ldm_ v)))
  else None.

Section Store.
Variable ScalarType : Type.

Definition store : Type := Z -> ScalarType.

  (** Reading [view(i, j)]. *)
Definition get (mem : store) (v : MatrixView) (i j : Z) : option ScalarType :=
    match at_ v i j with
    | Some a => Some (mem a)
    | None => None
    end.

  (** Writing [view(i, j) = x]. *)
Definition set (mem : store) (v : MatrixView) (i j : Z) (x : ScalarType)
    : option store :=
    match at_ v i j with
    | Some a => Some (fun b => if Z.eqb b a then x else mem b)
    | None => None
    end.
End Store.

Arguments get {ScalarType} mem v i j.
Arguments set {ScalarType} mem v i j x.

(** Constructors.  [MatrixView(data, size, ld)], [MatrixView(data, size, ld)]
    with a square size, [MatrixView(data, size)]. *)
Definition of_data (data : Z) (sz : Z * Z) (ldim : Z) : MatrixView :=
  mkView data ldim sz.
Definition of_data_square (data : Z) (n : Z) (ldim : Z) : MatrixView :=
  mkView data ldim (n, n).
Definition of_data_packed (data : Z) (n : Z) : MatrixView :=
  mkView data n (n, n).

(** [MatrixView(mat)].  The template parameter [Matrix] is any class with
    [ptr], [leadingDimension], [size], [nrRows] and [nrCols]; [MatrixView]
    itself is such a class, and it is the referent used here. *)
Definition of_matrix (mat : MatrixView) : MatrixView :=
  mkView (ptr_ mat) (leadingDimension mat) (size mat).

(** [MatrixView(mat, offset_i, offset_j, ni, nj)]: the member initialisers
    (with [mat.ptr(offset_i, offset_j)] and its assertions), then the two
    assertions of the body. *)
Definition sub_asserts (mat : MatrixView) (offset_i offset_j ni nj : Z) : bool :=
  (Int.add ni offset_i <=? nrRows mat) && (Int.add nj offset_j <=? nrCols mat).

Definition of_matrix_sub (mat : MatrixView) (offset_i offset_j ni nj : Z)
  : option MatrixView :=
  match ptr mat offset_i offset_j with
  | None => None
  | Some p =>
      if sub_asserts mat offset_i offset_j ni nj
      then Some (mkView p (leadingDimension mat) (ni, nj))
      else None
  end.

(** [MatrixView(mat, offset_i, offset_j)]: delegates to the constructor above
    with [mat.nrRows() - offset_i] and [mat.nrCols() - offset_j], then runs the
    two assertions of its own body. *)
Definition offset_asserts (mat : MatrixView) (offset_i offset_j : Z) : bool :=
  (offset_i <? nrCols mat) && (offset_j <? nrRows mat).

Definition of_matrix_offset (mat : MatrixView) (offset_i offset_j : Z)
  : option MatrixView :=
  match of_matrix_sub mat offset_i offset_j
          (Int.sub (nrRows mat) offset_i) (Int.sub (nrCols mat) offset_j) with
  | None => None
  | Some v => if offset_asserts mat offset_i offset_j then Some v else None
  end.

(** The invariants of a view (section 3 of the specification): the members
    are non-negative [int]s, [ld >= rows], and the element offsets of the
    addressed block are representable in an [int], the type [ptr] and
    [operator()] compute them in. *)
Definition wf (v : MatrixView) : Prop :=
  0 <= nrRows v <= Int.INT_MAX /\ 0 <= nrCols v <= Int.INT_MAX /\
  nrRows v <= ldm_ v <= Int.INT_MAX /\
  ldm_ v * nrCols v <= Int.INT_MAX.

(** In-range offsets of a parent: they index one of its elements. *)
Definition offsets_in_range (mat : MatrixView) (offset_i offset_j : Z) : Prop :=
  offset_i < nrRows mat /\ offset_j < nrCols mat.

End MatrixView.

(** *** Assignment and printing of views *)

Module MatrixViewOps.
Import MatrixView.
Local Open Scope Z_scope.

(** The values the counter of [for (int k = 0; k < n; ++k)] takes. *)
Definition range (n : Z) : list Z := map Z.of_nat (seq 0 (Z.to_nat n)).

Definition tab : string := String (Ascii.ascii_of_nat 9) EmptyString.
Definition endl : string := String (Ascii.ascii_of_nat 10) EmptyString.

Section Operations.
Variable ScalarType : Type.

(** [operator=(const MatrixView& rhs)] (the overload taking a [Matrix] has
    the same body): the assertion on the sizes, then the element-wise copy,
    column by column. *)
Definition assign_asserts (v rhs : MatrixView) : bool :=
  (nrCols v =? nrCols rhs) && (nrRows v =? nrRows rhs).

(** The assignment of one element, [this(i, j) = rhs(i, j)]. *)
Definition assign_element (v rhs : MatrixView) (j i : Z)
  (mem : option (store ScalarType)) : option (store ScalarType) :=
  match mem with
  | None => None
  | Some m =>
      match get m rhs i j with
      | None => None
      | Some x => set m v i j x
      end
  end.

Definition assign (mem : store ScalarType) (v rhs : MatrixView)
  : option (store ScalarType) :=
  if assign_asserts v rhs
  then foldl (fun m j =>
                foldl (fun m i => assign_element v rhs j i m) m (range (nrRows v)))
             (Some mem) (range (nrCols v))
  else None.

(** [print(std::ostream& out)]: what is sent to the stream, a scalar being
    sent with its own [operator<<]. *)
Inductive item : Type :=
| Text (s : string)
| Value (x : ScalarType).

(** One element and a tab are sent to the stream. *)
Definition print_element (mem : store ScalarType) (v : MatrixView) (j i : Z)
  (out : option (list item)) : option (list item) :=
  match out with
  | None => None
  | Some o =>
      match get mem v i j with
      | None => None
      | Some x => Some (o ++ [Value x; Text tab])
      end
  end.

(** The body of the outer loop: the inner loop, which runs [i] up to
    [nrRows()], then the end of the line. *)
Definition print_line (mem : store ScalarType) (v : MatrixView) (j : Z)
  (out : option (list item)) : option (list item) :=
  match foldl (fun out i => print_element mem v j i out) out (range (nrRows v)) with
  | None => None
  | Some o => Some (o ++ [Text endl])
  end.

(** Both loops of [print] run up to [nrRows()]. *)
Definition header (v : MatrixView) : list item :=
  [Text (tab +:+ "Matrix view:" +:+ endl);
   Text ("Size: " +:+ tab); Text (pretty (fst (size_ v)));
   Text ", "; Text (pretty (snd (size_ v))); Text endl].

Definition print (mem : store ScalarType) (v : MatrixView) (out : list item)
  : option (list item) :=
  match foldl (fun out j => print_line mem v j out) (Some (out ++ header v))
          (range (nrRows v)) with
  | None => None
  | Some o => Some (o ++ [Text endl; Text endl])
  end.

End Operations.

Arguments assign {ScalarType} mem v rhs.
Arguments Text {ScalarType} s.
Arguments Value {ScalarType} x.
Arguments print {ScalarType} mem v out.
Arguments header {ScalarType} v.
Arguments print_line {ScalarType} mem v j out.
Arguments print_element {ScalarType} mem v j i out.
Arguments assign_element {ScalarType} v rhs j i mem.

(** The address of element [(i, j)] of a view. *)
Definition address (v : MatrixView) (i j : Z) : Z := ptr_ v + (i + j * ldm_ v).

(** The elements of a view, in the order of the loops of [operator=]. *)
Definition elements (v : MatrixView) : list (Z * Z) :=
  j ← range (nrCols v); i ← range (nrRows v); [(i, j)].

(** Two views share no element. *)
Definition disjoint (v rhs : MatrixView) : Prop :=
  forall i j i' j',
    0 <= i < nrRows v -> 0 <= j < nrCols v ->
    0 <= i' < nrRows rhs -> 0 <= j' < nrCols rhs ->
    address v i j <> address rhs i' j'.

End MatrixViewOps.

(** ** [StdThreadQmciClusterSolver]: configuration, construction, dispatch,
       measurement loop and configuration snapshots *)

Module Solver.
Local Open Scope Z_scope.

(** The part of [Parameters] the solver reads. *)
Record Parameters : Type := mkParameters {
  get_walkers : Z;
  get_accumulators : Z;
  shared_walk_and_accumulation_thread : bool;
  get_warm_up_sweeps : Z;
  get_measurements : Z;
  fix_meas_per_walker : bool;
  get_directory_config_read : string;
  get_directory_config_write : string
}.

(** The process-level collaborator. *)
Record Concurrency : Type := mkConcurrency {
  id : Z;
  first : Z;
  number_of_processors : Z
}.

(** Exceptions. *)
Inductive exception : Type :=
| logic_error (what : string)
| length_error (what : string)
| io_error (what : string).

Definition what (e : exception) : string :=
  match e with
  | logic_error w => w
  | length_error w => w
  | io_error w => w
  end.

Inductive result (A : Type) : Type :=
| Ok (a : A)
| Throw (e : exception).
Arguments Ok {A} a.
Arguments Throw {A} e.

Definition throws {A : Type} (r : result A) : bool :=
  match r with
  | Ok _ => false
  | Throw _ => true
  end.

(** Modelled from the spec: [parallel::util::getWorkload] is declared in
    dca/parallel/util/get_workload.hpp, which is not among the sources.
    Section 4.2: [split(total, n, i) = floor(total/n) + (1 if i < total mod n
    else 0)], and the two-argument form takes [n] and [i] from the
    concurrency object. *)
Definition getWorkload (total n i : Z) : Z :=
  total / n + (if i <? total mod n then 1 else 0).

Definition getWorkload_concurrency (total : Z) (c : Concurrency) : Z :=
  getWorkload total (number_of_processors c) (id c).

(** *** Constructor

    The member initialisers build two vectors of [nr_walkers_] and
    [nr_accumulators_] entries ([std::vector(n, 0)] throws [length_error] for
    a negative count) and [config_dump_(nr_walkers_)]; the body then checks
    the counts. *)
Definition Buffer : Type := list Z.

Record SolverState : Type := mkSolver {
  nr_walkers_ : Z;
  nr_accumulators_ : Z;
  walker_fingerprints_ : list Z;
  accum_fingerprints_ : list Z;
  config_dump_ : list Buffer
}.

Definition vector_n {A : Type} (n : Z) (x : A) : result (list A) :=
  if n <? 0 then Throw (length_error "cannot create std::vector larger than max_size()")
  else Ok (replicate (Z.to_nat n) x).

Definition construct (p : Parameters) : result SolverState :=
  let nr_walkers := get_walkers p in
  let nr_accumulators := get_accumulators p in
  match vector_n nr_walkers 0 with
  | Throw e => Throw e
  | Ok wf =>
    match vector_n nr_accumulators 0 with
    | Throw e => Throw e
    | Ok af =>
      match vector_n nr_walkers (@nil Z) with
      | Throw e => Throw e
      | Ok cd =>
        if (nr_walkers <? 1) || (nr_accumulators <? 1)
        then Throw (logic_error
               "Both the number of walkers and the number of accumulators must be at least 1.")
        else Ok (mkSolver nr_walkers nr_accumulators wf af cd)
      end
    end
  end.

(** *** [integrate]: the dispatch loop over the thread-task table

    [getTask(i)] yields a string; the loop enqueues one job per entry and
    throws on any other string. *)
Inductive job : Type :=
| startWalker (id : Z)
| startAccumulator (id : Z)
| startWalkerAndAccumulator (id : Z).

Fixpoint dispatch (tasks : list string) (i : Z) (futures : list job)
  : result (list job) :=
  match tasks with
  | [] => Ok futures
  | task :: rest =>
      if String.eqb task "walker"
      then dispatch rest (i + 1) (futures ++ [startWalker i])
      else if String.eqb task "accumulator"
      then dispatch rest (i + 1) (futures ++ [startAccumulator i])
      else if String.eqb task "walker and accumulator"
      then dispatch rest (i + 1) (futures ++ [startWalkerAndAccumulator i])
      else Throw (logic_error "Thread task is undefined.")
  end.

Definition integrate_dispatch (tasks : list string) : result (list job) :=
  dispatch tasks 0 [].

Definition known_task (task : string) : bool :=
  String.eqb task "walker" || String.eqb task "accumulator"
  || String.eqb task "walker and accumulator".

(** *** [iterateOverLocalMeasurements]

    The callback [f(meas_id, n_local_meas, print)] acts on a state [S].  In
    the branch with the shared counter the state of the loop also holds
    [measurements_done_]; the function below is that branch as one thread
    runs it when no other thread touches the counter (the interleaved
    execution is in [Rendezvous]). *)
Section IterateOverLocalMeasurements.
Variable S : Type.
Variable f : Z -> Z -> bool -> S -> S.

(** [for (meas_id = from; meas_id < n_local_meas; ++meas_id) f(...)], with
    the number of remaining iterations as the structural argument. *)
Fixpoint private_loop (fuel : nat) (meas_id n_local_meas : Z) (print : bool)
  (s : S) : S :=
  match fuel with
  | O => s
  | Datatypes.S fuel' =>
      if meas_id <? n_local_meas
      then private_loop fuel' (meas_id + 1) n_local_meas print
             (f meas_id n_local_meas print s)
      else s
  end.

(** [for (meas_id = measurements_done_; meas_id < n; meas_id =
    ++measurements_done_) f(...)]. *)
Fixpoint shared_loop (fuel : nat) (meas_id n_local_meas : Z) (print : bool)
  (st : Z * S) : Z * S :=
  match fuel with
  | O => st
  | Datatypes.S fuel' =>
      if meas_id <? n_local_meas
      then
        let s' := f meas_id n_local_meas print (snd st) in
        let done' := fst st + 1 in
        shared_loop fuel' done' n_local_meas print (done', s')
      else st
  end.

Definition iterateOverLocalMeasurements (p : Parameters) (c : Concurrency)
  (walker_id : Z) (st : Z * S) : Z * S :=
  let fix_thread_meas := fix_meas_per_walker p in
  let total_meas := getWorkload_concurrency (get_measurements p) c in
  let n_local_meas :=
    if fix_thread_meas then getWorkload total_meas (get_walkers p) walker_id
    else total_meas in
  let print := if fix_thread_meas then walker_id =? 0 else true in
  if fix_thread_meas
  then (fst st, private_loop (Z.to_nat n_local_meas) 0 n_local_meas print (snd st))
  else shared_loop (Z.to_nat (n_local_meas - fst st)) (fst st) n_local_meas print st.

End IterateOverLocalMeasurements.

Arguments private_loop {S} f fuel meas_id n_local_meas print s.
Arguments shared_loop {S} f fuel meas_id n_local_meas print st.
Arguments iterateOverLocalMeasurements {S} f p c walker_id st.

(** The callback that records its invocations. *)
Definition record_call (meas_id n_local_meas : Z) (print : bool)
  (calls : list (Z * Z * bool)) : list (Z * Z * bool) :=
  calls ++ [(meas_id, n_local_meas, print)].

(** Number of callback invocations of walker [walker_id]. *)
Definition local_measurements (p : Parameters) (c : Concurrency) (walker_id : Z)
  : nat :=
  length (snd (iterateOverLocalMeasurements record_call p c walker_id (0, []))).

(** The invocations of all walkers [0 .. get_walkers() - 1] together. *)
Definition total_local_measurements (p : Parameters) (c : Concurrency) : nat :=
  foldr Nat.add 0%nat
    (map (fun w => local_measurements p c (Z.of_nat w))
         (seq 0 (Z.to_nat (get_walkers p)))).

End Solver.

(** ** Configuration snapshots: [writeConfigurations], [readConfigurations] *)

Module Snapshot.
Import Solver.
Local Open Scope Z_scope.

(** Modelled from the spec: [io::HDF5Writer] (dca/io/hdf5/hdf5_writer.hpp) is
    not among the sources.  Section 4.4: a per-process archive file stores the
    opaque bytes of walker [i] under the key [configuration_<i>].  A file
    system maps paths to archives; [open_file] creates (and empties) the
    archive at a path and [execute] stores a buffer under a key of the open
    archive.  Either may throw; what it throws on is a field of the file
    system. *)
Definition Archive : Type := list (string * Buffer).

Record FileSystem : Type := mkFS {
  files : list (string * Archive);
  creatable : string -> bool
}.

Definition remove_key {A : Type} (k : string) (l : list (string * A))
  : list (string * A) :=
  filter (fun kv => negb (String.eqb (fst kv) k)) l.

Fixpoint assoc {A : Type} (k : string) (l : list (string * A)) : option A :=
  match l with
  | [] => None
  | (k', v) :: rest => if String.eqb k' k then Some v else assoc k rest
  end.

Definition open_file (path : string) (fs : FileSystem)
  : FileSystem * option exception :=
  if creatable fs path
  then (mkFS ((path, []) :: remove_key path (files fs)) (creatable fs), None)
  else (fs, Some (io_error ("unable to create file " +:+ path))).

Definition execute (path key : string) (buf : Buffer) (fs : FileSystem)
  : FileSystem * option exception :=
  match assoc path (files fs) with
  | Some arch =>
      (mkFS ((path, (key, buf) :: remove_key key arch) :: remove_key path (files fs))
            (creatable fs), None)
  | None => (fs, Some (io_error ("no open file " +:+ path)))
  end.

(** The state the two routines act on: the file system, the member
    [config_dump_] and what has been written to standard error. *)
Record World : Type := mkWorld {
  fs : FileSystem;
  config_dump : list Buffer;
  cerr : list string
}.

Definition newline : string := String (Ascii.ascii_of_nat 10) EmptyString.

Definition process_file (dir : string) (c : Concurrency) : string :=
  dir +:+ "/process_" +:+ pretty (id c) +:+ ".hdf5".

Definition configuration_key (i : Z) : string := "configuration_" +:+ pretty i.

(** [for (int id = 0; id < config_dump_.size(); ++id)
       writer.execute("configuration_" + std::to_string(id), config_dump_[id]);]
    an exception leaves the loop. *)
Fixpoint write_slots (path : string) (i : Z) (slots : list Buffer)
  (fs : FileSystem) : FileSystem * option exception :=
  match slots with
  | [] => (fs, None)
  | buf :: rest =>
      match execute path (configuration_key i) buf fs with
      | (fs', None) => write_slots path (i + 1) rest fs'
      | (fs', Some e) => (fs', Some e)
      end
  end.

(** The [try] block shared, word for word, by the two routines. *)
Definition try_block (p : Parameters) (c : Concurrency) (w : World)
  : FileSystem * option exception :=
  let out_name := process_file (get_directory_config_write p) c in
  match open_file out_name (fs w) with
  | (fs', None) => write_slots out_name 0 (config_dump w) fs'
  | (fs', Some e) => (fs', Some e)
  end.

Definition writeConfigurations (p : Parameters) (c : Concurrency) (w : World)
  : World :=
  if String.eqb (get_directory_config_write p) "" then w
  else
    match try_block p c w with
    | (fs', None) => mkWorld fs' (config_dump w) (cerr w)
    | (fs', Some err) =>
        mkWorld fs' (config_dump w)
          (cerr w ++ [what err +:+ newline +:+ "Could not write the configuration."
                      +:+ newline])
    end.

Definition readConfigurations (p : Parameters) (c : Concurrency) (w : World)
  : World :=
  if String.eqb (get_directory_config_read p) "" then w
  else
    match try_block p c w with
    | (fs', None) => mkWorld fs' (config_dump w) (cerr w)
    | (fs', Some err) =>
        mkWorld fs' (map (fun _ => []) (config_dump w))
          (cerr w ++ [what err +:+ newline +:+ "Could not read the configuration."
                      +:+ newline])
    end.

(** What the specification asks of the read (section 4.4): open the archive
    of the read directory with a reader and read each key into its slot; on
    any failure clear all slots. *)
Fixpoint read_slots_spec (arch : Archive) (i : Z) (slots : list Buffer)
  : option (list Buffer) :=
  match slots with
  | [] => Some []
  | _ :: rest =>
      match assoc (configuration_key i) arch, read_slots_spec arch (i + 1) rest with
      | Some buf, Some bufs => Some (buf :: bufs)
      | _, _ => None
      end
  end.

Definition readConfigurations_spec (p : Parameters) (c : Concurrency)
  (w : World) : list Buffer :=
  if String.eqb (get_directory_config_read p) "" then config_dump w
  else
    match assoc (process_file (get_directory_config_read p) c) (files (fs w)) with
    | Some arch =>
        match read_slots_spec arch 0 (config_dump w) with
        | Some bufs => bufs
        | None => map (fun _ => []) (config_dump w)
        end
    | None => map (fun _ => []) (config_dump w)
    end.

End Snapshot.

(** *** The jobs [integrate] hands to the thread pool *)

Module Dispatch.
Import Solver.

(** The start routine the loop of [integrate] enqueues for entry [i] of the
    task table when the entry is one it knows. *)
Definition job_of (i : Z) (task : string) : job :=
  if String.eqb task "walker" then startWalker i
  else if String.eqb task "accumulator" then startAccumulator i
  else startWalkerAndAccumulator i.

End Dispatch.

(** ** [symmetrize_single_particle_function]

    Scalars.  The passes are templates over [scalartype]; what they use of it
    is collected in the class [Scalar]: the constant 0, [+], [-], unary [-],
    division by the double [2.], [std::conj] and division by [double(n)].
    The instances are the rationals (for [double], in exact arithmetic) and
    the complex rationals (for [std::complex<double>]). *)

Module Symmetrize.
Import Solver.

Class Scalar (K : Type) : Type := mkScalar {
  s0 : K;
  splus : K -> K -> K;
  sminus : K -> K -> K;
  sneg : K -> K;
  shalf : K -> K;
  sconj : K -> K;
  sdiv : K -> nat -> K
}.

(** The algebra the passes rely on. *)
Class ScalarLaws (K : Type) `{Scalar K} : Prop := mkScalarLaws {
  splus_comm : forall x y : K, splus x y = splus y x;
  splus_assoc : forall x y z : K, splus x (splus y z) = splus (splus x y) z;
  shalf_minus_neg : forall x : K, shalf (sminus x (sneg x)) = x;
  shalf_plus_self : forall x : K, shalf (splus x x) = x;
  splus_sneg : forall x : K, splus x (sneg x) = s0;
  sconj_sconj : forall x : K, sconj (sconj x) = x;
  sdiv_repeat : forall (x : K) (n : nat), (0 < n)%nat ->
    sdiv (Nat.iter n (fun acc => splus acc x) s0) n = x
}.

Definition two : Qc := (1 + 1)%Qc.

(** [double(n)]. *)
Definition of_nat (n : nat) : Qc := Q2Qc (inject_Z (Z.of_nat n)).

#[export] Instance double_scalar : Scalar Qc := {|
  s0 := 0%Qc;
  splus := Qcplus;
  sminus := Qcminus;
  sneg := Qcopp;
  shalf := fun x => (x / two)%Qc;
  sconj := fun x => x;
  sdiv := fun x n => (x / of_nat n)%Qc
|}.

Record complex : Type := mkComplex { re : Qc; im : Qc }.

#[export] Instance complex_scalar : Scalar complex := {|
  s0 := mkComplex 0%Qc 0%Qc;
  splus := fun x y => mkComplex (re x + re y)%Qc (im x + im y)%Qc;
  sminus := fun x y => mkComplex (re x - re y)%Qc (im x - im y)%Qc;
  sneg := fun x => mkComplex (- re x)%Qc (- im x)%Qc;
  shalf := fun x => mkComplex (re x / two)%Qc (im x / two)%Qc;
  sconj := fun x => mkComplex (re x) (- im x)%Qc;
  sdiv := fun x n => mkComplex (re x / of_nat n)%Qc (im x / of_nat n)%Qc
|}.

(** [std::max] on doubles and the threshold of [difference]. *)
Definition Qcmax (a b : Qc) : Qc := if Qclt_le_dec a b then b else a.

Definition epsilon : Qc := Q2Qc (1 # 1000000).

(** [difference(val, function_name, dmn_name)]: the value it prints, if it
    prints. *)
Definition difference (val : Qc) : option Qc :=
  if Qclt_le_dec epsilon (Qcabs val) then Some (Qcabs val) else None.

Definition diagnostic (do_diff : bool) (max : Qc) : option Qc :=
  if do_diff then difference max else None.

(** Functions over a domain.  The container [func::function]
    (dca/function/function.hpp) is not among the sources; a function over a
    domain product is kept as the map from its index tuples to scalars.
    [f(i, j, ...)] reads or writes one entry, and the loop over the linear
    index [ind < f.size()] visits every entry (first index fastest). *)
Definition func (Key K : Type) : Type := Key -> K.

Definition upd {Key K : Type} `{EqDecision Key} (f : func Key K) (k : Key) (v : K)
  : func Key K :=
  fun k' => if decide (k' = k) then v else f k'.

(** [for (int i = 0; i < n; ++i) body]. *)
Definition for_range {A : Type} (n : nat) (body : nat -> A -> A) (init : A) : A :=
  foldl (fun a i => body i a) init (seq 0 n).

(** The entries of a function over one domain, over [(b, b, d)] and over
    [(nu, nu, d0, d1)] with [nu = (b, s)], in layout order. *)
Definition keys1 (n : nat) : list nat := seq 0 n.

Definition keys3 (Nb Nd : nat) : list (nat * nat * nat) :=
  d ← seq 0 Nd; b1 ← seq 0 Nb; b0 ← seq 0 Nb; [(b0, b1, d)].

Definition spin_key : Type := nat * nat * nat * nat * nat * nat.

Section Passes.
Context {K : Type} `{Scalar K}.

(** The overload of [abs] / [std::abs] for [scalartype]; its result is a
    double. *)
Variable mag : K -> Qc.

(** The closing loop of the passes that build [f_new]:
    [max = std::max(max, abs(f(ind) - f_new(ind))); f(ind) = f_new(ind)]. *)
Definition copy_back {Key : Type} `{EqDecision Key} (keys : list Key)
  (f_new : func Key K) (st : func Key K * Qc) : func Key K * Qc :=
  foldl (fun st k =>
           (upd (fst st) k (f_new k),
            Qcmax (snd st) (mag (sminus (fst st k) (f_new k)))))
        st keys.

(** *** Imaginary time, [execute(function<scalartype, t>&)] *)
Definition execute_t_body (shift i : nat) (st : func nat K * Qc) : func nat K * Qc :=
  let f := fst st in
  let max := Qcmax (snd st) (mag (shalf (splus (f i) (f (i + shift)%nat)))) in
  let tmp := shalf (sminus (f i) (f (i + shift)%nat)) in
  (upd (upd f i tmp) (i + shift)%nat (sneg tmp), max).

Definition execute_t (Nt : nat) (f : func nat K) : func nat K * Qc :=
  let shift := (Nt / 2)%nat in
  for_range (Nt / 2) (execute_t_body shift) (f, 0%Qc).

(** *** Imaginary time with a band pair, [execute(function<.., (b, b, t)>&)] *)
Definition bbt_body (f : func (nat * nat * nat) K) (t_0 t_ind b0 b1 : nat)
  (f_new : func (nat * nat * nat) K) : func (nat * nat * nat) K :=
  let tmp := shalf (sminus (f (b0, b1, t_ind)) (f (b1, b0, (t_ind + t_0)%nat))) in
  upd (upd f_new (b0, b1, t_ind) tmp) (b1, b0, (t_ind + t_0)%nat) (sneg tmp).

Definition execute_bbt (Nb Nt : nat) (f : func (nat * nat * nat) K)
  : func (nat * nat * nat) K * Qc :=
  let t_0 := (Nt / 2)%nat in
  let f_new :=
    for_range (Nt / 2) (fun t_ind =>
      for_range Nb (fun b0 =>
        for_range Nb (fun b1 => bbt_body f t_0 t_ind b0 b1)))
      (fun _ => s0) in
  copy_back (keys3 Nb Nt) f_new (f, 0%Qc).

(** *** Matsubara frequency, [execute(function<scalartype, w>&)]; the passes
    over [w_VERTEX] and [w_VERTEX_EXTENDED] repeat its loop on their own
    domain sizes. *)
Definition mirror_body (n i : nat) (st : func nat K * Qc) : func nat K * Qc :=
  let f := fst st in
  let max := Qcmax (snd st) (mag (shalf (sminus (f i) (sconj (f (n - i - 1)%nat))))) in
  let tmp := shalf (splus (f i) (sconj (f (n - i - 1)%nat))) in
  (upd (upd f i tmp) (n - 1 - i)%nat (sconj tmp), max).

Definition execute_w (Nw : nat) (f : func nat K) : func nat K * Qc :=
  for_range (Nw / 2) (mirror_body Nw) (f, 0%Qc).

Definition execute_w_VERTEX (Nw_vertex : nat) (f : func nat K) : func nat K * Qc :=
  for_range (Nw_vertex / 2) (mirror_body Nw_vertex) (f, 0%Qc).

Definition execute_w_VERTEX_EXTENDED (Nw_ext : nat) (f : func nat K)
  : func nat K * Qc :=
  for_range (Nw_ext / 2) (mirror_body Nw_ext) (f, 0%Qc).

(** *** Matsubara frequency with a band pair *)
Definition bbw_body (f : func (nat * nat * nat) K) (w_0 w_ind b0 b1 : nat)
  (f_new : func (nat * nat * nat) K) : func (nat * nat * nat) K :=
  let tmp_0 := f (b0, b1, w_ind) in
  let tmp_1 := f (b1, b0, (w_0 - w_ind)%nat) in
  let tmp := shalf (splus tmp_0 (sconj tmp_1)) in
  upd (upd f_new (b0, b1, w_ind) tmp) (b1, b0, (w_0 - w_ind)%nat) (sconj tmp).

Definition execute_bbw (Nb Nw : nat) (f : func (nat * nat * nat) K)
  : func (nat * nat * nat) K * Qc :=
  let w_0 := (Nw - 1)%nat in
  let f_new :=
    for_range (Nw / 2) (fun w_ind =>
      for_range Nb (fun b0 =>
        for_range Nb (fun b1 => bbw_body f w_0 w_ind b0 b1)))
      (fun _ => s0) in
  copy_back (keys3 Nb Nw) f_new (f, 0%Qc).

(** *** Real frequency: both overloads have an empty body. *)
Definition execute_w_REAL (f : func nat K) : func nat K := f.

Definition execute_bbw_REAL (f : func (nat * nat * nat) K)
  : func (nat * nat * nat) K := f.

(** *** Spin, [symmetrize_over_electron_spin]; an index is
    [(i, s, j, s', ind_0, ind_1)]. *)
Definition spin_body (ind_1 ind_0 i j : nat) (f : func spin_key K) : func spin_key K :=
  let f := upd f (i, 0, j, 1, ind_0, ind_1)%nat s0 in
  let f := upd f (i, 1, j, 0, ind_0, ind_1)%nat s0 in
  let tmp := shalf (splus (f (i, 0, j, 0, ind_0, ind_1)%nat)
                          (f (i, 1, j, 1, ind_0, ind_1)%nat)) in
  let f := upd f (i, 0, j, 0, ind_0, ind_1)%nat tmp in
  upd f (i, 1, j, 1, ind_0, ind_1)%nat tmp.

Definition symmetrize_over_electron_spin (Nb N0 N1 : nat) (f : func spin_key K)
  : func spin_key K :=
  for_range N1 (fun ind_1 =>
    for_range N0 (fun ind_0 =>
      for_range Nb (fun i =>
        for_range Nb (fun j => spin_body ind_1 ind_0 i j)))) f.

(** *** Cluster domains

    The symmetry matrix of a cluster
    ([cluster_symmetry<..>::get_symmetry_matrix()], not among the sources) is
    a table [sym (r, b, S) = (r', b')]; [NS] is
    [sym_super_cell_dmn_t::dmn_size()]. *)
Definition symmetry_matrix : Type := nat * nat * nat -> nat * nat.

Definition divide_all {Key : Type} (f_new : func Key K) (n : nat) : func Key K :=
  fun k => sdiv (f_new k) n.

(** Real-space cluster. *)
Definition execute_r (Nr NS : nat) (r_symmetry_matrix : symmetry_matrix)
  (f : func nat K) : result (func nat K * Qc) :=
  let f_new :=
    for_range NS (fun S_ind =>
      for_range Nr (fun r_ind f_new =>
        let R_new_ind := fst (r_symmetry_matrix (r_ind, 0, S_ind)%nat) in
        upd f_new r_ind (splus (f_new r_ind) (f R_new_ind))))
      (fun _ => s0) in
  if (0 <? NS)%nat
  then Ok (copy_back (keys1 Nr) (divide_all f_new NS) (f, 0%Qc))
  else Throw (logic_error "execute").

(** Real-space cluster with a band pair. *)
Definition bbr_body (sym : symmetry_matrix) (f : func (nat * nat * nat) K)
  (S_ind b0 b1 r_ind : nat) (f_new : func (nat * nat * nat) K)
  : func (nat * nat * nat) K :=
  let R_new_ind := fst (sym (r_ind, 0, S_ind)%nat) in
  let b0_new := snd (sym (0, b0, S_ind)%nat) in
  let b1_new := snd (sym (r_ind, b1, S_ind)) in
  upd f_new (b0, b1, r_ind)
      (splus (f_new (b0, b1, r_ind)) (f (b0_new, b1_new, R_new_ind))).

Definition execute_bbr (Nb Nr NS : nat) (r_symmetry_matrix : symmetry_matrix)
  (f : func (nat * nat * nat) K) : result (func (nat * nat * nat) K * Qc) :=
  let f_new :=
    for_range NS (fun S_ind =>
      for_range Nb (fun b0 =>
        for_range Nb (fun b1 =>
          for_range Nr (fun r_ind => bbr_body r_symmetry_matrix f S_ind b0 b1 r_ind))))
      (fun _ => s0) in
  if (0 <? NS)%nat
  then Ok (copy_back (keys3 Nb Nr) (divide_all f_new NS) (f, 0%Qc))
  else Throw (logic_error "execute").

(** Momentum-space cluster. *)
Definition execute_k (Nk NS : nat) (k_symmetry_matrix : symmetry_matrix)
  (f : func nat K) : result (func nat K * Qc) :=
  let f_new :=
    for_range NS (fun S_ind =>
      for_range Nk (fun k_ind f_new =>
        let K_new_ind := fst (k_symmetry_matrix (k_ind, 0, S_ind)%nat) in
        upd f_new k_ind (splus (f_new k_ind) (f K_new_ind))))
      (fun _ => s0) in
  if (0 <? NS)%nat
  then Ok (copy_back (keys1 Nk) (divide_all f_new NS) (f, 0%Qc))
  else Throw (logic_error "execute").

(** Momentum-space cluster with a band pair: [K_new_ind] is looked up at
    [b0], and [f_new] is divided by [double(NS)] without a test of [NS]. *)
Definition bbk_body (sym : symmetry_matrix) (f : func (nat * nat * nat) K)
  (S_ind b0 b1 k_ind : nat) (f_new : func (nat * nat * nat) K)
  : func (nat * nat * nat) K :=
  let K_new_ind := fst (sym (k_ind, b0, S_ind)) in
  let b0_new := snd (sym (0, b0, S_ind)%nat) in
  let b1_new := snd (sym (k_ind, b1, S_ind)) in
  upd f_new (b0, b1, k_ind)
      (splus (f_new (b0, b1, k_ind)) (f (b0_new, b1_new, K_new_ind))).

Definition execute_bbk (Nb Nk NS : nat) (k_symmetry_matrix : symmetry_matrix)
  (f : func (nat * nat * nat) K) : result (func (nat * nat * nat) K * Qc) :=
  let f_new :=
    for_range NS (fun S_ind =>
      for_range Nb (fun b0 =>
        for_range Nb (fun b1 =>
          for_range Nk (fun k_ind => bbk_body k_symmetry_matrix f S_ind b0 b1 k_ind))))
      (fun _ => s0) in
  Ok (copy_back (keys3 Nb Nk) (divide_all f_new NS) (f, 0%Qc)).

End Passes.

(** The table of a two-site cluster whose group holds the identity and the
    exchange of the two sites; bands stay in place. *)
Definition two_site_table : symmetry_matrix :=
  fun k => (if (snd k =? 0)%nat then fst (fst k) else (1 - fst (fst k))%nat,
            snd (fst k)).

(** Integer-valued doubles and complex numbers, for the examples. *)
Definition of_Z (z : Z) : Qc := Q2Qc (inject_Z z).

Definition complex_of_Z (a b : Z) : complex := mkComplex (of_Z a) (of_Z b).

(** Reading a function over one domain from, and back into, a list. *)
Definition of_list {K : Type} `{Scalar K} (l : list K) : func nat K :=
  fun i => nth i l s0.

Definition to_list {K : Type} (n : nat) (f : func nat K) : list K :=
  map f (seq 0 n).

(** The footprint of an operation on functions: it writes only entries in
    [P] and what it writes there depends only on the entries in [P]. *)
Definition local {Key K : Type} (P : Key -> Prop)
  (op : func Key K -> func Key K) : Prop :=
  (forall a k, ~ P k -> op a k = a k) /\
  (forall a a', (forall k, P k -> a k = a' k) ->
                forall k, P k -> op a k = op a' k).

(** The index maps of the cluster passes: where the term of the [S]-th
    symmetry operation is read for the entry [k]. *)
Definition r_action (sym : symmetry_matrix) (S_ind : nat) (r_ind : nat) : nat :=
  fst (sym (r_ind, 0, S_ind)%nat).

Definition bbr_action (sym : symmetry_matrix) (S_ind : nat)
  (k : nat * nat * nat) : nat * nat * nat :=
  let '(b0, b1, r_ind) := k in
  (snd (sym (0, b0, S_ind)%nat), snd (sym (r_ind, b1, S_ind)),
   fst (sym (r_ind, 0, S_ind)%nat)).

Definition bbk_action (sym : symmetry_matrix) (S_ind : nat)
  (k : nat * nat * nat) : nat * nat * nat :=
  let '(b0, b1, k_ind) := k in
  (snd (sym (0, b0, S_ind)%nat), snd (sym (k_ind, b1, S_ind)),
   fst (sym (k_ind, b0, S_ind))).

(** The table describes the action of a group on the entries in range: every
    operation maps the range into itself, and following any operation by all
    [NS] operations reaches the same entries, as often, as the [NS]
    operations alone. *)
Definition orbit_closed {Key : Type} (act : nat -> Key -> Key) (NS : nat)
  (in_range : Key -> Prop) : Prop :=
  forall S_ind k, (S_ind < NS)%nat -> in_range k ->
    in_range (act S_ind k) /\
    Permutation (map (fun T => act T (act S_ind k)) (seq 0 NS))
                (map (fun U => act U k) (seq 0 NS)).

Definition in_range1 (n : nat) (k : nat) : Prop := (k < n)%nat.

Definition in_range3 (Nb Nd : nat) (k : nat * nat * nat) : Prop :=
  let '(b0, b1, d) := k in (b0 < Nb /\ b1 < Nb /\ d < Nd)%nat.

(** The function part of a cluster pass that returned. *)
Definition returned {A : Type} (r : result (A * Qc)) (default : A) : A :=
  match r with
  | Ok p => fst p
  | Throw _ => default
  end.

End Symmetrize.

(** *** The overloads of [execute] that split a function into blocks

    A function over a product of domains is symmetrized block by block: the
    entries of one block are copied into a temporary function, [execute] is
    called on the temporary (the overload for its domain is chosen at
    compile time; here it is a parameter, with [do_diff] already given to
    it), and the temporary is copied back.  A call that throws ends the
    loops.  A temporary starts with zeros; the loops assign every entry in
    range before the pass is called. *)

Module SymmetrizeBlocks.
Import Solver Symmetrize.

Definition bind {A B : Type} (r : result A) (k : A -> result B) : result B :=
  match r with
  | Ok a => k a
  | Throw e => Throw e
  end.

(** [for (int i = 0; i < n; ++i) body], the body possibly throwing. *)
Definition for_range_r {A : Type} (n : nat) (body : nat -> A -> result A)
  (r : result A) : result A :=
  foldl (fun r i => bind r (body i)) r (seq 0 n).

(** Index tuples: [(nu_0, nu_1, ind_0, ind_1)] over [(b, b, d0, d1)] and
    [(b_0, s_0, b_1, s_1, ind_0)] over [(nu, nu, d0)]; over
    [(nu, nu, d0, d1)] they are those of [spin_key]. *)
Definition key4 : Type := nat * nat * nat * nat.
Definition key5 : Type := nat * nat * nat * nat * nat.

Section Overloads.
Context {K : Type} `{Scalar K}.

(** The pass called on a temporary over one domain, and on a temporary over
    a band pair and a domain. *)
Definition pass1 : Type := func nat K -> result (func nat K * Qc).
Definition pass3 : Type :=
  func (nat * nat * nat) K -> result (func (nat * nat * nat) K * Qc).

(** [execute(function<scalartype, (b, b, f_dmn_0, f_dmn_1)>&)]: first along
    [f_dmn_0] with the temporary [f0], then along [f_dmn_1] with [f1].  The
    bodies of the innermost of the outer loops come first. *)
Definition bb_d0_block (N0 : nat) (execute0 : pass1) (nu_0 nu_1 ind_1 : nat)
  (st : func key4 K * func nat K) : result (func key4 K * func nat K) :=
  let '(f, f0) := st in
  let f0 := for_range N0 (fun ind_0 f0 =>
              upd f0 ind_0 (f (nu_0, nu_1, ind_0, ind_1))) f0 in
  bind (execute0 f0) (fun '(f0, _) =>
    Ok (for_range N0 (fun ind_0 f =>
          upd f (nu_0, nu_1, ind_0, ind_1) (f0 ind_0)) f, f0)).

Definition bb_d1_block (N1 : nat) (execute1 : pass1) (nu_0 nu_1 ind_0 : nat)
  (st : func key4 K * func nat K) : result (func key4 K * func nat K) :=
  let '(f, f1) := st in
  let f1 := for_range N1 (fun ind_1 f1 =>
              upd f1 ind_1 (f (nu_0, nu_1, ind_0, ind_1))) f1 in
  bind (execute1 f1) (fun '(f1, _) =>
    Ok (for_range N1 (fun ind_1 f =>
          upd f (nu_0, nu_1, ind_0, ind_1) (f1 ind_1)) f, f1)).

Definition execute_bb_d0_d1 (Nb N0 N1 : nat) (execute0 execute1 : pass1)
  (f : func key4 K) : result (func key4 K) :=
  bind
    (for_range_r Nb (fun nu_0 st =>
       for_range_r Nb (fun nu_1 st =>
         for_range_r N1 (bb_d0_block N0 execute0 nu_0 nu_1) (Ok st))
         (Ok st))
       (Ok (f, fun _ => s0)))
    (fun '(f, _) =>
       bind
         (for_range_r Nb (fun nu_0 st =>
            for_range_r Nb (fun nu_1 st =>
              for_range_r N0 (bb_d1_block N1 execute1 nu_0 nu_1) (Ok st))
              (Ok st))
            (Ok (f, fun _ => s0)))
         (fun '(f, _) => Ok f)).

(** [execute(function<scalartype, (nu, nu, f_dmn_0)>&)]: for each spin, the
    block of the entries with both spins equal to it. *)
Definition nu_nu_d0_block (Nb N0 : nat) (execute0 : pass3) (spin_ind : nat)
  (st : func key5 K * func (nat * nat * nat) K)
  : result (func key5 K * func (nat * nat * nat) K) :=
  let '(f, f0) := st in
  let f0 :=
    for_range Nb (fun b_0 =>
      for_range Nb (fun b_1 =>
        for_range N0 (fun ind_0 f0 =>
          upd f0 (b_0, b_1, ind_0) (f (b_0, spin_ind, b_1, spin_ind, ind_0))))) f0 in
  bind (execute0 f0) (fun '(f0, _) =>
    Ok (for_range Nb (fun b_0 =>
          for_range Nb (fun b_1 =>
            for_range N0 (fun ind_0 f =>
              upd f (b_0, spin_ind, b_1, spin_ind, ind_0) (f0 (b_0, b_1, ind_0))))) f,
        f0)).

Definition execute_nu_nu_d0 (Nb Ns N0 : nat) (execute0 : pass3)
  (f : func key5 K) : result (func key5 K) :=
  bind (for_range_r Ns (nu_nu_d0_block Nb N0 execute0) (Ok (f, fun _ => s0)))
       (fun '(f, _) => Ok f).

(** [execute(function<scalartype, (nu, nu, f_dmn_0, f_dmn_1)>&)]: the pass
    over the electron spin, then the equal-spin blocks along [f_dmn_0], then
    those along [f_dmn_1]. *)
Definition spin_d0_block (Nb N0 : nat) (execute0 : pass3) (ind_1 spin_ind : nat)
  (st : func spin_key K * func (nat * nat * nat) K)
  : result (func spin_key K * func (nat * nat * nat) K) :=
  let '(f, f0) := st in
  let f0 :=
    for_range Nb (fun b_0 =>
      for_range Nb (fun b_1 =>
        for_range N0 (fun ind_0 f0 =>
          upd f0 (b_0, b_1, ind_0)
            (f (b_0, spin_ind, b_1, spin_ind, ind_0, ind_1))))) f0 in
  bind (execute0 f0) (fun '(f0, _) =>
    Ok (for_range Nb (fun b_0 =>
          for_range Nb (fun b_1 =>
            for_range N0 (fun ind_0 f =>
              upd f (b_0, spin_ind, b_1, spin_ind, ind_0, ind_1)
                (f0 (b_0, b_1, ind_0))))) f,
        f0)).

Definition spin_d1_block (Nb N1 : nat) (execute1 : pass3) (ind_0 spin_ind : nat)
  (st : func spin_key K * func (nat * nat * nat) K)
  : result (func spin_key K * func (nat * nat * nat) K) :=
  let '(f, f1) := st in
  let f1 :=
    for_range N1 (fun ind_1 =>
      for_range Nb (fun b_1 =>
        for_range Nb (fun b_0 f1 =>
          upd f1 (b_0, b_1, ind_1)
            (f (b_0, spin_ind, b_1, spin_ind, ind_0, ind_1))))) f1 in
  bind (execute1 f1) (fun '(f1, _) =>
    Ok (for_range N1 (fun ind_1 =>
          for_range Nb (fun b_1 =>
            for_range Nb (fun b_0 f =>
              upd f (b_0, spin_ind, b_1, spin_ind, ind_0, ind_1)
                (f1 (b_0, b_1, ind_1))))) f,
        f1)).

Definition execute_nu_nu_d0_d1 (Nb Ns N0 N1 : nat) (execute0 execute1 : pass3)
  (f : func spin_key K) : result (func spin_key K) :=
  let f := symmetrize_over_electron_spin Nb N0 N1 f in
  bind
    (for_range_r N1 (fun ind_1 st =>
       for_range_r Ns (spin_d0_block Nb N0 execute0 ind_1) (Ok st))
       (Ok (f, fun _ => s0)))
    (fun '(f, _) =>
       bind
         (for_range_r N0 (fun ind_0 st =>
            for_range_r Ns (spin_d1_block Nb N1 execute1 ind_0) (Ok st))
            (Ok (f, fun _ => s0)))
         (fun '(f, _) => Ok f)).

(** [execute(f, H_symmetry, do_diff)] ignores [H_symmetry] and calls
    [execute(f, do_diff)]. *)
Definition execute_H {Key H_table : Type} (execute_f : func Key K -> result (func Key K))
  (f : func Key K) (H_symmetry : H_table) : result (func Key K) :=
  execute_f f.

(** A pass that returns on every function, acts on the entries in range as
    the map [P] and reads only entries in range. *)
Definition acts_as {Sub : Type} (in_sub : Sub -> Prop)
  (pass : func Sub K -> result (func Sub K * Qc))
  (P : func Sub K -> func Sub K) : Prop :=
  (forall g, exists g' m, pass g = Ok (g', m) /\ forall k, in_sub k -> g' k = P g k) /\
  (forall g1 g2, (forall k, in_sub k -> g1 k = g2 k) ->
                 forall k, in_sub k -> P g1 k = P g2 k).

End Overloads.

(** The triples [(x, y, z)] three nested loops visit, the first counter
    outermost. *)
Definition triples (n1 n2 n3 : nat) : list (nat * nat * nat) :=
  x ← seq 0 n1; y ← seq 0 n2; z ← seq 0 n3; [(x, y, z)].

(** The pairs [(x, y)] two nested loops visit. *)
Definition pairs {X Y : Type} (l1 : list X) (l2 : list Y) : list (X * Y) :=
  l1 ≫= fun x => pair x <$> l2.

End SymmetrizeBlocks.

(** ** The walker/accumulator rendezvous

    [startWalker] and [startAccumulator] as an interleaving of atomic steps:
    one step is one access to shared state (an atomic operation, or a block
    run under [mutex_queue_] or [mutex_merge_]) together with the thread-local
    code before the next one.  A schedule is the list of threads in the order
    they take their steps. *)

Module Rendezvous.

(** Modelled from the spec: the wrapper [StdThreadQmciAccumulator]
    (stdthread_qmci_accumulator.hpp) is not among the sources.  Sections 4.3
    and 6: [updateFrom] copies the sample and signals the private "sample
    available" event; [waitForQmciWalker] blocks until that event or
    [notifyDone]; [notifyDone] wakes the waiter with a terminate flag, after
    which [measure] does nothing; [measure] folds the sample in (one more
    measurement) and clears the event. *)
Record Accumulator : Type := mkAccumulator {
  measuring : bool;
  done : bool;
  measurements : nat
}.

Definition updateFrom (a : Accumulator) : Accumulator :=
  mkAccumulator true (done a) (measurements a).

Definition notifyDone (a : Accumulator) : Accumulator :=
  mkAccumulator (measuring a) true (measurements a).

Definition wait_over (a : Accumulator) : bool := measuring a || done a.

Definition measure (a : Accumulator) : Accumulator :=
  if done a then a else mkAccumulator false (done a) (S (measurements a)).

(** Program points of [startAccumulator]. *)
Inductive acc_pc : Type :=
| A_Top        (* the block under mutex_queue_ at the head of the loop *)
| A_Waiting    (* accumulator_obj.waitForQmciWalker() *)
| A_Measure    (* accumulator_obj.measure() *)
| A_Merge      (* accumulator_obj.sumTo(..) under mutex_merge_ *)
| A_Finished.

Record AccThread : Type := mkAccThread {
  a_pc : acc_pc;
  accumulator_obj : Accumulator
}.

(** Program points of [startWalker]: [iterateOverLocalMeasurements] with the
    callback inlined. *)
Inductive walker_pc : Type :=
| W_Init                   (* the init statement of the for loop *)
| W_Test                   (* meas_id < n_local_meas *)
| W_Sweep                  (* walker.doSweep() *)
| W_Pop                    (* wait on queue_insertion_, top(), pop() *)
| W_Update (acc_ptr : nat) (* acc_ptr->updateFrom(walker) *)
| W_Incr                   (* the iteration expression of the for loop *)
| W_Finish                 (* ++walk_finished_ == get_walkers() *)
| W_Drain                  (* notifyDone() on every queued accumulator *)
| W_Done.

Record WalkerThread : Type := mkWalkerThread {
  w_pc : walker_pc;
  meas_id : nat;
  sweeps : nat   (* samples this walker has produced *)
}.

Record Config : Type := mkConfig {
  get_walkers : nat;
  get_accumulators : nat;
  fix_meas_per_walker : bool;
  total_meas : nat   (* getWorkload(get_measurements(), concurrency_) *)
}.

Definition n_local_meas (cfg : Config) (walker_id : nat) : nat :=
  if fix_meas_per_walker cfg
  then Z.to_nat (Solver.getWorkload (Z.of_nat (total_meas cfg))
                   (Z.of_nat (get_walkers cfg)) (Z.of_nat walker_id))
  else total_meas cfg.

Record State : Type := mkState {
  walk_finished_ : nat;
  measurements_done_ : nat;
  accumulators_queue_ : list nat;   (* top of the stack first *)
  walkers : list WalkerThread;
  accumulators : list AccThread;
  accumulator_ : nat                (* measurements summed into the global accumulator *)
}.

Definition initial (cfg : Config) : State :=
  mkState 0 0 []
    (replicate (get_walkers cfg) (mkWalkerThread W_Init 0 0))
    (replicate (get_accumulators cfg) (mkAccThread A_Top (mkAccumulator false false 0)))
    0.

Definition set_walker (st : State) (i : nat) (w : WalkerThread) : State :=
  mkState (walk_finished_ st) (measurements_done_ st) (accumulators_queue_ st)
    (<[i := w]> (walkers st)) (accumulators st) (accumulator_ st).

Definition set_acc (st : State) (j : nat) (a : AccThread) : State :=
  mkState (walk_finished_ st) (measurements_done_ st) (accumulators_queue_ st)
    (walkers st) (<[j := a]> (accumulators st)) (accumulator_ st).

Definition set_queue (st : State) (q : list nat) : State :=
  mkState (walk_finished_ st) (measurements_done_ st) q
    (walkers st) (accumulators st) (accumulator_ st).

(** [notifyDone] on every accumulator of the queue. *)
Definition notify_all (q : list nat) (accs : list AccThread) : list AccThread :=
  foldl (fun accs j =>
           match accs !! j with
           | Some a => <[j := mkAccThread (a_pc a) (notifyDone (accumulator_obj a))]> accs
           | None => accs
           end) accs q.

Definition walker_step (cfg : Config) (i : nat) (w : WalkerThread) (st : State)
  : option State :=
  match w_pc w with
  | W_Init =>
      let m := if fix_meas_per_walker cfg then 0 else measurements_done_ st in
      Some (set_walker st i (mkWalkerThread W_Test m (sweeps w)))
  | W_Test =>
      if meas_id w <? n_local_meas cfg i
      then Some (set_walker st i (mkWalkerThread W_Sweep (meas_id w) (sweeps w)))
      else Some (set_walker st i (mkWalkerThread W_Finish (meas_id w) (sweeps w)))
  | W_Sweep =>
      Some (set_walker st i (mkWalkerThread W_Pop (meas_id w) (S (sweeps w))))
  | W_Pop =>
      match accumulators_queue_ st with
      | [] => None
      | acc_ptr :: q =>
          Some (set_walker (set_queue st q) i
                  (mkWalkerThread (W_Update acc_ptr) (meas_id w) (sweeps w)))
      end
  | W_Update acc_ptr =>
      match accumulators st !! acc_ptr with
      | None => None
      | Some a =>
          Some (set_walker
                  (set_acc st acc_ptr (mkAccThread (a_pc a) (updateFrom (accumulator_obj a))))
                  i (mkWalkerThread W_Incr (meas_id w) (sweeps w)))
      end
  | W_Incr =>
      if fix_meas_per_walker cfg
      then Some (set_walker st i (mkWalkerThread W_Test (S (meas_id w)) (sweeps w)))
      else
        let d := S (measurements_done_ st) in
        Some (set_walker
                (mkState (walk_finished_ st) d (accumulators_queue_ st)
                   (walkers st) (accumulators st) (accumulator_ st))
                i (mkWalkerThread W_Test d (sweeps w)))
  | W_Finish =>
      let wf := S (walk_finished_ st) in
      Some (set_walker
              (mkState wf (measurements_done_ st) (accumulators_queue_ st)
                 (walkers st) (accumulators st) (accumulator_ st))
              i (mkWalkerThread (if wf =? get_walkers cfg then W_Drain else W_Done)
                   (meas_id w) (sweeps w)))
  | W_Drain =>
      Some (set_walker
              (mkState (walk_finished_ st) (measurements_done_ st) []
                 (walkers st)
                 (notify_all (accumulators_queue_ st) (accumulators st))
                 (accumulator_ st))
              i (mkWalkerThread W_Done (meas_id w) (sweeps w)))
  | W_Done => None
  end.

Definition acc_step (cfg : Config) (j : nat) (a : AccThread) (st : State)
  : option State :=
  match a_pc a with
  | A_Top =>
      if walk_finished_ st =? get_walkers cfg
      then Some (set_acc st j (mkAccThread A_Merge (accumulator_obj a)))
      else Some (set_acc (set_queue st (j :: accumulators_queue_ st)) j
                   (mkAccThread A_Waiting (accumulator_obj a)))
  | A_Waiting =>
      if wait_over (accumulator_obj a)
      then Some (set_acc st j (mkAccThread A_Measure (accumulator_obj a)))
      else None
  | A_Measure =>
      Some (set_acc st j (mkAccThread A_Top (measure (accumulator_obj a))))
  | A_Merge =>
      Some (set_acc
              (mkState (walk_finished_ st) (measurements_done_ st)
                 (accumulators_queue_ st) (walkers st) (accumulators st)
                 (accumulator_ st + measurements (accumulator_obj a)))
              j (mkAccThread A_Finished (accumulator_obj a)))
  | A_Finished => None
  end.

Inductive thread : Type :=
| Walker (i : nat)
| Acc (j : nat).

(** One step of the chosen thread; [None] when it is blocked, has finished
    or does not exist. *)
Definition step (cfg : Config) (t : thread) (st : State) : option State :=
  match t with
  | Walker i =>
      match walkers st !! i with
      | Some w => walker_step cfg i w st
      | None => None
      end
  | Acc j =>
      match accumulators st !! j with
      | Some a => acc_step cfg j a st
      | None => None
      end
  end.

Fixpoint run (cfg : Config) (schedule : list thread) (st : State) : option State :=
  match schedule with
  | [] => Some st
  | t :: rest =>
      match step cfg t st with
      | Some st' => run cfg rest st'
      | None => None
      end
  end.

(** All futures have returned. *)
Definition finished (st : State) : bool :=
  forallb (fun w => match w_pc w with W_Done => true | _ => false end) (walkers st)
  && forallb (fun a => match a_pc a with A_Finished => true | _ => false end)
       (accumulators st).

Definition total_sweeps (st : State) : nat :=
  sum_list_with sweeps (walkers st).

Definition total_measurements (st : State) : nat :=
  sum_list_with (fun a => measurements (accumulator_obj a)) (accumulators st).

(** Bookkeeping for the invariant of the rendezvous. *)

(** A walker between its sweep and the end of [updateFrom] carries a sample
    that no accumulator has received yet. *)
Definition in_flight (w : WalkerThread) : nat :=
  match w_pc w with
  | W_Pop | W_Update _ => 1
  | _ => 0
  end.

(** A walker that has popped accumulator [j] and not yet updated it. *)
Definition holds (j : nat) (w : WalkerThread) : nat :=
  match w_pc w with
  | W_Update acc_ptr => if decide (acc_ptr = j) then 1 else 0
  | _ => 0
  end.

(** A walker that has incremented [walk_finished_]. *)
Definition past_finish (w : WalkerThread) : nat :=
  match w_pc w with
  | W_Drain | W_Done => 1
  | _ => 0
  end.

(** An accumulator holding a sample it has not measured yet. *)
Definition pending (a : AccThread) : nat :=
  if measuring (accumulator_obj a) then 1 else 0.

(** An accumulator waiting with neither a sample nor the terminate flag. *)
Definition idle (a : AccThread) : nat :=
  match a_pc a with
  | A_Waiting =>
      if measuring (accumulator_obj a) || done (accumulator_obj a) then 0 else 1
  | _ => 0
  end.

(** What an accumulator has summed into the global one. *)
Definition merged (a : AccThread) : nat :=
  match a_pc a with
  | A_Finished => measurements (accumulator_obj a)
  | _ => 0
  end.

Definition quiet_pc (pc : acc_pc) : bool :=
  match pc with
  | A_Top | A_Merge | A_Finished => true
  | _ => false
  end.

Definition queued (j : nat) (q : list nat) : nat :=
  length (filter (fun j' => j' = j) q).

(** Progress of a walker through its private loop (fixed-per-walker mode):
    the number of sweeps it must have done at each program point. *)
Definition fixed_progress (n : nat) (w : WalkerThread) : Prop :=
  match w_pc w with
  | W_Init => sweeps w = 0
  | W_Test => sweeps w = meas_id w /\ meas_id w <= n
  | W_Sweep => sweeps w = meas_id w /\ meas_id w < n
  | W_Pop | W_Update _ | W_Incr => sweeps w = S (meas_id w) /\ meas_id w < n
  | W_Finish | W_Drain | W_Done => sweeps w = n
  end.

Definition all_progress (cfg : Config) (st : State) : Prop :=
  forall i w, walkers st !! i = Some w -> fixed_progress (n_local_meas cfg i) w.

Record invariant (cfg : Config) (st : State) : Prop := mkInvariant {
  inv_walkers : length (walkers st) = get_walkers cfg;
  inv_finished : walk_finished_ st = sum_list_with past_finish (walkers st);
  inv_drain : forall i w, walkers st !! i = Some w -> w_pc w = W_Drain ->
              walk_finished_ st = get_walkers cfg;
  inv_done : forall j a, accumulators st !! j = Some a ->
             done (accumulator_obj a) = true -> walk_finished_ st = get_walkers cfg;
  inv_held : forall j a, accumulators st !! j = Some a ->
             queued j (accumulators_queue_ st) + sum_list_with (holds j) (walkers st)
             = idle a;
  inv_quiet : forall j a, accumulators st !! j = Some a ->
              quiet_pc (a_pc a) = true -> measuring (accumulator_obj a) = false;
  inv_excl : forall j a, accumulators st !! j = Some a ->
             measuring (accumulator_obj a) = true -> done (accumulator_obj a) = false;
  inv_ready : forall j a, accumulators st !! j = Some a ->
              a_pc a = A_Measure -> wait_over (accumulator_obj a) = true;
  inv_balance : sum_list_with sweeps (walkers st)
                = sum_list_with (fun a => measurements (accumulator_obj a)) (accumulators st)
                  + sum_list_with pending (accumulators st)
                  + sum_list_with in_flight (walkers st);
  inv_merged : accumulator_ st = sum_list_with merged (accumulators st)
}.

(** A scheduler for examples: the first thread of the list that can step
    takes one, until none can or the fuel is used up.  It yields the schedule
    it followed. *)
Fixpoint first_enabled (cfg : Config) (ts : list thread) (st : State)
  : option (thread * State) :=
  match ts with
  | [] => None
  | t :: rest =>
      match step cfg t st with
      | Some st' => Some (t, st')
      | None => first_enabled cfg rest st
      end
  end.

Definition all_threads (cfg : Config) : list thread :=
  map Walker (seq 0 (get_walkers cfg)) ++ map Acc (seq 0 (get_accumulators cfg)).

Fixpoint schedule_to_end (cfg : Config) (fuel : nat) (st : State) : list thread :=
  match fuel with
  | O => []
  | S fuel' =>
      match first_enabled cfg (all_threads cfg) st with
      | Some (t, st') => t :: schedule_to_end cfg fuel' st'
      | None => []
      end
  end.

End Rendezvous.

(** ** Bookkeeping for the bounds and the progress of the rendezvous *)

Module Progress.
Import Rendezvous.

(** A walker that will run (or is running) one more iteration of the loop
    with the shared counter: it is inside the body, or at the test with a
    value of the counter below the bound [M]. *)
Definition committed (M : nat) (w : WalkerThread) : nat :=
  match w_pc w with
  | W_Test => if decide (meas_id w < M) then 1 else 0
  | W_Sweep | W_Pop | W_Update _ | W_Incr => 1
  | _ => 0
  end.

(** A walker that has swept in the current iteration and not yet executed
    the iteration expression. *)
Definition swept (w : WalkerThread) : nat :=
  match w_pc w with
  | W_Pop | W_Update _ | W_Incr => 1
  | _ => 0
  end.

Definition left_loop (w : WalkerThread) : bool :=
  match w_pc w with
  | W_Finish | W_Drain | W_Done => true
  | _ => false
  end.

(** The loop with the shared counter, over all walkers. *)
Record shared_invariant (cfg : Config) (st : State) : Prop := mkShared {
  sh_walkers : length (walkers st) = get_walkers cfg;
  sh_sweeps : total_sweeps st
              = measurements_done_ st + sum_list_with swept (walkers st);
  sh_read : forall i w, walkers st !! i = Some w -> w_pc w <> W_Init ->
            meas_id w <= measurements_done_ st;
  sh_left : forall i w, walkers st !! i = Some w -> left_loop w = true ->
            total_meas cfg <= meas_id w;
  sh_bound : total_meas cfg <= measurements_done_ st ->
             measurements_done_ st
             + sum_list_with (committed (total_meas cfg)) (walkers st) + 1
             <= total_meas cfg + get_walkers cfg
}.

(** An accumulator thread that has left its loop. *)
Definition exited (a : AccThread) : bool :=
  match a_pc a with
  | A_Merge | A_Finished => true
  | _ => false
  end.

(** What the threads need of each other to go on. *)
Record live_invariant (cfg : Config) (st : State) : Prop := mkLive {
  lv_accumulators : length (accumulators st) = get_accumulators cfg;
  lv_queue : forall j, j ∈ accumulators_queue_ st -> j < length (accumulators st);
  lv_held : forall i w j, walkers st !! i = Some w -> w_pc w = W_Update j ->
            j < length (accumulators st);
  lv_exit : forall j a, accumulators st !! j = Some a -> exited a = true ->
            walk_finished_ st = get_walkers cfg;
  lv_drained : walk_finished_ st = get_walkers cfg ->
               (exists i w, walkers st !! i = Some w /\ w_pc w = W_Drain) \/
               accumulators_queue_ st = []
}.



(** A walker inside the body of its measurement loop. *)
Definition in_body (w : WalkerThread) : bool :=
  match w_pc w with
  | W_Sweep | W_Pop | W_Update _ | W_Incr => true
  | _ => false
  end.

Record loop_invariant (cfg : Config) (st : State) : Prop := mkLoop {
  lp_body : forall i w, walkers st !! i = Some w -> in_body w = true ->
            meas_id w < n_local_meas cfg i;
  lp_read : fix_meas_per_walker cfg = false ->
            forall i w, walkers st !! i = Some w -> w_pc w <> W_Init ->
              meas_id w <= measurements_done_ st
}.







(** What holds in every state a run reaches. *)
Definition reachable_invariant (cfg : Config) (st : State) : Prop :=
  invariant cfg st /\ live_invariant cfg st /\ loop_invariant cfg st.

End Progress.

(** ** [startWalkerAndAccumulator]

    A thread that owns both a walker and an accumulator: the callback of
    [iterateOverLocalMeasurements] sweeps, copies the sample into the
    thread's own accumulator and measures it, all without shared state.  The
    steps that touch shared state are those of the measurement loop, the
    increment of [walk_finished_] and [sumTo] under [mutex_merge_].  One
    thread runs per walker; thread [id] uses walker index [id]. *)

Module Combined.

Inductive pc : Type :=
| C_Init      (* the init statement of the for loop *)
| C_Test      (* meas_id < n_local_meas *)
| C_Body      (* doSweep(); updateFrom(walker); measure() *)
| C_Incr      (* the iteration expression of the for loop *)
| C_Finish    (* ++walk_finished_ *)
| C_Merge     (* accumulator_obj.sumTo(..) under mutex_merge_ *)
| C_Done.

Record Thread : Type := mkThread {
  t_pc : pc;
  meas_id : nat;
  sweeps : nat;         (* sweeps of the walker in the measurement loop *)
  measurements : nat    (* samples accumulator_obj has measured *)
}.

Record State : Type := mkState {
  walk_finished_ : nat;
  measurements_done_ : nat;
  threads : list Thread;
  accumulator_ : nat
}.

Definition initial (cfg : Rendezvous.Config) : State :=
  mkState 0 0 (replicate (Rendezvous.get_walkers cfg) (mkThread C_Init 0 0 0)) 0.

Definition set_thread (st : State) (i : nat) (t : Thread) : State :=
  mkState (walk_finished_ st) (measurements_done_ st) (<[i := t]> (threads st))
    (accumulator_ st).

Definition thread_step (cfg : Rendezvous.Config) (i : nat) (t : Thread) (st : State)
  : option State :=
  match t_pc t with
  | C_Init =>
      let m := if Rendezvous.fix_meas_per_walker cfg then 0 else measurements_done_ st in
      Some (set_thread st i (mkThread C_Test m (sweeps t) (measurements t)))
  | C_Test =>
      if meas_id t <? Rendezvous.n_local_meas cfg i
      then Some (set_thread st i (mkThread C_Body (meas_id t) (sweeps t) (measurements t)))
      else Some (set_thread st i (mkThread C_Finish (meas_id t) (sweeps t) (measurements t)))
  | C_Body =>
      Some (set_thread st i
              (mkThread C_Incr (meas_id t) (S (sweeps t)) (S (measurements t))))
  | C_Incr =>
      if Rendezvous.fix_meas_per_walker cfg
      then Some (set_thread st i
                   (mkThread C_Test (S (meas_id t)) (sweeps t) (measurements t)))
      else
        let d := S (measurements_done_ st) in
        Some (set_thread
                (mkState (walk_finished_ st) d (threads st) (accumulator_ st))
                i (mkThread C_Test d (sweeps t) (measurements t)))
  | C_Finish =>
      Some (set_thread
              (mkState (S (walk_finished_ st)) (measurements_done_ st) (threads st)
                 (accumulator_ st))
              i (mkThread C_Merge (meas_id t) (sweeps t) (measurements t)))
  | C_Merge =>
      Some (set_thread
              (mkState (walk_finished_ st) (measurements_done_ st) (threads st)
                 (accumulator_ st + measurements t))
              i (mkThread C_Done (meas_id t) (sweeps t) (measurements t)))
  | C_Done => None
  end.

(** One step of thread [i]; a schedule lists the threads in the order they
    take their steps. *)
Definition step (cfg : Rendezvous.Config) (i : nat) (st : State) : option State :=
  match threads st !! i with
  | Some t => thread_step cfg i t st
  | None => None
  end.

Fixpoint run (cfg : Rendezvous.Config) (schedule : list nat) (st : State)
  : option State :=
  match schedule with
  | [] => Some st
  | i :: rest =>
      match step cfg i st with
      | Some st' => run cfg rest st'
      | None => None
      end
  end.

Definition finished (st : State) : bool :=
  forallb (fun t => match t_pc t with C_Done => true | _ => false end) (threads st).

Definition total_sweeps (st : State) : nat := sum_list_with sweeps (threads st).

Definition total_measurements (st : State) : nat :=
  sum_list_with measurements (threads st).

(** The walker's side of a thread: where it is in the measurement loop. *)
Definition as_walker (t : Thread) : Rendezvous.WalkerThread :=
  Rendezvous.mkWalkerThread
    (match t_pc t with
     | C_Init => Rendezvous.W_Init
     | C_Test => Rendezvous.W_Test
     | C_Body => Rendezvous.W_Sweep
     | C_Incr => Rendezvous.W_Incr
     | C_Finish => Rendezvous.W_Finish
     | C_Merge | C_Done => Rendezvous.W_Done
     end)
    (meas_id t) (sweeps t).

Definition as_state (st : State) : Rendezvous.State :=
  Rendezvous.mkState (walk_finished_ st) (measurements_done_ st) []
    (as_walker <$> threads st) [] (accumulator_ st).

Definition past_finish (t : Thread) : nat :=
  match t_pc t with
  | C_Merge | C_Done => 1
  | _ => 0
  end.

Definition merged (t : Thread) : nat :=
  match t_pc t with
  | C_Done => measurements t
  | _ => 0
  end.

Record invariant (cfg : Rendezvous.Config) (st : State) : Prop := mkInvariant {
  inv_threads : length (threads st) = Rendezvous.get_walkers cfg;
  inv_own : forall i t, threads st !! i = Some t -> measurements t = sweeps t;
  inv_finished : walk_finished_ st = sum_list_with past_finish (threads st);
  inv_merged : accumulator_ st = sum_list_with merged (threads st);
  inv_fixed : Rendezvous.fix_meas_per_walker cfg = true ->
              Rendezvous.all_progress cfg (as_state st);
  inv_shared : Rendezvous.fix_meas_per_walker cfg = false ->
               Progress.shared_invariant cfg (as_state st)
}.

End Combined.

(** * Properties *)

(** ** Machine integers *)

Lemma wrap_id (z : Z) : Int.is_int z -> Int.wrap z = z.
Proof.
  unfold Int.is_int, Int.INT_MIN, Int.INT_MAX, Int.wrap. intros Hz.
  rewrite Z.mod_small; lia.
Qed.

Lemma wrap_is_int (z : Z) : Int.is_int (Int.wrap z).
Proof.
  unfold Int.is_int, Int.INT_MIN, Int.INT_MAX, Int.wrap.
  pose proof (Z.mod_pos_bound (z + 2 ^ 31) (2 ^ 32)). lia.
Qed.

Lemma int_bounds (z : Z) :
  (0 <= z <= Int.INT_MAX)%Z -> Int.is_int z.
Proof. unfold Int.is_int, Int.INT_MIN, Int.INT_MAX. lia. Qed.

(** ** Matrix views *)

Section MatrixViewFacts.
Import MatrixView.
Local Open Scope Z_scope.

Lemma ptr_asserts_spec (v : MatrixView) (i j : Z) :
  ptr_asserts v i j = true <-> (0 <= i <= nrRows v /\ 0 <= j <= nrCols v).
Proof. unfold ptr_asserts, nrRows, nrCols. lia. Qed.

Lemma access_asserts_spec (v : MatrixView) (i j : Z) :
  access_asserts v i j = true <-> (0 <= i < nrRows v /\ 0 <= j < nrCols v).
Proof. unfold access_asserts, nrRows, nrCols. lia. Qed.

Lemma offset_asserts_spec (mat : MatrixView) (oi oj : Z) :
  offset_asserts mat oi oj = true <-> (oi < nrCols mat /\ oj < nrRows mat).
Proof. unfold offset_asserts. lia. Qed.

(** The element offset of a valid index pair does not overflow. *)
Lemma offset_no_wrap (v : MatrixView) (i j : Z) :
  wf v -> 0 <= i <= nrRows v -> 0 <= j <= nrCols v ->
  0 <= i + j * ldm_ v ->
  i + j * ldm_ v <= Int.INT_MAX ->
  Int.mul j (ldm_ v) = j * ldm_ v /\ Int.add i (Int.mul j (ldm_ v)) = i + j * ldm_ v.
Proof.
  intros ([Hr Hr'] & [Hc Hc'] & [Hld Hld'] & Hfit) Hi Hj Hlo Hhi.
  assert (Hm : Int.mul j (ldm_ v) = j * ldm_ v).
  { unfold Int.mul. apply wrap_id, int_bounds. nia. }
  split; [exact Hm|]. unfold Int.add. rewrite Hm. apply wrap_id, int_bounds. lia.
Qed.

Lemma at_valid (v : MatrixView) (i j : Z) :
  wf v -> 0 <= i < nrRows v -> 0 <= j < nrCols v ->
  at_ v i j = Some (ptr_ v + (i + j * ldm_ v)).
Proof.
  intros Hwf Hi Hj. unfold at_.
  assert (Ha : access_asserts v i j = true) by (apply access_asserts_spec; lia).
  rewrite Ha. destruct Hwf as ([Hr Hr'] & [Hc Hc'] & [Hld Hld'] & Hfit).
  destruct (offset_no_wrap v i j) as [_ ->]; unfold wf; try lia; try nia.
  reflexivity.
Qed.

Lemma ptr_valid (v : MatrixView) (i j : Z) :
  wf v -> 0 <= i <= nrRows v -> 0 <= j <= nrCols v ->
  ptr v i j = Some (ptr_ v + ldm_ v * j + i).
Proof.
  intros ([Hr Hr'] & [Hc Hc'] & [Hld Hld'] & Hfit) Hi Hj. unfold ptr.
  assert (Ha : ptr_asserts v i j = true) by (apply ptr_asserts_spec; lia).
  rewrite Ha. unfold leadingDimension, Int.mul.
  rewrite wrap_id; [reflexivity|]. apply int_bounds. nia.
Qed.

(** A view cut out of a well-formed parent within its bounds addresses the
    parent's elements. *)
Lemma sub_view_access (T : Type) (mem : Z -> T) (mat sub : MatrixView)
  (oi oj i j : Z) :
  wf mat -> 0 <= oi -> 0 <= oj ->
  ptr_ sub = ptr_ mat + ldm_ mat * oj + oi ->
  ldm_ sub = ldm_ mat ->
  oi + nrRows sub <= nrRows mat -> oj + nrCols sub <= nrCols mat ->
  0 <= i < nrRows sub -> 0 <= j < nrCols sub ->
  get mem sub i j = get mem mat (i + oi) (j + oj) /\
  get mem sub i j = Some (mem (ptr_ mat + ((i + oi) + (j + oj) * ldm_ mat))).
Proof.
  intros Hwf Hoi Hoj Hp Hl Hrows Hcols Hi Hj.
  assert (Hparent : at_ mat (i + oi) (j + oj)
                    = Some (ptr_ mat + ((i + oi) + (j + oj) * ldm_ mat))).
  { apply at_valid; [exact Hwf|lia|lia]. }
  assert (Hsub : at_ sub i j = Some (ptr_ mat + ((i + oi) + (j + oj) * ldm_ mat))).
  { unfold at_.
    assert (Ha : access_asserts sub i j = true) by (apply access_asserts_spec; lia).
    rewrite Ha, Hl, Hp. destruct Hwf as ([Hr Hr'] & [Hc Hc'] & [Hld Hld'] & Hfit).
    assert (Hm : Int.mul j (ldm_ mat) = j * ldm_ mat).
    { unfold Int.mul. apply wrap_id, int_bounds. nia. }
    unfold Int.add. rewrite Hm, wrap_id; [f_equal; lia|].
    apply int_bounds. nia. }
  unfold get. rewrite Hsub, Hparent. split; reflexivity.
Qed.

(** C7.  View addressing.  For a well-formed view and a valid index pair
    [(i, j)], element access resolves to [base[i + j * ld]] (column-major);
    a view taken from it with offsets [(oi, oj)] (either offset constructor)
    reads at [(i, j)] the parent's element [(i + oi, j + oj)]. *)
Theorem view_addressing (T : Type) (mem : Z -> T) (v : MatrixView) :
  wf v ->
  (forall i j, 0 <= i < nrRows v -> 0 <= j < nrCols v ->
     at_ v i j = Some (ptr_ v + (i + j * ldm_ v)) /\
     get mem v i j = Some (mem (ptr_ v + (i + j * ldm_ v)))) /\
  (forall oi oj ni nj, 0 <= oi -> 0 <= oj -> 0 <= ni -> 0 <= nj ->
     ni + oi <= nrRows v -> nj + oj <= nrCols v ->
     exists sub, of_matrix_sub v oi oj ni nj = Some sub /\
       forall i j, 0 <= i < ni -> 0 <= j < nj ->
         get mem sub i j = get mem v (i + oi) (j + oj) /\
         get mem sub i j = Some (mem (ptr_ v + ((i + oi) + (j + oj) * ldm_ v)))) /\
  (forall oi oj sub, of_matrix_offset v oi oj = Some sub ->
     forall i j, 0 <= i < nrRows sub -> 0 <= j < nrCols sub ->
       get mem sub i j = get mem v (i + oi) (j + oj) /\
       get mem sub i j = Some (mem (ptr_ v + ((i + oi) + (j + oj) * ldm_ v)))).
Proof.
  intros Hwf. split; [|split].
  - intros i j Hi Hj. unfold get. rewrite (at_valid v i j Hwf Hi Hj). auto.
  - intros oi oj ni nj Hoi Hoj Hni Hnj Hr Hc.
    unfold of_matrix_sub. rewrite (ptr_valid v oi oj Hwf) by lia.
    assert (Hs : sub_asserts v oi oj ni nj = true).
    { destruct Hwf as ([Hr0 Hr0'] & [Hc0 Hc0'] & [Hld Hld'] & Hfit). unfold sub_asserts, Int.add.
      rewrite !wrap_id by (apply int_bounds; nia). lia. }
    rewrite Hs. eexists. split; [reflexivity|].
    intros i j Hi Hj.
    apply (sub_view_access T mem v
             (mkView (ptr_ v + ldm_ v * oj + oi) (leadingDimension v) (ni, nj))
             oi oj i j);
      cbn [nrRows nrCols size_ fst snd ptr_ ldm_]; auto; lia.
  - intros oi oj sub Hsub i j Hi Hj.
    unfold of_matrix_offset, of_matrix_sub in Hsub.
    destruct (ptr v oi oj) as [p|] eqn:Hp; [|discriminate].
    destruct (sub_asserts v oi oj _ _); [|discriminate].
    destruct (offset_asserts v oi oj); [|discriminate].
    injection Hsub as <-.
    unfold ptr in Hp. destruct (ptr_asserts v oi oj) eqn:Ha; [|discriminate].
    apply ptr_asserts_spec in Ha. injection Hp as <-.
    destruct Hwf as ([Hr0 Hr0'] & [Hc0 Hc0'] & [Hld Hld'] & Hfit).
    assert (Hwf : wf v) by (unfold wf; auto).
    cbn [nrRows nrCols size_ fst snd] in Hi, Hj.
    fold (nrRows v) in Hi. fold (nrCols v) in Hj.
    assert (Hsr : Int.sub (nrRows v) oi = nrRows v - oi).
    { unfold Int.sub. apply wrap_id, int_bounds. nia. }
    assert (Hsc : Int.sub (nrCols v) oj = nrCols v - oj).
    { unfold Int.sub. apply wrap_id, int_bounds. nia. }
    rewrite Hsr in Hi. rewrite Hsc in Hj.
    apply (sub_view_access T mem v
             (mkView (ptr_ v + Int.mul (leadingDimension v) oj + oi)
                (leadingDimension v)
                (Int.sub (nrRows v) oi, Int.sub (nrCols v) oj))
             oi oj i j);
      cbn [nrRows nrCols size_ fst snd ptr_ ldm_]; auto;
      fold (nrRows v); fold (nrCols v); try lia.
    unfold leadingDimension, Int.mul. rewrite wrap_id; [reflexivity|].
    apply int_bounds. nia.
Qed.

(** The view over the 4 x 5 matrix of the unit test is well formed, and its
    element [(1, 2)] is at offset [1 + 2 * 4]. *)
Lemma view_addressing_witness :
  at_ (mkView 100 4 (4, 5)) 1 2 = Some 109 /\
  get (fun a => a) (mkView 100 4 (4, 5)) 1 2 = Some 109.
Proof.
  assert (Hwf : wf (mkView 100 4 (4, 5))).
  { unfold wf, nrRows, nrCols, Int.INT_MAX. simpl. lia. }
  apply (proj1 (view_addressing Z (fun a => a) (mkView 100 4 (4, 5)) Hwf) 1 2);
    unfold nrRows, nrCols; simpl; lia.
Defined.

(** C9 as stated fails: [ptr(i, j)] admits the one-past-the-end indices
    [i = rows] and [j = cols], which [operator()] rejects.  On a 2 x 2 view,
    [ptr(2, 2)] passes its assertions and [view(2, 2)] does not. *)
Lemma ptr_bounds_not_strict :
  ptr_asserts (mkView 0 2 (2, 2)) 2 2 = true /\
  access_asserts (mkView 0 2 (2, 2)) 2 2 = false /\
  ptr (mkView 0 2 (2, 2)) 2 2 = Some 6 /\
  at_ (mkView 0 2 (2, 2)) 2 2 = None.
Proof. repeat split; reflexivity. Qed.

(** C9, amended.  [ptr(i, j)] is checked against the inclusive bounds
    [0 <= i <= rows] and [0 <= j <= cols], element access against the strict
    ones; every pair accepted by element access is accepted by [ptr], and the
    pairs [ptr] accepts beyond those are exactly the ones with [i = rows] or
    [j = cols]. *)
Theorem ptr_bounds_inclusive (v : MatrixView) (i j : Z) :
  (ptr_asserts v i j = true <-> 0 <= i <= nrRows v /\ 0 <= j <= nrCols v) /\
  (access_asserts v i j = true <-> 0 <= i < nrRows v /\ 0 <= j < nrCols v) /\
  (access_asserts v i j = true -> ptr_asserts v i j = true) /\
  (ptr_asserts v i j = true /\ access_asserts v i j = false <->
   0 <= i <= nrRows v /\ 0 <= j <= nrCols v /\ (i = nrRows v \/ j = nrCols v)).
Proof.
  pose proof (ptr_asserts_spec v i j) as Hp.
  pose proof (access_asserts_spec v i j) as Ha.
  split; [exact Hp|]. split; [exact Ha|]. split.
  - intros H. apply Hp. apply Ha in H. lia.
  - split.
    + intros [H1 H2]. apply Hp in H1.
      destruct (Z.eq_dec i (nrRows v)) as [->|Hi]; [lia|].
      destruct (Z.eq_dec j (nrCols v)) as [->|Hj]; [lia|].
      assert (access_asserts v i j = true) by (apply Ha; lia). congruence.
    + intros (Hi & Hj & Hor). split; [apply Hp; lia|].
      destruct (access_asserts v i j) eqn:E; [|reflexivity].
      destruct Ha as [Ha _]. specialize (Ha eq_refl). lia.
Qed.

(** C10.  The assertions of [MatrixView(mat, offset_i, offset_j)] compare
    [offset_i] with the column count and [offset_j] with the row count.  For
    every parent that is not square some pair of [int] offsets that is in
    range ([offset_i < rows], [offset_j < cols]) fails them, and some pair
    that is out of range passes them.  When both dimensions are positive the
    two pairs can be taken non-negative, and then the whole constructor
    aborts on the first and returns a view on the second. *)
Theorem offset_asserts_swapped (mat : MatrixView) :
  wf mat -> nrRows mat <> nrCols mat ->
  (exists oi oj, Int.is_int oi /\ Int.is_int oj /\
     offsets_in_range mat oi oj /\ offset_asserts mat oi oj = false) /\
  (exists oi oj, Int.is_int oi /\ Int.is_int oj /\
     ~ offsets_in_range mat oi oj /\ offset_asserts mat oi oj = true) /\
  (1 <= nrRows mat -> 1 <= nrCols mat ->
   (exists oi oj, 0 <= oi /\ 0 <= oj /\ offsets_in_range mat oi oj /\
      of_matrix_offset mat oi oj = None) /\
   (exists oi oj, 0 <= oi /\ 0 <= oj /\ ~ offsets_in_range mat oi oj /\
      exists v, of_matrix_offset mat oi oj = Some v)).
Proof.
  intros Hwf Hne.
  pose proof Hwf as ([Hr Hr'] & [Hc Hc'] & [Hld Hld'] & Hfit).
  assert (Hint : forall z, -1 <= z <= Int.INT_MAX -> Int.is_int z).
  { unfold Int.is_int, Int.INT_MIN, Int.INT_MAX. lia. }
  assert (Hfalse : forall oi oj, ~ (oi < nrCols mat /\ oj < nrRows mat) ->
                     offset_asserts mat oi oj = false).
  { intros oi oj H. destruct (offset_asserts mat oi oj) eqn:E; [|reflexivity].
    apply offset_asserts_spec in E. tauto. }
  assert (Hsome : forall oi oj, 0 <= oi <= nrRows mat -> 0 <= oj <= nrCols mat ->
                    oi < nrCols mat -> oj < nrRows mat ->
                    exists v, of_matrix_offset mat oi oj = Some v).
  { intros oi oj Hoi Hoj H1 H2. unfold of_matrix_offset, of_matrix_sub.
    rewrite (ptr_valid mat oi oj Hwf) by lia.
    assert (Hs : sub_asserts mat oi oj (Int.sub (nrRows mat) oi)
                   (Int.sub (nrCols mat) oj) = true).
    { unfold sub_asserts, Int.sub, Int.add.
      rewrite (wrap_id (nrRows mat - oi)) by (apply int_bounds; lia).
      rewrite (wrap_id (nrCols mat - oj)) by (apply int_bounds; lia).
      rewrite !wrap_id by (apply int_bounds; lia). lia. }
    rewrite Hs.
    assert (Ho : offset_asserts mat oi oj = true) by (apply offset_asserts_spec; lia).
    rewrite Ho. eauto. }
  assert (Hnone : forall oi oj, ~ (oi < nrCols mat /\ oj < nrRows mat) ->
                    of_matrix_offset mat oi oj = None).
  { intros oi oj H. unfold of_matrix_offset.
    destruct (of_matrix_sub mat oi oj _ _); [|reflexivity].
    rewrite (Hfalse oi oj H). reflexivity. }
  unfold offsets_in_range.
  destruct (Z_lt_le_dec (nrCols mat) (nrRows mat)) as [Hlt|Hge].
  - (* more rows than columns *)
    split; [|split].
    + exists (nrCols mat), (nrCols mat - 1).
      repeat split; try (apply Hint; lia); try lia. apply Hfalse. lia.
    + exists (nrCols mat - 1), (nrCols mat).
      repeat split; try (apply Hint; lia); try lia.
      apply offset_asserts_spec. lia.
    + intros H1 H2. split.
      * exists (nrCols mat), 0. repeat split; try lia. apply Hnone. lia.
      * exists 0, (nrCols mat). repeat split; try lia. apply Hsome; lia.
  - (* more columns than rows *)
    assert (Hlt : nrRows mat < nrCols mat) by lia.
    split; [|split].
    + exists (nrRows mat - 1), (nrRows mat).
      repeat split; try (apply Hint; lia); try lia. apply Hfalse. lia.
    + exists (nrRows mat), (nrRows mat - 1).
      repeat split; try (apply Hint; lia); try lia.
      apply offset_asserts_spec. lia.
    + intros H1 H2. split.
      * exists 0, (nrRows mat). repeat split; try lia. apply Hnone. lia.
      * exists (nrRows mat), 0. repeat split; try lia. apply Hsome; lia.
Qed.

(** On the 4 x 5 matrix of the unit test: the in-range offsets [(3, 4)] fail
    the assertions and the out-of-range offsets [(4, 3)] pass them. *)
Lemma offset_asserts_swapped_witness :
  (exists oi oj, Int.is_int oi /\ Int.is_int oj /\
     offsets_in_range (mkView 0 4 (4, 5)) oi oj /\
     offset_asserts (mkView 0 4 (4, 5)) oi oj = false) /\
  (exists oi oj, Int.is_int oi /\ Int.is_int oj /\
     ~ offsets_in_range (mkView 0 4 (4, 5)) oi oj /\
     offset_asserts (mkView 0 4 (4, 5)) oi oj = true).
Proof.
  assert (Hwf : wf (mkView 0 4 (4, 5))).
  { unfold wf, nrRows, nrCols, Int.INT_MAX. simpl. lia. }
  assert (Hne : nrRows (mkView 0 4 (4, 5)) <> nrCols (mkView 0 4 (4, 5))).
  { unfold nrRows, nrCols. simpl. lia. }
  destruct (offset_asserts_swapped (mkView 0 4 (4, 5)) Hwf Hne) as (H1 & H2 & _).
  split; assumption.
Defined.

(** Scenario 1: writing 7 through [view(mat, 1, 2, 3, 3)] at [(0, 0)] changes
    [mat(1, 2)]. *)
Example view_round_trip :
  let mat := mkView 0 4 (4, 5) in
  let mem := fun _ : Z => 0 in
  exists view mem',
    of_matrix_sub mat 1 2 3 3 = Some view /\
    set mem view 0 0 7 = Some mem' /\
    get mem' mat 1 2 = Some 7 /\
    get mem' mat 0 0 = Some 0.
Proof. intros mat mem. eexists. eexists. repeat split. Qed.

Example offset_asserts_4x5 :
  offset_asserts (mkView 0 4 (4, 5)) 3 4 = false /\
  of_matrix_offset (mkView 0 4 (4, 5)) 3 4 = None /\
  offset_asserts (mkView 0 4 (4, 5)) 4 3 = true /\
  of_matrix_offset (mkView 0 4 (4, 5)) 4 3 = Some (mkView 16 4 (0, 2)).
Proof. repeat split; reflexivity. Qed.

End MatrixViewFacts.

(** ** Work distribution over the walkers *)

Section SolverFacts.
Import Solver.
Local Open Scope Z_scope.

Lemma private_loop_record (fuel : nat) (m n : Z) (print : bool)
  (calls : list (Z * Z * bool)) :
  private_loop record_call fuel m n print calls =
  calls ++ map (fun k => (m + Z.of_nat k, n, print))
               (seq 0 (Nat.min fuel (Z.to_nat (n - m)))).
Proof.
  revert m calls. induction fuel as [|fuel IH]; intros m calls.
  - simpl. now rewrite app_nil_r.
  - cbn [private_loop]. destruct (m <? n) eqn:E.
    + apply Z.ltb_lt in E. rewrite IH. unfold record_call.
      replace (Z.to_nat (n - m)) with (Datatypes.S (Z.to_nat (n - (m + 1)))) by lia.
      rewrite <- Nat.succ_min_distr. cbn [seq map].
      rewrite <- app_assoc. cbn [app]. f_equal. f_equal.
      * f_equal. f_equal. lia.
      * rewrite <- seq_shift, map_map. apply map_ext. intros k. f_equal. f_equal. lia.
    + apply Z.ltb_ge in E. replace (Z.to_nat (n - m)) with 0%nat by lia.
      rewrite Nat.min_0_r. simpl. now rewrite app_nil_r.
Qed.

(** The shares of the first [k] workers add up to [k] times the quotient plus
    the part of the remainder they received. *)
Lemma getWorkload_prefix_sum (total n : Z) (k : nat) :
  0 <= total -> 1 <= n -> Z.of_nat k <= n ->
  Z.of_nat (foldr Nat.add 0%nat
              (map (fun w => Z.to_nat (getWorkload total n (Z.of_nat w))) (seq 0 k)))
  = Z.of_nat k * (total / n) + Z.min (Z.of_nat k) (total mod n).
Proof.
  intros Ht Hn. induction k as [|k IH]; intros Hk.
  - simpl. pose proof (Z.mod_pos_bound total n). lia.
  - rewrite seq_S, map_app, foldr_app. cbn [map foldr plus].
    assert (Hq : 0 <= total / n) by (apply Z.div_pos; lia).
    pose proof (Z.mod_pos_bound total n ltac:(lia)) as Hm.
    assert (Hfold : forall (l : list nat) (a : nat),
               foldr Nat.add a l = (foldr Nat.add 0%nat l + a)%nat).
    { induction l as [|x l IHl]; intros a; simpl; [lia|]. rewrite IHl. lia. }
    rewrite Hfold, Nat.add_0_r, Nat2Z.inj_add, IH by lia.
    unfold getWorkload. destruct (Z.of_nat k <? total mod n) eqn:E.
    + apply Z.ltb_lt in E. rewrite Z2Nat.id by lia. lia.
    + apply Z.ltb_ge in E. rewrite Z2Nat.id by lia. lia.
Qed.

(** C5.  With the fixed-per-walker flag set, walker [w] of [W >= 1] invokes
    the callback once per [meas_id = 0, ..., n - 1] with
    [n = floor(M / W) + (1 if w < M mod W else 0)], and the invocations of all
    walkers add up to [M], the process's share of the measurements. *)
Theorem fixed_per_walker_share (p : Parameters) (c : Concurrency) (w : Z) :
  fix_meas_per_walker p = true ->
  1 <= get_walkers p ->
  0 <= getWorkload_concurrency (get_measurements p) c ->
  0 <= w < get_walkers p ->
  let M := getWorkload_concurrency (get_measurements p) c in
  let W := get_walkers p in
  let n := M / W + (if w <? M mod W then 1 else 0) in
  snd (iterateOverLocalMeasurements record_call p c w (0, []))
    = map (fun k => (Z.of_nat k, n, w =? 0)) (seq 0 (Z.to_nat n)) /\
  local_measurements p c w = Z.to_nat n /\
  Z.of_nat (total_local_measurements p c) = M.
Proof.
  intros Hfix HW HM Hw M W n.
  assert (Hcalls : forall v,
    snd (iterateOverLocalMeasurements record_call p c v (0, []))
    = map (fun k => (Z.of_nat k, getWorkload M W v, v =? 0))
          (seq 0 (Z.to_nat (getWorkload M W v)))).
  { intros v. unfold iterateOverLocalMeasurements. rewrite Hfix. cbn [snd fst].
    rewrite private_loop_record. cbn [app]. fold M W.
    rewrite Z.sub_0_r, Nat.min_id. reflexivity. }
  split; [exact (Hcalls w)|]. split.
  - unfold local_measurements. rewrite Hcalls, length_map, length_seq. reflexivity.
  - unfold total_local_measurements.
    rewrite (map_ext _ (fun v => Z.to_nat (getWorkload M W (Z.of_nat v)))).
    + fold W. rewrite (getWorkload_prefix_sum M W (Z.to_nat W)) by lia.
      pose proof (Z.mod_pos_bound M W ltac:(lia)) as Hm.
      pose proof (Z.div_mod M W ltac:(lia)) as Hd.
      rewrite Z2Nat.id by lia. lia.
    + intros v. unfold local_measurements.
      rewrite Hcalls, length_map, length_seq. reflexivity.
Qed.

(** Scenario 3: three walkers, ten measurements on the only process.  Walker
    0 measures four times, walkers 1 and 2 three times each, ten in total. *)
Lemma fixed_per_walker_share_witness :
  let p := mkParameters 3 2 false 0 10 true "" "" in
  let c := mkConcurrency 0 0 1 in
  local_measurements p c 0 = 4%nat /\
  local_measurements p c 1 = 3%nat /\
  local_measurements p c 2 = 3%nat /\
  Z.of_nat (total_local_measurements p c) = 10.
Proof.
  intros p c.
  assert (Hfix : fix_meas_per_walker p = true) by reflexivity.
  assert (HW : 1 <= get_walkers p) by (simpl; lia).
  assert (HM : 0 <= getWorkload_concurrency (get_measurements p) c)
    by (vm_compute; discriminate).
  assert (H0 : 0 <= 0 < get_walkers p) by (simpl; lia).
  assert (H1 : 0 <= 1 < get_walkers p) by (simpl; lia).
  assert (H2 : 0 <= 2 < get_walkers p) by (simpl; lia).
  pose proof (fixed_per_walker_share p c 0 Hfix HW HM H0) as (_ & E0 & Et).
  pose proof (fixed_per_walker_share p c 1 Hfix HW HM H1) as (_ & E1 & _).
  pose proof (fixed_per_walker_share p c 2 Hfix HW HM H2) as (_ & E2 & _).
  repeat split; assumption.
Defined.

(** ** Rejection of invalid configurations *)

Lemma construct_rejects (p : Parameters) :
  get_walkers p < 1 \/ get_accumulators p < 1 -> throws (construct p) = true.
Proof.
  intros Hbad. unfold construct, vector_n.
  destruct (get_walkers p <? 0); [reflexivity|].
  destruct (get_accumulators p <? 0); [reflexivity|].
  replace ((get_walkers p <? 1) || (get_accumulators p <? 1)) with true; [reflexivity|].
  symmetry. apply orb_true_iff. lia.
Qed.

Lemma construct_accepts (p : Parameters) :
  1 <= get_walkers p -> 1 <= get_accumulators p ->
  exists s, construct p = Ok s /\
    nr_walkers_ s = get_walkers p /\ nr_accumulators_ s = get_accumulators p /\
    config_dump_ s = replicate (Z.to_nat (get_walkers p)) [].
Proof.
  intros HW HA. unfold construct, vector_n.
  replace (get_walkers p <? 0) with false by lia.
  replace (get_accumulators p <? 0) with false by lia.
  replace ((get_walkers p <? 1) || (get_accumulators p <? 1)) with false by lia.
  eexists. repeat split.
Qed.

Lemma dispatch_rejects (tasks : list string) (i : Z) (futures : list job) :
  (exists t, In t tasks /\ known_task t = false) ->
  throws (dispatch tasks i futures) = true.
Proof.
  revert i futures. induction tasks as [|task rest IH]; intros i futures [t [Hin Hk]].
  - destruct Hin.
  - cbn [dispatch]. unfold known_task in Hk.
    destruct (String.eqb task "walker") eqn:E1.
    { destruct Hin as [->|Hin]; [rewrite E1 in Hk; discriminate|].
      apply IH. eauto. }
    destruct (String.eqb task "accumulator") eqn:E2.
    { destruct Hin as [->|Hin]; [rewrite E2, orb_true_r in Hk; discriminate|].
      apply IH. eauto. }
    destruct (String.eqb task "walker and accumulator") eqn:E3.
    { destruct Hin as [->|Hin]; [rewrite E3, orb_true_r in Hk; discriminate|].
      apply IH. eauto. }
    reflexivity.
Qed.

Lemma dispatch_accepts (tasks : list string) (i : Z) (futures : list job) :
  Forall (fun t => known_task t = true) tasks ->
  exists jobs, dispatch tasks i futures = Ok (futures ++ jobs) /\
    length jobs = length tasks.
Proof.
  revert i futures. induction tasks as [|task rest IH]; intros i futures Hall.
  - exists []. now rewrite app_nil_r.
  - inversion Hall as [|? ? Hk Hrest]; subst. cbn [dispatch]. unfold known_task in Hk.
    destruct (String.eqb task "walker").
    { destruct (IH (i + 1) (futures ++ [startWalker i]) Hrest) as (jobs & -> & Hl).
      exists (startWalker i :: jobs). rewrite <- app_assoc. simpl. auto. }
    destruct (String.eqb task "accumulator").
    { destruct (IH (i + 1) (futures ++ [startAccumulator i]) Hrest) as (jobs & -> & Hl).
      exists (startAccumulator i :: jobs). rewrite <- app_assoc. simpl. auto. }
    destruct (String.eqb task "walker and accumulator"); [|discriminate].
    destruct (IH (i + 1) (futures ++ [startWalkerAndAccumulator i]) Hrest)
      as (jobs & -> & Hl).
    exists (startWalkerAndAccumulator i :: jobs). rewrite <- app_assoc. simpl. auto.
Qed.

End SolverFacts.

(** ** Configuration snapshots *)

Section SnapshotFacts.
Import Solver Snapshot.
Local Open Scope Z_scope.

(** Whatever the file system answers, the read routine leaves every slot as it
    was or empties all of them: no slot ever receives stored bytes. *)
Lemma readConfigurations_slots (p : Parameters) (c : Concurrency) (w : World) :
  config_dump (readConfigurations p c w) = config_dump w \/
  config_dump (readConfigurations p c w) = map (fun _ => []) (config_dump w).
Proof.
  unfold readConfigurations.
  destruct (String.eqb (get_directory_config_read p) ""); [now left|].
  destruct (try_block p c w) as [fs' [err|]]; [right|left]; reflexivity.
Qed.

(** The routine never consults the read directory: two configurations that
    differ only there run the same [try] block. *)
Lemma readConfigurations_ignores_read_directory (p : Parameters) (c : Concurrency)
  (w : World) (dir : string) :
  dir <> ""%string -> get_directory_config_read p <> ""%string ->
  readConfigurations
    (mkParameters (get_walkers p) (get_accumulators p)
       (shared_walk_and_accumulation_thread p) (get_warm_up_sweeps p)
       (get_measurements p) (fix_meas_per_walker p) dir
       (get_directory_config_write p)) c w
  = readConfigurations p c w.
Proof.
  intros Hdir Hp. unfold readConfigurations, try_block. cbn.
  apply String.eqb_neq in Hdir. apply String.eqb_neq in Hp.
  rewrite Hdir, Hp. reflexivity.
Qed.

(** C6 on a concrete run.  The read directory [in] holds an archive with the
    configurations of two walkers; the write directory is [out].  The
    specified read would fill the two slots; [readConfigurations] leaves them
    empty, logs nothing, and creates [out/process_0.hdf5] holding the two
    empty buffers. *)
Theorem readConfigurations_writes_instead :
  let p := mkParameters 2 1 false 0 10 true "in" "out" in
  let c := mkConcurrency 0 0 1 in
  let stored := [("configuration_0", [1; 2; 3]); ("configuration_1", [4])]%string in
  let w := mkWorld (mkFS [("in/process_0.hdf5"%string, stored)] (fun _ => true))
             [[]; []] [] in
  readConfigurations_spec p c w = [[1; 2; 3]; [4]] /\
  config_dump (readConfigurations p c w) = [[]; []] /\
  cerr (readConfigurations p c w) = [] /\
  files (fs (readConfigurations p c w)) =
    [("out/process_0.hdf5", [("configuration_1", []); ("configuration_0", [])]);
     ("in/process_0.hdf5", stored)]%string /\
  readConfigurations p c w = writeConfigurations p c w.
Proof. repeat split; vm_compute; reflexivity. Qed.

End SnapshotFacts.

(** ** Symmetrization: loops over disjoint blocks of entries *)

Section LoopFacts.
Import Symmetrize.

Lemma for_range_S {A : Type} (n : nat) (body : nat -> A -> A) (init : A) :
  for_range (S n) body init = body n (for_range n body init).
Proof.
  unfold for_range. rewrite seq_S, foldl_app. reflexivity.
Qed.

Lemma for_range_0 {A : Type} (body : nat -> A -> A) (init : A) :
  for_range 0 body init = init.
Proof. reflexivity. Qed.

(** The function component of a loop that also tracks the residual. *)
Lemma for_range_fst {A B : Type} (n : nat) (body : nat -> A * B -> A * B)
  (step : nat -> A -> A) (st : A * B) :
  (forall i s, fst (body i s) = step i (fst s)) ->
  fst (for_range n body st) = for_range n step (fst st).
Proof.
  intros Hbody. induction n as [|n IH]; [reflexivity|].
  rewrite !for_range_S, Hbody, IH. reflexivity.
Qed.

Context {Key K : Type} `{EqDecision Key}.

Lemma upd_eq (f : func Key K) (k : Key) (v : K) : upd f k v k = v.
Proof. unfold upd. case_decide; congruence. Qed.

Lemma upd_ne (f : func Key K) (k k' : Key) (v : K) : k' <> k -> upd f k v k' = f k'.
Proof. intros Hne. unfold upd. case_decide; congruence. Qed.

Lemma local_weaken (P Q : Key -> Prop) (op : func Key K -> func Key K) :
  (forall k, Decision (P k)) ->
  (forall k, P k -> Q k) -> local P op -> local Q op.
Proof.
  intros Hdec Hsub [Hout Hin]. split.
  - intros a k Hk. apply Hout. auto.
  - intros a a' Hagree k Hk. destruct (Hdec k) as [HP|HP].
    + apply Hin; auto.
    + rewrite !Hout by assumption. auto.
Qed.

Lemma local_for_range (P : Key -> Prop) (n : nat)
  (body : nat -> func Key K -> func Key K) :
  (forall i, i < n -> local P (body i)) -> local P (for_range n body).
Proof.
  induction n as [|n IH]; intros Hbody.
  - split; intros; rewrite ?for_range_0; auto.
  - destruct IH as [IHout IHin]; [intros; apply Hbody; lia|].
    destruct (Hbody n ltac:(lia)) as [Hout Hin]. split.
    + intros a k Hk. rewrite for_range_S, Hout by assumption. auto.
    + intros a a' Hagree k Hk. rewrite !for_range_S. apply Hin; auto.
Qed.

(** A loop whose [i]-th iteration works on the block [blk k = i] only: an
    entry ends up as its own iteration, run on the initial function, leaves
    it. *)
Lemma for_range_blocks (blk : Key -> nat) (n : nat)
  (body : nat -> func Key K -> func Key K) :
  (forall i, i < n -> local (fun k => blk k = i) (body i)) ->
  forall f k,
    for_range n body f k = if decide (blk k < n) then body (blk k) f k else f k.
Proof.
  induction n as [|n IH]; intros Hbody f k.
  - rewrite for_range_0. case_decide; [lia|reflexivity].
  - rewrite for_range_S.
    destruct (Hbody n ltac:(lia)) as [Hout Hin].
    assert (IH' := fun f k => IH (fun i Hi => Hbody i ltac:(lia)) f k).
    destruct (decide (blk k = n)) as [Hk|Hk].
    + rewrite decide_True by lia. rewrite Hk.
      apply Hin; [|assumption].
      intros k' Hk'. rewrite IH'. rewrite decide_False by lia. reflexivity.
    + rewrite Hout by assumption. rewrite IH'.
      destruct (decide (blk k < n)); [rewrite decide_True by lia|rewrite decide_False by lia];
        reflexivity.
Qed.

(** The closing loop copies [f_new] into every listed entry. *)
Lemma copy_back_fst `{Scalar K} (mag : K -> Qc) (keys : list Key)
  (f_new f : func Key K) (m : Qc) (k : Key) :
  fst (copy_back mag keys f_new (f, m)) k
  = if decide (k ∈ keys) then f_new k else f k.
Proof.
  unfold copy_back. revert f m. induction keys as [|k0 keys IH]; intros f m.
  - cbn [foldl fst]. destruct (decide (k ∈ [])) as [Hin|Hin]; [|reflexivity].
    now apply not_elem_of_nil in Hin.
  - cbn [foldl fst snd]. rewrite IH.
    destruct (decide (k ∈ keys)) as [Hin|Hin];
      destruct (decide (k ∈ k0 :: keys)) as [Hin'|Hin']; try reflexivity.
    + exfalso. apply Hin'. now apply list_elem_of_further.
    + apply elem_of_cons in Hin' as [->|?]; [|tauto]. apply upd_eq.
    + apply upd_ne. intros ->. apply Hin'. apply list_elem_of_here.
Qed.

End LoopFacts.

Lemma elem_of_keys3 (Nb Nd b0 b1 d : nat) :
  (b0, b1, d) ∈ Symmetrize.keys3 Nb Nd <-> b0 < Nb /\ b1 < Nb /\ d < Nd.
Proof.
  unfold Symmetrize.keys3. rewrite list_elem_of_bind. split.
  - intros (d' & Hd' & Hin). apply list_elem_of_bind in Hd' as (b1' & Hb1' & Hin1).
    apply list_elem_of_bind in Hb1' as (b0' & Hb0' & Hin0).
    apply list_elem_of_singleton in Hb0'. injection Hb0' as -> -> ->.
    apply elem_of_seq in Hin, Hin1, Hin0. lia.
  - intros (H0 & H1 & Hd). exists d. split; [|apply elem_of_seq; lia].
    apply list_elem_of_bind. exists b1. split; [|apply elem_of_seq; lia].
    apply list_elem_of_bind. exists b0. split; [|apply elem_of_seq; lia].
    apply list_elem_of_singleton. reflexivity.
Qed.

(** ** The scalar instances satisfy the laws *)

Section ScalarInstances.
Import Symmetrize.

Lemma of_nat_S (n : nat) : of_nat (S n) = (of_nat n + 1)%Qc.
Proof.
  unfold of_nat. apply Qc_is_canon. rewrite Nat2Z.inj_succ. unfold Z.succ.
  rewrite inject_Z_plus. simpl. rewrite !Qred_correct. reflexivity.
Qed.

Lemma of_nat_neq_0 (n : nat) : 0 < n -> of_nat n <> 0%Qc.
Proof.
  intros Hn Heq. unfold of_nat in Heq. apply Q2Qc_eq_iff in Heq.
  unfold Qeq, inject_Z in Heq. cbn [Qnum Qden] in Heq. lia.
Qed.

Lemma of_nat_0 : of_nat 0 = 0%Qc.
Proof. apply Qc_is_canon. reflexivity. Qed.

Lemma iter_plus_double (x : Qc) (n : nat) :
  Nat.iter n (fun acc => (acc + x)%Qc) 0%Qc = (of_nat n * x)%Qc.
Proof.
  induction n as [|n IH].
  - rewrite of_nat_0. change (0%Qc = (0 * x)%Qc). ring.
  - rewrite Nat.iter_succ, IH, of_nat_S. ring.
Qed.

#[export] Instance double_laws : ScalarLaws Qc.
Proof.
  split; cbn [splus sminus sneg shalf sconj sdiv s0 double_scalar]; intros.
  - ring.
  - ring.
  - unfold two. field. discriminate.
  - unfold two. field. discriminate.
  - ring.
  - reflexivity.
  - rewrite iter_plus_double. field. now apply of_nat_neq_0.
Qed.

Lemma complex_eq (x y : complex) : re x = re y -> im x = im y -> x = y.
Proof. destruct x, y. simpl. now intros -> ->. Qed.

Lemma iter_plus_complex (x : complex) (n : nat) :
  Nat.iter n (fun acc => splus acc x) s0
  = mkComplex (of_nat n * re x)%Qc (of_nat n * im x)%Qc.
Proof.
  induction n as [|n IH].
  - rewrite of_nat_0. change (Nat.iter 0 (fun acc => splus acc x) s0) with (mkComplex 0 0).
    apply complex_eq; simpl; ring.
  - rewrite Nat.iter_succ, IH, of_nat_S. apply complex_eq; simpl; ring.
Qed.

#[export] Instance complex_laws : ScalarLaws complex.
Proof.
  split; intros.
  - apply complex_eq; simpl; ring.
  - apply complex_eq; simpl; ring.
  - apply complex_eq; simpl; unfold two; field; discriminate.
  - apply complex_eq; simpl; unfold two; field; discriminate.
  - apply complex_eq; simpl; ring.
  - apply complex_eq; simpl; ring.
  - rewrite iter_plus_complex. apply complex_eq; simpl; field; now apply of_nat_neq_0.
Qed.

End ScalarInstances.

(** ** Imaginary time and Matsubara frequency *)

Section OneDomainFacts.
Import Symmetrize.
Context {K : Type} `{ScalarLaws K}.
Variable mag : K -> Qc.

(** The entries an iteration of the time loop works on. *)
Lemma execute_t_body_local (shift i : nat) :
  i < shift ->
  local (fun k => (if decide (k < shift) then k else k - shift) = i)
        (fun f => fst (execute_t_body mag shift i (f, 0%Qc))).
Proof.
  intros Hi. unfold execute_t_body. cbn [fst snd]. split.
  - intros a k Hk. rewrite !upd_ne; [reflexivity| |].
    + intros ->. apply Hk. rewrite decide_True by lia. reflexivity.
    + intros ->. apply Hk. rewrite decide_False by lia. lia.
  - intros a a' Hagree k Hk.
    assert (E1 : a i = a' i).
    { apply Hagree. rewrite decide_True by lia. reflexivity. }
    assert (E2 : a (i + shift) = a' (i + shift)).
    { apply Hagree. rewrite decide_False by lia. lia. }
    rewrite E1, E2. unfold upd. repeat case_decide; auto; exfalso; lia.
Qed.

Lemma execute_t_closed (Nt : nat) (f : func nat K) (k : nat) :
  fst (execute_t mag Nt f) k =
  if decide (k < Nt / 2) then shalf (sminus (f k) (f (k + Nt / 2)))
  else if decide (k < Nt / 2 + Nt / 2)
       then sneg (shalf (sminus (f (k - Nt / 2)) (f k)))
       else f k.
Proof.
  unfold execute_t.
  rewrite (for_range_fst _ _ (fun i f => fst (execute_t_body mag (Nt / 2) i (f, 0%Qc))))
    by reflexivity.
  cbn [fst].
  rewrite (for_range_blocks (fun k => if decide (k < Nt / 2) then k else k - Nt / 2))
    by (intros i Hi; now apply execute_t_body_local).
  unfold execute_t_body. cbn [fst snd].
  destruct (decide (k < Nt / 2)) as [Hk|Hk].
  - rewrite decide_True by assumption. rewrite upd_ne by lia. apply upd_eq.
  - destruct (decide (k < Nt / 2 + Nt / 2)) as [Hk2|Hk2].
    + rewrite decide_True by lia.
      replace (k - Nt / 2 + Nt / 2) with k by lia. apply upd_eq.
    + rewrite decide_False by lia. reflexivity.
Qed.

Lemma execute_t_idempotent (Nt : nat) (f : func nat K) (k : nat) :
  fst (execute_t mag Nt (fst (execute_t mag Nt f))) k = fst (execute_t mag Nt f) k.
Proof.
  rewrite (execute_t_closed Nt (fst (execute_t mag Nt f))).
  destruct (decide (k < Nt / 2)) as [Hk|Hk].
  - rewrite !execute_t_closed.
    rewrite decide_True by assumption.
    rewrite (decide_False (P := k + Nt / 2 < Nt / 2)) by lia.
    rewrite decide_True by lia.
    replace (k + Nt / 2 - Nt / 2) with k by lia.
    apply shalf_minus_neg.
  - destruct (decide (k < Nt / 2 + Nt / 2)) as [Hk2|Hk2]; [|reflexivity].
    rewrite !execute_t_closed.
    rewrite (decide_True (P := k - Nt / 2 < Nt / 2)) by lia.
    rewrite (decide_False (P := k < Nt / 2)) by lia.
    rewrite decide_True by lia.
    replace (k - Nt / 2 + Nt / 2) with k by lia.
    rewrite shalf_minus_neg. reflexivity.
Qed.

(** The entries an iteration of the frequency loop works on. *)
Lemma mirror_body_local (n i : nat) :
  i < n / 2 ->
  local (fun k => (if decide (k < n / 2) then k
                   else if decide (k < n) then n - 1 - k else n) = i)
        (fun f => fst (mirror_body mag n i (f, 0%Qc))).
Proof.
  intros Hi. assert (Hn : n / 2 + n / 2 <= n).
  { pose proof (Nat.div_mod_eq n 2). lia. }
  unfold mirror_body. cbn [fst snd]. split.
  - intros a k Hk. rewrite !upd_ne; [reflexivity| |].
    + intros ->. apply Hk. rewrite decide_True by lia. reflexivity.
    + intros ->. apply Hk. rewrite decide_False by lia. rewrite decide_True by lia. lia.
  - intros a a' Hagree k Hk.
    assert (E1 : a i = a' i).
    { apply Hagree. rewrite decide_True by lia. reflexivity. }
    assert (E2 : a (n - i - 1) = a' (n - i - 1)).
    { apply Hagree. rewrite decide_False by lia. rewrite decide_True by lia. lia. }
    rewrite E1, E2. unfold upd. repeat case_decide; auto; exfalso; lia.
Qed.

Lemma mirror_closed (n : nat) (f : func nat K) (k : nat) :
  fst (for_range (n / 2) (mirror_body mag n) (f, 0%Qc)) k =
  if decide (k < n / 2) then shalf (splus (f k) (sconj (f (n - 1 - k))))
  else if decide (n - n / 2 <= k < n)
       then sconj (shalf (splus (f (n - 1 - k)) (sconj (f k))))
       else f k.
Proof.
  assert (Hn : n / 2 + n / 2 <= n).
  { pose proof (Nat.div_mod_eq n 2). lia. }
  rewrite (for_range_fst _ _ (fun i f => fst (mirror_body mag n i (f, 0%Qc))))
    by reflexivity.
  cbn [fst].
  rewrite (for_range_blocks
             (fun k => if decide (k < n / 2) then k
                       else if decide (k < n) then n - 1 - k else n))
    by (intros i Hi; now apply mirror_body_local).
  unfold mirror_body. cbn [fst snd].
  destruct (decide (k < n / 2)) as [Hk|Hk].
  - rewrite decide_True by assumption. rewrite upd_ne by lia.
    rewrite upd_eq. replace (n - k - 1) with (n - 1 - k) by lia. reflexivity.
  - destruct (decide (k < n)) as [Hkn|Hkn].
    + destruct (decide (n - n / 2 <= k < n)) as [Hr|Hr].
      * rewrite decide_True by lia.
        replace (n - 1 - (n - 1 - k)) with k by lia. rewrite upd_eq.
        replace (n - (n - 1 - k) - 1) with k by lia. reflexivity.
      * rewrite decide_False by lia. reflexivity.
    + rewrite decide_False by lia. rewrite decide_False by lia. reflexivity.
Qed.

Lemma mirror_idempotent (n : nat) (f : func nat K) (k : nat) :
  fst (for_range (n / 2) (mirror_body mag n)
         (fst (for_range (n / 2) (mirror_body mag n) (f, 0%Qc)), 0%Qc)) k
  = fst (for_range (n / 2) (mirror_body mag n) (f, 0%Qc)) k.
Proof.
  assert (Hn : n / 2 + n / 2 <= n).
  { pose proof (Nat.div_mod_eq n 2). lia. }
  rewrite (mirror_closed n (fst (for_range (n / 2) (mirror_body mag n) (f, 0%Qc)))).
  destruct (decide (k < n / 2)) as [Hk|Hk].
  - rewrite !mirror_closed.
    rewrite decide_True by assumption.
    rewrite (decide_False (P := n - 1 - k < n / 2)) by lia.
    rewrite decide_True by lia.
    replace (n - 1 - (n - 1 - k)) with k by lia.
    rewrite sconj_sconj. apply shalf_plus_self.
  - destruct (decide (n - n / 2 <= k < n)) as [Hr|Hr]; [|reflexivity].
    rewrite !mirror_closed.
    rewrite (decide_True (P := n - 1 - k < n / 2)) by lia.
    rewrite (decide_False (P := k < n / 2)) by lia.
    rewrite decide_True by lia.
    replace (n - 1 - (n - 1 - k)) with k by lia.
    rewrite sconj_sconj, shalf_plus_self. reflexivity.
Qed.

End OneDomainFacts.

Section OneDomainClaims.
Import Symmetrize.

(** C3 as stated fails in its example: on [f = [1, 2, 3, 4]] the residual
    handed to [difference] is the maximum over both [i = 0] and [i = 1],
    [max(|(1+3)/2|, |(2+4)/2|) = 3], not 2. *)
Lemma time_residual_not_two :
  snd (execute_t Qcabs 4 (of_list (map of_Z [1; 2; 3; 4]%Z))) <> of_Z 2.
Proof.
  intros Heq. apply (f_equal this) in Heq. vm_compute in Heq. discriminate.
Qed.

(** C3, amended.  The time pass replaces, for each [i < Nt/2], [f(i)] by
    [(f(i) - f(i + Nt/2)) / 2] and [f(i + Nt/2)] by the negation of that
    value, so afterwards [f(i) + f(i + Nt/2) = 0]; for [Nt = 4] and
    [f = [1, 2, 3, 4]] the output is [[-1, -1, 1, 1]] and the reported maximum
    residual is 3. *)
Theorem time_symmetrization {K : Type} `{ScalarLaws K} (mag : K -> Qc)
  (Nt : nat) (f : func nat K) (i : nat) :
  i < Nt / 2 ->
  (fst (execute_t mag Nt f) i = shalf (sminus (f i) (f (i + Nt / 2))) /\
   fst (execute_t mag Nt f) (i + Nt / 2)
     = sneg (shalf (sminus (f i) (f (i + Nt / 2)))) /\
   splus (fst (execute_t mag Nt f) i) (fst (execute_t mag Nt f) (i + Nt / 2)) = s0) /\
  (to_list 4 (fst (execute_t Qcabs 4 (of_list (map of_Z [1; 2; 3; 4]%Z))))
     = map of_Z [-1; -1; 1; 1]%Z /\
   snd (execute_t Qcabs 4 (of_list (map of_Z [1; 2; 3; 4]%Z))) = of_Z 3 /\
   diagnostic true (snd (execute_t Qcabs 4 (of_list (map of_Z [1; 2; 3; 4]%Z))))
     = Some (of_Z 3)).
Proof.
  intros Hi. split.
  - assert (E1 : fst (execute_t mag Nt f) i = shalf (sminus (f i) (f (i + Nt / 2)))).
    { rewrite execute_t_closed. rewrite decide_True by assumption. reflexivity. }
    assert (E2 : fst (execute_t mag Nt f) (i + Nt / 2)
                 = sneg (shalf (sminus (f i) (f (i + Nt / 2))))).
    { rewrite execute_t_closed. rewrite decide_False by lia.
      rewrite decide_True by lia.
      replace (i + Nt / 2 - Nt / 2) with i by lia. reflexivity. }
    rewrite E1, E2. repeat split. apply splus_sneg.
  - assert (E3 : snd (execute_t Qcabs 4 (of_list (map of_Z [1; 2; 3; 4]%Z))) = of_Z 3).
    { apply Qc_is_canon. vm_compute. reflexivity. }
    split; [|split].
    + unfold to_list. cbn [map seq].
      repeat f_equal; apply Qc_is_canon; vm_compute; reflexivity.
    + exact E3.
    + rewrite E3. unfold diagnostic, difference.
      destruct (Qclt_le_dec epsilon (Qcabs (of_Z 3))) as [Hlt|Hle].
      * f_equal. apply Qc_is_canon. vm_compute. reflexivity.
      * exfalso. revert Hle. apply Qclt_not_le. reflexivity.
Qed.

(** At [Nt = 4], [i = 1] on the doubles [[1, 2, 3, 4]]. *)
Lemma time_symmetrization_witness :
  fst (execute_t Qcabs 4 (of_list (map of_Z [1; 2; 3; 4]%Z))) 1
    = shalf (sminus (of_Z 2) (of_Z 4)) /\
  splus (fst (execute_t Qcabs 4 (of_list (map of_Z [1; 2; 3; 4]%Z))) 1)
        (fst (execute_t Qcabs 4 (of_list (map of_Z [1; 2; 3; 4]%Z))) (1 + 4 / 2)) = s0.
Proof.
  assert (Hi : 1 < 4 / 2) by (cbn; lia).
  destruct (time_symmetrization Qcabs 4 (of_list (map of_Z [1; 2; 3; 4]%Z)) 1 Hi)
    as [(E1 & _ & E3) _].
  split; [exact E1|exact E3].
Defined.

(** C4.  The frequency pass on a domain of even size [Nw] replaces, for each
    [i < Nw/2] with mirror index [j = Nw - 1 - i], [f(i)] by
    [(f(i) + conj(f(j))) / 2] and [f(j)] by the conjugate of that value;
    afterwards [f(i) = conj(f(Nw - 1 - i))] for every [i]. *)
Theorem frequency_symmetrization {K : Type} `{ScalarLaws K} (mag : K -> Qc)
  (Nw : nat) (f : func nat K) :
  Nat.even Nw = true ->
  (forall i, i < Nw / 2 ->
     fst (execute_w mag Nw f) i = shalf (splus (f i) (sconj (f (Nw - 1 - i)))) /\
     fst (execute_w mag Nw f) (Nw - 1 - i)
       = sconj (shalf (splus (f i) (sconj (f (Nw - 1 - i)))))) /\
  (forall i, i < Nw ->
     fst (execute_w mag Nw f) i = sconj (fst (execute_w mag Nw f) (Nw - 1 - i))).
Proof.
  intros Heven. apply Nat.even_spec in Heven as [h Hh].
  assert (Hhalf : Nw / 2 = h).
  { subst Nw. rewrite Nat.mul_comm. apply Nat.div_mul. lia. }
  unfold execute_w. split.
  - intros i Hi. rewrite !mirror_closed. rewrite decide_True by assumption.
    rewrite (decide_False (P := Nw - 1 - i < Nw / 2)) by lia.
    rewrite decide_True by lia.
    replace (Nw - 1 - (Nw - 1 - i)) with i by lia. auto.
  - intros i Hi. rewrite !mirror_closed.
    destruct (decide (i < Nw / 2)) as [Hlt|Hge].
    + rewrite (decide_False (P := Nw - 1 - i < Nw / 2)) by lia.
      rewrite decide_True by lia.
      replace (Nw - 1 - (Nw - 1 - i)) with i by lia.
      now rewrite sconj_sconj.
    + rewrite decide_True by lia.
      rewrite (decide_True (P := Nw - 1 - i < Nw / 2)) by lia.
      replace (Nw - 1 - (Nw - 1 - i)) with i by lia. reflexivity.
Qed.

(** Scenario 6, second function: [[1, 0, 0, 0]] over four frequencies. *)
Lemma frequency_symmetrization_witness :
  let f := of_list [complex_of_Z 1 0; complex_of_Z 0 0; complex_of_Z 0 0;
                    complex_of_Z 0 0] in
  let mag := fun z : complex => (Qcabs (re z) + Qcabs (im z))%Qc in
  fst (execute_w mag 4 f) 0 = shalf (splus (f 0) (sconj (f 3))) /\
  fst (execute_w mag 4 f) 3 = sconj (fst (execute_w mag 4 f) 0).
Proof.
  intros f mag.
  destruct (frequency_symmetrization mag 4 f eq_refl) as [Hlow Hall].
  split.
  - exact (proj1 (Hlow 0 ltac:(cbn; lia))).
  - exact (Hall 3 ltac:(lia)).
Defined.

(** Scenario 6: an already symmetric function is left unchanged, and
    [[1, 0, 0, 0]] becomes [[1/2, 0, 0, 1/2]]. *)
Example frequency_scenario :
  let mag := fun z : complex => (Qcabs (re z) + Qcabs (im z))%Qc in
  let f := [complex_of_Z 1 1; complex_of_Z 2 0; complex_of_Z 2 0; complex_of_Z 1 (-1)] in
  let f' := [complex_of_Z 1 0; complex_of_Z 0 0; complex_of_Z 0 0; complex_of_Z 0 0] in
  to_list 4 (fst (execute_w mag 4 (of_list f))) = f /\
  to_list 4 (fst (execute_w mag 4 (of_list f')))
    = [shalf (complex_of_Z 1 0); complex_of_Z 0 0; complex_of_Z 0 0;
       shalf (complex_of_Z 1 0)].
Proof.
  intros mag f f'. unfold to_list. cbn [map seq].
  split; repeat f_equal; apply complex_eq; apply Qc_is_canon; vm_compute; reflexivity.
Qed.

End OneDomainClaims.

(** ** Passes over [(b, b, d)] that write an entry and its partner *)

Section PairScatter.
Import Symmetrize.
Context {K : Type} `{Scalar K}.
Variables (n Nb : nat) (m minv : nat -> nat).
Variables (val val' : nat -> nat -> nat -> K).
Variable body : nat -> nat -> nat -> func (nat * nat * nat) K -> func (nat * nat * nat) K.

Hypothesis body_eq : forall t b0 b1 fn,
  body t b0 b1 fn = upd (upd fn (b0, b1, t) (val b0 b1 t)) (b1, b0, m t) (val' b0 b1 t).
Hypothesis partner : forall t, t < n -> n <= m t /\ minv (m t) = t.

Lemma pair_body_local (t b0 b1 : nat) :
  local (fun k => k = (b0, b1, t) \/ k = (b1, b0, m t)) (body t b0 b1).
Proof.
  split.
  - intros a k Hk. rewrite body_eq, !upd_ne; tauto.
  - intros a a' _ k Hk. rewrite !body_eq. unfold upd. repeat case_decide; tauto.
Qed.

Lemma pair_scatter_closed (a : func (nat * nat * nat) K) (x y z : nat) :
  for_range n (fun t => for_range Nb (fun b0 => for_range Nb (fun b1 => body t b0 b1)))
    a (x, y, z) =
  if decide (z < n)
  then if decide (x < Nb /\ y < Nb) then val x y z else a (x, y, z)
  else if decide (minv z < n /\ m (minv z) = z)
       then if decide (x < Nb /\ y < Nb) then val' y x (minv z) else a (x, y, z)
       else a (x, y, z).
Proof.
  set (blk1 := fun k : nat * nat * nat =>
                 if decide (k.2 < n) then k.2
                 else if decide (minv k.2 < n /\ m (minv k.2) = k.2) then minv k.2 else n).
  set (blk2 := fun k : nat * nat * nat => if decide (k.2 < n) then k.1.1 else k.1.2).
  set (blk3 := fun k : nat * nat * nat => if decide (k.2 < n) then k.1.2 else k.1.1).
  assert (Hb1 : forall t b0 b1 k, t < n ->
            k = (b0, b1, t) \/ k = (b1, b0, m t) -> blk1 k = t).
  { intros t b0 b1 k Ht [-> | ->]; unfold blk1; cbn [fst snd].
    - rewrite decide_True by lia. reflexivity.
    - destruct (partner t Ht) as [Hge Hinv].
      rewrite decide_False by lia. rewrite decide_True; [assumption|].
      rewrite Hinv. auto. }
  assert (Hb2 : forall t b0 b1 k, t < n ->
            k = (b0, b1, t) \/ k = (b1, b0, m t) -> blk2 k = b0).
  { intros t b0 b1 k Ht [-> | ->]; unfold blk2; cbn [fst snd].
    - rewrite decide_True by lia. reflexivity.
    - destruct (partner t Ht) as [Hge Hinv]. rewrite decide_False by lia. reflexivity. }
  assert (Hb3 : forall t b0 b1 k, t < n ->
            k = (b0, b1, t) \/ k = (b1, b0, m t) -> blk3 k = b1).
  { intros t b0 b1 k Ht [-> | ->]; unfold blk3; cbn [fst snd].
    - rewrite decide_True by lia. reflexivity.
    - destruct (partner t Ht) as [Hge Hinv]. rewrite decide_False by lia. reflexivity. }
  assert (L3 : forall t b0, t < n -> forall f k,
            for_range Nb (fun b1 => body t b0 b1) f k
            = if decide (blk3 k < Nb) then body t b0 (blk3 k) f k else f k).
  { intros t b0 Ht. apply (for_range_blocks blk3 Nb (fun b1 => body t b0 b1)). intros b1 _.
    eapply local_weaken; [| |apply pair_body_local]; [intros; apply _|].
    intros k Hk. now apply (Hb3 t b0 b1). }
  assert (Loc2 : forall t b0, t < n ->
            local (fun k => blk2 k = b0) (for_range Nb (fun b1 => body t b0 b1))).
  { intros t b0 Ht. apply local_for_range. intros b1 _.
    eapply local_weaken; [| |apply pair_body_local]; [intros; apply _|].
    intros k Hk. now apply (Hb2 t b0 b1). }
  assert (L2 : forall t, t < n -> forall f k,
            for_range Nb (fun b0 => for_range Nb (fun b1 => body t b0 b1)) f k
            = if decide (blk2 k < Nb)
              then for_range Nb (fun b1 => body t (blk2 k) b1) f k else f k).
  { intros t Ht.
    apply (for_range_blocks blk2 Nb (fun b0 => for_range Nb (fun b1 => body t b0 b1))).
    intros b0 _. now apply Loc2. }
  assert (Loc1 : forall t, t < n ->
            local (fun k => blk1 k = t)
              (for_range Nb (fun b0 => for_range Nb (fun b1 => body t b0 b1)))).
  { intros t Ht. apply local_for_range. intros b0 _.
    apply local_for_range. intros b1 _.
    eapply local_weaken; [| |apply pair_body_local]; [intros; apply _|].
    intros k Hk. now apply (Hb1 t b0 b1). }
  rewrite (for_range_blocks blk1) by (intros; now apply Loc1).
  destruct (decide (z < n)) as [Hz|Hz].
  - assert (E1 : blk1 (x, y, z) = z) by (unfold blk1; cbn [snd]; now rewrite decide_True).
    rewrite E1. rewrite decide_True by assumption. rewrite L2 by assumption.
    assert (E2 : blk2 (x, y, z) = x) by (unfold blk2; cbn [fst snd]; now rewrite decide_True).
    assert (E3 : blk3 (x, y, z) = y) by (unfold blk3; cbn [fst snd]; now rewrite decide_True).
    rewrite E2. destruct (decide (x < Nb)) as [Hx|Hx].
    + rewrite L3 by assumption. rewrite E3. destruct (decide (y < Nb)) as [Hy|Hy].
      * rewrite decide_True by lia. rewrite body_eq.
        destruct (partner z Hz) as [Hge _].
        rewrite upd_ne by (intros [= _ _ Hc]; lia). apply upd_eq.
      * rewrite decide_False by lia. reflexivity.
    + rewrite decide_False by lia. reflexivity.
  - destruct (decide (minv z < n /\ m (minv z) = z)) as [[Hm Hmz]|Hm].
    + assert (E1 : blk1 (x, y, z) = minv z).
      { unfold blk1; cbn [snd]. rewrite decide_False by lia. now rewrite decide_True. }
      rewrite E1. rewrite decide_True by assumption. rewrite L2 by assumption.
      assert (E2 : blk2 (x, y, z) = y) by (unfold blk2; cbn [fst snd]; now rewrite decide_False).
      assert (E3 : blk3 (x, y, z) = x) by (unfold blk3; cbn [fst snd]; now rewrite decide_False).
      rewrite E2. destruct (decide (y < Nb)) as [Hy|Hy].
      * rewrite L3 by assumption. rewrite E3. destruct (decide (x < Nb)) as [Hx|Hx].
        -- rewrite decide_True by lia. rewrite body_eq, Hmz. apply upd_eq.
        -- rewrite decide_False by lia. reflexivity.
      * rewrite decide_False by lia. reflexivity.
    + assert (E1 : blk1 (x, y, z) = n).
      { unfold blk1; cbn [snd]. rewrite decide_False by lia. now rewrite decide_False. }
      rewrite E1. rewrite decide_False by lia. reflexivity.
Qed.

End PairScatter.

Section BandPairFacts.
Import Symmetrize.
Context {K : Type} `{ScalarLaws K}.
Variable mag : K -> Qc.

Lemma half_twice_le (n : nat) : n / 2 + n / 2 <= n.
Proof. pose proof (Nat.div_mod_eq n 2). lia. Qed.

Lemma execute_bbt_closed (Nb Nt : nat) (f : func (nat * nat * nat) K) (x y z : nat) :
  fst (execute_bbt mag Nb Nt f) (x, y, z) =
  if decide (x < Nb /\ y < Nb /\ z < Nt)
  then if decide (z < Nt / 2)
       then shalf (sminus (f (x, y, z)) (f (y, x, z + Nt / 2)))
       else if decide (z < Nt / 2 + Nt / 2)
            then sneg (shalf (sminus (f (y, x, z - Nt / 2)) (f (x, y, z))))
            else s0
  else f (x, y, z).
Proof.
  unfold execute_bbt. cbv zeta. rewrite copy_back_fst.
  destruct (decide ((x, y, z) ∈ keys3 Nb Nt)) as [Hin|Hin].
  - apply elem_of_keys3 in Hin. rewrite decide_True by lia.
    rewrite (pair_scatter_closed (Nt / 2) Nb (fun t => t + Nt / 2) (fun z => z - Nt / 2)
               (fun b0 b1 t => shalf (sminus (f (b0, b1, t)) (f (b1, b0, t + Nt / 2))))
               (fun b0 b1 t =>
                  sneg (shalf (sminus (f (b0, b1, t)) (f (b1, b0, t + Nt / 2)))))
               (bbt_body f (Nt / 2)));
      [|reflexivity|intros; lia].
    rewrite (decide_True (P := x < Nb /\ y < Nb)) by lia.
    destruct (decide (z < Nt / 2)) as [Hz|Hz]; [reflexivity|].
    destruct (decide (z < Nt / 2 + Nt / 2)) as [Hz2|Hz2].
    + rewrite !decide_True by lia.
      replace (z - Nt / 2 + Nt / 2) with z by lia. reflexivity.
    + rewrite decide_False by lia. reflexivity.
  - rewrite decide_False; [reflexivity|].
    intros Hr. apply Hin. now apply elem_of_keys3.
Qed.

Lemma execute_bbt_idempotent (Nb Nt : nat) (f : func (nat * nat * nat) K)
  (k : nat * nat * nat) :
  fst (execute_bbt mag Nb Nt (fst (execute_bbt mag Nb Nt f))) k
  = fst (execute_bbt mag Nb Nt f) k.
Proof.
  destruct k as [[x y] z]. pose proof (half_twice_le Nt) as Hh.
  rewrite (execute_bbt_closed Nb Nt (fst (execute_bbt mag Nb Nt f))).
  destruct (decide (x < Nb /\ y < Nb /\ z < Nt)) as [Hr|Hr]; [|reflexivity].
  destruct (decide (z < Nt / 2)) as [Hz|Hz].
  - rewrite !execute_bbt_closed.
    rewrite (decide_True (P := x < Nb /\ y < Nb /\ z < Nt)) by lia.
    rewrite (decide_True (P := y < Nb /\ x < Nb /\ z + Nt / 2 < Nt)) by lia.
    rewrite (decide_True (P := z < Nt / 2)) by lia.
    rewrite (decide_False (P := z + Nt / 2 < Nt / 2)) by lia.
    rewrite decide_True by lia.
    replace (z + Nt / 2 - Nt / 2) with z by lia.
    apply shalf_minus_neg.
  - destruct (decide (z < Nt / 2 + Nt / 2)) as [Hz2|Hz2].
    + rewrite !execute_bbt_closed.
      rewrite (decide_True (P := y < Nb /\ x < Nb /\ z - Nt / 2 < Nt)) by lia.
      rewrite (decide_True (P := x < Nb /\ y < Nb /\ z < Nt)) by lia.
      rewrite (decide_True (P := z - Nt / 2 < Nt / 2)) by lia.
      rewrite (decide_False (P := z < Nt / 2)) by lia.
      rewrite decide_True by lia.
      replace (z - Nt / 2 + Nt / 2) with z by lia.
      rewrite shalf_minus_neg. reflexivity.
    + rewrite execute_bbt_closed.
      rewrite decide_True by lia. rewrite decide_False by lia.
      rewrite decide_False by lia. reflexivity.
Qed.

Lemma execute_bbw_closed (Nb Nw : nat) (f : func (nat * nat * nat) K) (x y z : nat) :
  fst (execute_bbw mag Nb Nw f) (x, y, z) =
  if decide (x < Nb /\ y < Nb /\ z < Nw)
  then if decide (z < Nw / 2)
       then shalf (splus (f (x, y, z)) (sconj (f (y, x, Nw - 1 - z))))
       else if decide (Nw - Nw / 2 <= z)
            then sconj (shalf (splus (f (y, x, Nw - 1 - z)) (sconj (f (x, y, z)))))
            else s0
  else f (x, y, z).
Proof.
  pose proof (half_twice_le Nw) as Hh.
  unfold execute_bbw. cbv zeta. rewrite copy_back_fst.
  destruct (decide ((x, y, z) ∈ keys3 Nb Nw)) as [Hin|Hin].
  - apply elem_of_keys3 in Hin. rewrite decide_True by lia.
    rewrite (pair_scatter_closed (Nw / 2) Nb (fun w => Nw - 1 - w) (fun z => Nw - 1 - z)
               (fun b0 b1 w =>
                  shalf (splus (f (b0, b1, w)) (sconj (f (b1, b0, Nw - 1 - w)))))
               (fun b0 b1 w =>
                  sconj (shalf (splus (f (b0, b1, w)) (sconj (f (b1, b0, Nw - 1 - w))))))
               (bbw_body f (Nw - 1)));
      [|reflexivity|intros; lia].
    rewrite (decide_True (P := x < Nb /\ y < Nb)) by lia.
    destruct (decide (z < Nw / 2)) as [Hz|Hz]; [reflexivity|].
    destruct (decide (Nw - Nw / 2 <= z)) as [Hz2|Hz2].
    + rewrite !decide_True by lia.
      replace (Nw - 1 - (Nw - 1 - z)) with z by lia. reflexivity.
    + rewrite decide_False by lia. reflexivity.
  - rewrite decide_False; [reflexivity|].
    intros Hr. apply Hin. now apply elem_of_keys3.
Qed.

Lemma execute_bbw_idempotent (Nb Nw : nat) (f : func (nat * nat * nat) K)
  (k : nat * nat * nat) :
  fst (execute_bbw mag Nb Nw (fst (execute_bbw mag Nb Nw f))) k
  = fst (execute_bbw mag Nb Nw f) k.
Proof.
  destruct k as [[x y] z]. pose proof (half_twice_le Nw) as Hh.
  rewrite (execute_bbw_closed Nb Nw (fst (execute_bbw mag Nb Nw f))).
  destruct (decide (x < Nb /\ y < Nb /\ z < Nw)) as [Hr|Hr]; [|reflexivity].
  destruct (decide (z < Nw / 2)) as [Hz|Hz].
  - rewrite !execute_bbw_closed.
    rewrite (decide_True (P := x < Nb /\ y < Nb /\ z < Nw)) by lia.
    rewrite (decide_True (P := y < Nb /\ x < Nb /\ Nw - 1 - z < Nw)) by lia.
    rewrite (decide_True (P := z < Nw / 2)) by lia.
    rewrite (decide_False (P := Nw - 1 - z < Nw / 2)) by lia.
    rewrite decide_True by lia.
    replace (Nw - 1 - (Nw - 1 - z)) with z by lia.
    rewrite sconj_sconj. apply shalf_plus_self.
  - destruct (decide (Nw - Nw / 2 <= z)) as [Hz2|Hz2].
    + rewrite !execute_bbw_closed.
      rewrite (decide_True (P := y < Nb /\ x < Nb /\ Nw - 1 - z < Nw)) by lia.
      rewrite (decide_True (P := x < Nb /\ y < Nb /\ z < Nw)) by lia.
      rewrite (decide_True (P := Nw - 1 - z < Nw / 2)) by lia.
      rewrite (decide_False (P := z < Nw / 2)) by lia.
      rewrite decide_True by lia.
      replace (Nw - 1 - (Nw - 1 - z)) with z by lia.
      rewrite sconj_sconj, shalf_plus_self. reflexivity.
    + rewrite execute_bbw_closed.
      rewrite decide_True by lia. rewrite decide_False by lia.
      rewrite decide_False by lia. reflexivity.
Qed.

End BandPairFacts.

(** ** Spin *)

Section SpinFacts.
Import Symmetrize.
Context {K : Type} `{ScalarLaws K}.

Ltac upd_simpl :=
  repeat first [rewrite upd_eq | rewrite upd_ne by (intros [=]; lia)].

Lemma spin_body_local (ind_1 ind_0 i j : nat) :
  local (fun k : spin_key =>
           k.1.1.1.1.1 = i /\ k.1.1.1.2 = j /\ k.1.2 = ind_0 /\ k.2 = ind_1)
        (spin_body ind_1 ind_0 i j).
Proof.
  split.
  - intros a k Hk. unfold spin_body. cbv zeta.
    rewrite !(upd_ne _ _ k); [reflexivity|..]; intros ->; apply Hk; cbn; auto.
  - intros a a' Hagree k Hk. unfold spin_body. cbv zeta.
    assert (R : forall (g : func spin_key K) s,
              upd (upd g (i, 0, j, 1, ind_0, ind_1) s0) (i, 1, j, 0, ind_0, ind_1) s0
                  (i, s, j, s, ind_0, ind_1) = g (i, s, j, s, ind_0, ind_1)).
    { intros g s. rewrite !upd_ne by (intros [=]; lia). reflexivity. }
    rewrite !R.
    rewrite (Hagree (i, 0, j, 0, ind_0, ind_1)) by (cbn; auto).
    rewrite (Hagree (i, 1, j, 1, ind_0, ind_1)) by (cbn; auto).
    unfold upd. repeat case_decide; auto.
Qed.

Lemma spin_closed (Nb N0 N1 : nat) (f : func spin_key K) (i s j s' a b : nat) :
  symmetrize_over_electron_spin Nb N0 N1 f (i, s, j, s', a, b) =
  if decide (i < Nb /\ j < Nb /\ a < N0 /\ b < N1)
  then if decide (s = 0 /\ s' = 1 \/ s = 1 /\ s' = 0) then s0
       else if decide (s = s' /\ s < 2)
            then shalf (splus (f (i, 0, j, 0, a, b)) (f (i, 1, j, 1, a, b)))
            else f (i, s, j, s', a, b)
  else f (i, s, j, s', a, b).
Proof.
  unfold symmetrize_over_electron_spin.
  assert (Loc : forall ind_1 ind_0 i j (Q : spin_key -> Prop),
            (forall k : spin_key,
               k.1.1.1.1.1 = i /\ k.1.1.1.2 = j /\ k.1.2 = ind_0 /\ k.2 = ind_1 -> Q k) ->
            local Q (spin_body ind_1 ind_0 i j)).
  { intros ind_1 ind_0 i0 j0 Q HQ.
    eapply local_weaken; [| |apply spin_body_local]; [intros; apply _|exact HQ]. }
  rewrite (for_range_blocks (fun k : spin_key => k.2) N1
             (fun ind_1 => for_range N0 (fun ind_0 =>
                for_range Nb (fun i => for_range Nb (fun j => spin_body ind_1 ind_0 i j)))));
    [|intros ind_1 _; do 3 (apply local_for_range; intros ? _); apply Loc; tauto].
  cbn [snd].
  destruct (decide (b < N1)) as [Hb|Hb];
    [|rewrite decide_False by lia; reflexivity].
  rewrite (for_range_blocks (fun k : spin_key => k.1.2) N0
             (fun ind_0 =>
                for_range Nb (fun i => for_range Nb (fun j => spin_body b ind_0 i j))));
    [|intros ind_0 _; do 2 (apply local_for_range; intros ? _); apply Loc; tauto].
  cbn [fst snd].
  destruct (decide (a < N0)) as [Ha|Ha];
    [|rewrite decide_False by lia; reflexivity].
  rewrite (for_range_blocks (fun k : spin_key => k.1.1.1.1.1) Nb
             (fun i => for_range Nb (fun j => spin_body b a i j)));
    [|intros i0 _; apply local_for_range; intros ? _; apply Loc; tauto].
  cbn [fst snd].
  destruct (decide (i < Nb)) as [Hi|Hi];
    [|rewrite decide_False by lia; reflexivity].
  rewrite (for_range_blocks (fun k : spin_key => k.1.1.1.2) Nb
             (fun j => spin_body b a i j));
    [|intros j0 _; apply Loc; tauto].
  cbn [fst snd].
  destruct (decide (j < Nb)) as [Hj|Hj];
    [|rewrite decide_False by lia; reflexivity].
  rewrite decide_True by lia.
  unfold spin_body. cbv zeta.
  destruct (decide (s = 0 /\ s' = 1 \/ s = 1 /\ s' = 0)) as [[[-> ->]|[-> ->]]|Hoff].
  - upd_simpl. reflexivity.
  - upd_simpl. reflexivity.
  - destruct (decide (s = s' /\ s < 2)) as [[<- Hs]|Hdiag].
    + destruct s as [|[|s]]; [| |lia]; upd_simpl; reflexivity.
    + upd_simpl. reflexivity.
Qed.

Lemma spin_idempotent (Nb N0 N1 : nat) (f : func spin_key K) (k : spin_key) :
  symmetrize_over_electron_spin Nb N0 N1 (symmetrize_over_electron_spin Nb N0 N1 f) k
  = symmetrize_over_electron_spin Nb N0 N1 f k.
Proof.
  destruct k as [[[[[i s] j] s'] a] b].
  rewrite (spin_closed Nb N0 N1 (symmetrize_over_electron_spin Nb N0 N1 f)).
  destruct (decide (i < Nb /\ j < Nb /\ a < N0 /\ b < N1)) as [Hr|Hr]; [|reflexivity].
  destruct (decide (s = 0 /\ s' = 1 \/ s = 1 /\ s' = 0)) as [Hoff|Hoff].
  - rewrite spin_closed. rewrite decide_True by assumption.
    rewrite decide_True by assumption. reflexivity.
  - destruct (decide (s = s' /\ s < 2)) as [Hdiag|Hdiag]; [|reflexivity].
    rewrite !spin_closed.
    rewrite !(decide_True (P := i < Nb /\ j < Nb /\ a < N0 /\ b < N1)) by assumption.
    rewrite (decide_False (P := 0 = 0 /\ 0 = 1 \/ 0 = 1 /\ 0 = 0)) by lia.
    rewrite (decide_False (P := 1 = 0 /\ 1 = 1 \/ 1 = 1 /\ 1 = 0)) by lia.
    rewrite (decide_False (P := s = 0 /\ s' = 1 \/ s = 1 /\ s' = 0)) by assumption.
    rewrite (decide_True (P := 0 = 0 /\ 0 < 2)) by lia.
    rewrite (decide_True (P := 1 = 1 /\ 1 < 2)) by lia.
    rewrite (decide_True (P := s = s' /\ s < 2)) by assumption.
    apply shalf_plus_self.
Qed.

End SpinFacts.

(** ** Cluster domains: averaging over the symmetry operations *)

Section GroupAverage.
Import Symmetrize.
Context {Key : Type} `{EqDecision Key} {K : Type} `{ScalarLaws K}.

Lemma for_range_ext {A : Type} (n : nat) (body body' : nat -> A -> A) (init : A) :
  (forall i a, i < n -> body i a = body' i a) ->
  for_range n body init = for_range n body' init.
Proof.
  intros Hext. induction n as [|n IH]; [reflexivity|].
  rewrite !for_range_S, IH by (intros; apply Hext; lia). apply Hext. lia.
Qed.

Lemma sum_as_foldl (h : nat -> K) (l : list nat) (a : K) :
  foldl (fun acc S_ind => splus acc (h S_ind)) a l = foldl splus a (map h l).
Proof. revert a. induction l as [|x l IH]; intros a; [reflexivity|]. cbn. apply IH. Qed.

Lemma foldl_splus_perm (l l' : list K) :
  Permutation l l' -> forall a, foldl splus a l = foldl splus a l'.
Proof.
  induction 1 as [|x l l' _ IH|x y l|l l' l'' _ IH1 _ IH2]; intros a.
  - reflexivity.
  - cbn. apply IH.
  - cbn. f_equal. rewrite <- !splus_assoc. f_equal. apply splus_comm.
  - rewrite IH1. apply IH2.
Qed.

Lemma sum_constant (c : K) (n : nat) :
  for_range n (fun _ acc => splus acc c) s0 = Nat.iter n (fun acc => splus acc c) s0.
Proof.
  induction n as [|n IH]; [reflexivity|].
  rewrite for_range_S, IH, Nat.iter_succ. reflexivity.
Qed.

Variable act : nat -> Key -> Key.
Variable NS : nat.
Variable in_range : Key -> Prop.
Context `{forall k, Decision (in_range k)}.

(** The sum a pass accumulates for the entry [k], and the value the pass
    leaves there. *)
Lemma accumulate_closed (f : func Key K)
  (sweep : nat -> func Key K -> func Key K) :
  (forall S_ind a k, sweep S_ind a k
     = if decide (in_range k) then splus (a k) (f (act S_ind k)) else a k) ->
  forall n k,
    for_range n sweep (fun _ => s0) k
    = if decide (in_range k)
      then for_range n (fun S_ind acc => splus acc (f (act S_ind k))) s0
      else s0.
Proof.
  intros Hsweep n k. induction n as [|n IH].
  - rewrite !for_range_0. now destruct (decide (in_range k)).
  - rewrite for_range_S, Hsweep, IH.
    destruct (decide (in_range k)); [|reflexivity].
    rewrite for_range_S. reflexivity.
Qed.

Lemma average_idempotent (g f : func Key K) :
  0 < NS -> orbit_closed act NS in_range ->
  (forall k, g k = if decide (in_range k)
                   then sdiv (for_range NS (fun S_ind acc => splus acc (f (act S_ind k))) s0) NS
                   else f k) ->
  forall k, in_range k ->
    sdiv (for_range NS (fun S_ind acc => splus acc (g (act S_ind k))) s0) NS = g k.
Proof.
  intros HNS Hclosed Hg k Hk.
  rewrite (for_range_ext NS _ (fun _ acc => splus acc (g k))).
  - rewrite sum_constant. now apply sdiv_repeat.
  - intros S_ind a HS. f_equal.
    destruct (Hclosed S_ind k HS Hk) as [Hin Hperm].
    rewrite !Hg. rewrite !decide_True by assumption. f_equal.
    unfold for_range. rewrite !sum_as_foldl.
    apply foldl_splus_perm.
    rewrite <- (map_map (fun T => act T (act S_ind k)) f).
    rewrite <- (map_map (fun U => act U k) f).
    now apply Permutation_map.
Qed.

End GroupAverage.

Section ClusterFacts.
Import Solver Symmetrize.
Context {K : Type} `{ScalarLaws K}.
Variable mag : K -> Qc.

#[global] Instance in_range1_dec (n k : nat) : Decision (in_range1 n k).
Proof. unfold in_range1. apply _. Defined.

#[global] Instance in_range3_dec (Nb Nd : nat) (k : nat * nat * nat) :
  Decision (in_range3 Nb Nd k).
Proof. destruct k as [[b0 b1] d]. unfold in_range3. apply _. Defined.

(** One sweep of the inner loop of the passes over a cluster domain. *)
Lemma sweep1_closed (Nr : nat) (v : nat -> K) (a : func nat K) (k : nat) :
  for_range Nr (fun r_ind f_new => upd f_new r_ind (splus (f_new r_ind) (v r_ind))) a k
  = if decide (in_range1 Nr k) then splus (a k) (v k) else a k.
Proof.
  rewrite (for_range_blocks (fun k => k) Nr
             (fun r_ind f_new => upd f_new r_ind (splus (f_new r_ind) (v r_ind)))).
  - unfold in_range1. destruct (decide (k < Nr)); [apply upd_eq|reflexivity].
  - intros r _. split.
    + intros b k' Hk'. now apply upd_ne.
    + intros b b' Hagree k' ->. rewrite !upd_eq. now rewrite (Hagree r).
Qed.

(** One sweep of the three inner loops of the passes over [(b, b, cluster)]. *)
Lemma sweep3_closed (Nb Nr : nat) (v : nat * nat * nat -> K)
  (body : nat -> nat -> nat -> func (nat * nat * nat) K -> func (nat * nat * nat) K) :
  (forall b0 b1 r fn,
     body b0 b1 r fn = upd fn (b0, b1, r) (splus (fn (b0, b1, r)) (v (b0, b1, r)))) ->
  forall a k,
    for_range Nb (fun b0 => for_range Nb (fun b1 => for_range Nr (fun r => body b0 b1 r))) a k
    = if decide (in_range3 Nb Nr k) then splus (a k) (v k) else a k.
Proof.
  intros Hbody a k.
  assert (Loc : forall b0 b1 r (Q : nat * nat * nat -> Prop),
            Q (b0, b1, r) -> local Q (body b0 b1 r)).
  { intros b0 b1 r Q HQ.
    apply (local_weaken (fun k => k = (b0, b1, r))); [intros; apply _|now intros ? ->|].
    split.
    - intros b k' Hk'. rewrite Hbody. now apply upd_ne.
    - intros b b' Hagree k' ->. rewrite !Hbody, !upd_eq. now rewrite (Hagree (b0, b1, r)). }
  rewrite (for_range_blocks (fun k : nat * nat * nat => k.1.1) Nb
             (fun b0 => for_range Nb (fun b1 => for_range Nr (fun r => body b0 b1 r))));
    [|intros b0 _; do 2 (apply local_for_range; intros ? _); now apply Loc].
  destruct k as [[x y] z]. cbn [fst snd].
  destruct (decide (x < Nb)) as [Hx|Hx];
    [|rewrite decide_False by (unfold in_range3; lia); reflexivity].
  rewrite (for_range_blocks (fun k : nat * nat * nat => k.1.2) Nb
             (fun b1 => for_range Nr (fun r => body x b1 r)));
    [|intros b1 _; apply local_for_range; intros ? _; now apply Loc].
  cbn [fst snd].
  destruct (decide (y < Nb)) as [Hy|Hy];
    [|rewrite decide_False by (unfold in_range3; lia); reflexivity].
  rewrite (for_range_blocks (fun k : nat * nat * nat => k.2) Nr (fun r => body x y r));
    [|intros r _; now apply Loc].
  cbn [fst snd].
  destruct (decide (z < Nr)) as [Hz|Hz];
    [|rewrite decide_False by (unfold in_range3; lia); reflexivity].
  rewrite decide_True by (unfold in_range3; lia).
  rewrite Hbody. apply upd_eq.
Qed.

Lemma elem_of_keys1 (n k : nat) : k ∈ keys1 n <-> in_range1 n k.
Proof. unfold keys1, in_range1. rewrite elem_of_seq. lia. Qed.

Lemma elem_of_keys3_range (Nb Nd : nat) (k : nat * nat * nat) :
  k ∈ keys3 Nb Nd <-> in_range3 Nb Nd k.
Proof. destruct k as [[x y] z]. apply elem_of_keys3. Qed.

(** What a pass over a cluster domain leaves in [f], given what one sweep of
    its inner loops does. *)
Lemma cluster_pass_closed {Key : Type} `{EqDecision Key} (keys : list Key)
  (in_range : Key -> Prop) `{forall k, Decision (in_range k)}
  (act : nat -> Key -> Key) (NS : nat) (f : func Key K)
  (sweep : nat -> func Key K -> func Key K) :
  (forall k, k ∈ keys <-> in_range k) ->
  (forall S_ind a k, sweep S_ind a k
     = if decide (in_range k) then splus (a k) (f (act S_ind k)) else a k) ->
  forall k,
    fst (copy_back mag keys (divide_all (for_range NS sweep (fun _ => s0)) NS) (f, 0%Qc)) k
    = if decide (in_range k)
      then sdiv (for_range NS (fun S_ind acc => splus acc (f (act S_ind k))) s0) NS
      else f k.
Proof.
  intros Hkeys Hsweep k. rewrite copy_back_fst. unfold divide_all.
  rewrite (accumulate_closed act in_range f sweep Hsweep).
  destruct (decide (k ∈ keys)) as [Hin|Hin].
  - apply Hkeys in Hin. rewrite !decide_True by assumption. reflexivity.
  - rewrite decide_False; [reflexivity|]. intros Hr. apply Hin. now apply Hkeys.
Qed.

Lemma cluster_pass_idempotent {Key : Type} `{EqDecision Key}
  (in_range : Key -> Prop) `{forall k, Decision (in_range k)}
  (act : nat -> Key -> Key) (NS : nat) (f g g' : func Key K) :
  0 < NS -> orbit_closed act NS in_range ->
  (forall k, g k = if decide (in_range k)
                   then sdiv (for_range NS (fun S_ind acc => splus acc (f (act S_ind k))) s0) NS
                   else f k) ->
  (forall k, g' k = if decide (in_range k)
                    then sdiv (for_range NS (fun S_ind acc => splus acc (g (act S_ind k))) s0) NS
                    else g k) ->
  forall k, g' k = g k.
Proof.
  intros HNS Hclosed Hg Hg' k. rewrite Hg'.
  destruct (decide (in_range k)) as [Hk|Hk]; [|reflexivity].
  now apply (average_idempotent act NS in_range g f).
Qed.

Lemma execute_r_closed (Nr NS : nat) (sym : symmetry_matrix) (f : func nat K)
  (p : func nat K * Qc) :
  execute_r mag Nr NS sym f = Ok p ->
  0 < NS /\
  forall k, fst p k
    = if decide (in_range1 Nr k)
      then sdiv (for_range NS (fun S_ind acc => splus acc (f (r_action sym S_ind k))) s0) NS
      else f k.
Proof.
  unfold execute_r. cbv zeta. destruct (0 <? NS) eqn:E; [|discriminate].
  apply Nat.ltb_lt in E. intros [= <-]. split; [assumption|]. intros k.
  apply (cluster_pass_closed (keys1 Nr) (in_range1 Nr) (r_action sym) NS f).
  - apply elem_of_keys1.
  - intros S_ind a k'. apply (sweep1_closed Nr (fun r => f (r_action sym S_ind r))).
Qed.

Lemma execute_k_closed (Nk NS : nat) (sym : symmetry_matrix) (f : func nat K)
  (p : func nat K * Qc) :
  execute_k mag Nk NS sym f = Ok p ->
  0 < NS /\
  forall k, fst p k
    = if decide (in_range1 Nk k)
      then sdiv (for_range NS (fun S_ind acc => splus acc (f (r_action sym S_ind k))) s0) NS
      else f k.
Proof.
  unfold execute_k. cbv zeta. destruct (0 <? NS) eqn:E; [|discriminate].
  apply Nat.ltb_lt in E. intros [= <-]. split; [assumption|]. intros k.
  apply (cluster_pass_closed (keys1 Nk) (in_range1 Nk) (r_action sym) NS f).
  - apply elem_of_keys1.
  - intros S_ind a k'. apply (sweep1_closed Nk (fun r => f (r_action sym S_ind r))).
Qed.

Lemma execute_bbr_closed (Nb Nr NS : nat) (sym : symmetry_matrix)
  (f : func (nat * nat * nat) K) (p : func (nat * nat * nat) K * Qc) :
  execute_bbr mag Nb Nr NS sym f = Ok p ->
  0 < NS /\
  forall k, fst p k
    = if decide (in_range3 Nb Nr k)
      then sdiv (for_range NS (fun S_ind acc => splus acc (f (bbr_action sym S_ind k))) s0) NS
      else f k.
Proof.
  unfold execute_bbr. cbv zeta. destruct (0 <? NS) eqn:E; [|discriminate].
  apply Nat.ltb_lt in E. intros [= <-]. split; [assumption|]. intros k.
  apply (cluster_pass_closed (keys3 Nb Nr) (in_range3 Nb Nr) (bbr_action sym) NS f).
  - apply elem_of_keys3_range.
  - intros S_ind a k'.
    apply (sweep3_closed Nb Nr (fun k => f (bbr_action sym S_ind k))
             (bbr_body sym f S_ind)).
    reflexivity.
Qed.

Lemma execute_bbk_closed (Nb Nk NS : nat) (sym : symmetry_matrix)
  (f : func (nat * nat * nat) K) (p : func (nat * nat * nat) K * Qc) :
  execute_bbk mag Nb Nk NS sym f = Ok p ->
  forall k, fst p k
    = if decide (in_range3 Nb Nk k)
      then sdiv (for_range NS (fun S_ind acc => splus acc (f (bbk_action sym S_ind k))) s0) NS
      else f k.
Proof.
  unfold execute_bbk. cbv zeta. intros [= <-]. intros k.
  apply (cluster_pass_closed (keys3 Nb Nk) (in_range3 Nb Nk) (bbk_action sym) NS f).
  - apply elem_of_keys3_range.
  - intros S_ind a k'.
    apply (sweep3_closed Nb Nk (fun k => f (bbk_action sym S_ind k))
             (bbk_body sym f S_ind)).
    reflexivity.
Qed.

End ClusterFacts.

Section IdempotenceClaim.
Import Solver Symmetrize.

Lemma execute_r_returns {K : Type} `{Scalar K} (mag : K -> Qc) (Nr NS : nat)
  (sym : symmetry_matrix) (f : func nat K) :
  0 < NS -> exists p, execute_r mag Nr NS sym f = Ok p.
Proof.
  intros HNS. unfold execute_r. cbv zeta.
  apply Nat.ltb_lt in HNS. rewrite HNS. eauto.
Qed.

Lemma execute_k_returns {K : Type} `{Scalar K} (mag : K -> Qc) (Nk NS : nat)
  (sym : symmetry_matrix) (f : func nat K) :
  0 < NS -> exists p, execute_k mag Nk NS sym f = Ok p.
Proof.
  intros HNS. unfold execute_k. cbv zeta.
  apply Nat.ltb_lt in HNS. rewrite HNS. eauto.
Qed.

Lemma execute_bbr_returns {K : Type} `{Scalar K} (mag : K -> Qc) (Nb Nr NS : nat)
  (sym : symmetry_matrix) (f : func (nat * nat * nat) K) :
  0 < NS -> exists p, execute_bbr mag Nb Nr NS sym f = Ok p.
Proof.
  intros HNS. unfold execute_bbr. cbv zeta.
  apply Nat.ltb_lt in HNS. rewrite HNS. eauto.
Qed.

(** C2.  Each elementary pass is idempotent in exact arithmetic: run on its
    own output it leaves every entry as it is.  For the cluster domains the
    symmetry table is a parameter, taken to describe a group action on the
    entries in range ([orbit_closed]); a pass with the [NS > 0] test returns
    the second time whenever it returned the first time, and the pass over
    [(b, b, k)], which has no such test, is covered for [NS > 0]. *)
Theorem symmetrization_idempotent {K : Type} `{ScalarLaws K} (mag : K -> Qc) :
  (forall Nt f k,
     fst (execute_t mag Nt (fst (execute_t mag Nt f))) k = fst (execute_t mag Nt f) k) /\
  (forall Nw f k,
     fst (execute_w mag Nw (fst (execute_w mag Nw f))) k = fst (execute_w mag Nw f) k) /\
  (forall Nw f k,
     fst (execute_w_VERTEX mag Nw (fst (execute_w_VERTEX mag Nw f))) k
     = fst (execute_w_VERTEX mag Nw f) k) /\
  (forall Nw f k,
     fst (execute_w_VERTEX_EXTENDED mag Nw (fst (execute_w_VERTEX_EXTENDED mag Nw f))) k
     = fst (execute_w_VERTEX_EXTENDED mag Nw f) k) /\
  (forall f : func nat K, execute_w_REAL (execute_w_REAL f) = execute_w_REAL f) /\
  (forall Nb N0 N1 (f : func spin_key K) k,
     symmetrize_over_electron_spin Nb N0 N1 (symmetrize_over_electron_spin Nb N0 N1 f) k
     = symmetrize_over_electron_spin Nb N0 N1 f k) /\
  (forall Nb Nt f k,
     fst (execute_bbt mag Nb Nt (fst (execute_bbt mag Nb Nt f))) k
     = fst (execute_bbt mag Nb Nt f) k) /\
  (forall Nb Nw f k,
     fst (execute_bbw mag Nb Nw (fst (execute_bbw mag Nb Nw f))) k
     = fst (execute_bbw mag Nb Nw f) k) /\
  (forall f : func (nat * nat * nat) K,
     execute_bbw_REAL (execute_bbw_REAL f) = execute_bbw_REAL f) /\
  (forall Nr NS sym f p,
     orbit_closed (r_action sym) NS (in_range1 Nr) ->
     execute_r mag Nr NS sym f = Ok p ->
     exists p', execute_r mag Nr NS sym (fst p) = Ok p' /\ forall k, fst p' k = fst p k) /\
  (forall Nk NS sym f p,
     orbit_closed (r_action sym) NS (in_range1 Nk) ->
     execute_k mag Nk NS sym f = Ok p ->
     exists p', execute_k mag Nk NS sym (fst p) = Ok p' /\ forall k, fst p' k = fst p k) /\
  (forall Nb Nr NS sym f p,
     orbit_closed (bbr_action sym) NS (in_range3 Nb Nr) ->
     execute_bbr mag Nb Nr NS sym f = Ok p ->
     exists p', execute_bbr mag Nb Nr NS sym (fst p) = Ok p' /\
                forall k, fst p' k = fst p k) /\
  (forall Nb Nk NS sym f p,
     0 < NS ->
     orbit_closed (bbk_action sym) NS (in_range3 Nb Nk) ->
     execute_bbk mag Nb Nk NS sym f = Ok p ->
     exists p', execute_bbk mag Nb Nk NS sym (fst p) = Ok p' /\
                forall k, fst p' k = fst p k).
Proof.
  repeat match goal with |- _ /\ _ => split end.
  - apply execute_t_idempotent.
  - intros Nw f k. apply mirror_idempotent.
  - intros Nw f k. apply mirror_idempotent.
  - intros Nw f k. apply mirror_idempotent.
  - reflexivity.
  - apply spin_idempotent.
  - apply execute_bbt_idempotent.
  - apply execute_bbw_idempotent.
  - reflexivity.
  - intros Nr NS sym f p Hclosed Hp.
    destruct (execute_r_closed mag Nr NS sym f p Hp) as [HNS Hg].
    destruct (execute_r_returns mag Nr NS sym (fst p) HNS) as [p' Hp'].
    exists p'. split; [assumption|].
    destruct (execute_r_closed mag Nr NS sym (fst p) p' Hp') as [_ Hg'].
    now apply (cluster_pass_idempotent (in_range1 Nr) (r_action sym) NS f).
  - intros Nk NS sym f p Hclosed Hp.
    destruct (execute_k_closed mag Nk NS sym f p Hp) as [HNS Hg].
    destruct (execute_k_returns mag Nk NS sym (fst p) HNS) as [p' Hp'].
    exists p'. split; [assumption|].
    destruct (execute_k_closed mag Nk NS sym (fst p) p' Hp') as [_ Hg'].
    now apply (cluster_pass_idempotent (in_range1 Nk) (r_action sym) NS f).
  - intros Nb Nr NS sym f p Hclosed Hp.
    destruct (execute_bbr_closed mag Nb Nr NS sym f p Hp) as [HNS Hg].
    destruct (execute_bbr_returns mag Nb Nr NS sym (fst p) HNS) as [p' Hp'].
    exists p'. split; [assumption|].
    destruct (execute_bbr_closed mag Nb Nr NS sym (fst p) p' Hp') as [_ Hg'].
    now apply (cluster_pass_idempotent (in_range3 Nb Nr) (bbr_action sym) NS f).
  - intros Nb Nk NS sym f p HNS Hclosed Hp.
    pose proof (execute_bbk_closed mag Nb Nk NS sym f p Hp) as Hg.
    eexists. split; [reflexivity|].
    pose proof (execute_bbk_closed mag Nb Nk NS sym (fst p) _ eq_refl) as Hg'.
    now apply (cluster_pass_idempotent (in_range3 Nb Nk) (bbk_action sym) NS f).
Qed.

End IdempotenceClaim.

Section IdempotenceWitness.
Import Solver Symmetrize.

Lemma two_site_closed1 : orbit_closed (r_action two_site_table) 2 (in_range1 2).
Proof.
  intros S_ind k HS Hk. unfold in_range1 in *.
  destruct S_ind as [|[|S_ind]]; [| |lia]; destruct k as [|[|k]]; try lia;
    (split; [cbn; lia|]); cbn; try reflexivity; apply perm_swap.
Qed.

Lemma two_site_closed3 : orbit_closed (bbk_action two_site_table) 2 (in_range3 1 2).
Proof.
  intros S_ind [[b0 b1] k] HS Hk. unfold in_range3 in *.
  destruct b0 as [|b0]; [|lia]. destruct b1 as [|b1]; [|lia].
  destruct S_ind as [|[|S_ind]]; [| |lia]; destruct k as [|[|k]]; try lia;
    (split; [cbn; lia|]); cbn; try reflexivity; apply perm_swap.
Qed.

(** On doubles: the time pass over [[1, 2, 3, 4]], the real-space pass over
    the two-site cluster and the pass over [(b, b, k)] with one band. *)
Lemma symmetrization_idempotent_witness :
  let f := of_list (map of_Z [1; 2; 3; 4]%Z) in
  let g := fun k : nat * nat * nat => of_Z (Z.of_nat (snd k) + 1) in
  (forall k, fst (execute_t Qcabs 4 (fst (execute_t Qcabs 4 f))) k
             = fst (execute_t Qcabs 4 f) k) /\
  (exists p p', execute_r Qcabs 2 2 two_site_table f = Ok p /\
                execute_r Qcabs 2 2 two_site_table (fst p) = Ok p' /\
                forall k, fst p' k = fst p k) /\
  (exists p p', execute_bbk Qcabs 1 2 2 two_site_table g = Ok p /\
                execute_bbk Qcabs 1 2 2 two_site_table (fst p) = Ok p' /\
                forall k, fst p' k = fst p k).
Proof.
  intros f g.
  destruct (symmetrization_idempotent Qcabs)
    as (Ht & _ & _ & _ & _ & _ & _ & _ & _ & Hr & _ & _ & Hbbk).
  split; [apply Ht|]. split.
  - destruct (execute_r_returns Qcabs 2 2 two_site_table f) as [p Hp]; [lia|].
    destruct (Hr 2 2 two_site_table f p two_site_closed1 Hp) as (p' & Hp' & Heq).
    exists p, p'. auto.
  - assert (Hp : execute_bbk Qcabs 1 2 2 two_site_table g = Ok _) by reflexivity.
    destruct (Hbbk 1 2 2 two_site_table g _ ltac:(lia) two_site_closed3 Hp)
      as (p' & Hp' & Heq).
    eexists. exists p'. auto.
Defined.

(** The real-space pass on the two-site cluster averages the two entries. *)
Example execute_r_two_sites :
  to_list 2 (returned (execute_r Qcabs 2 2 two_site_table (of_list (map of_Z [1; 3]%Z)))
               (fun _ => of_Z 0))
  = map of_Z [2; 2]%Z.
Proof.
  unfold to_list. cbn [map seq].
  repeat f_equal; apply Qc_is_canon; vm_compute; reflexivity.
Qed.

(** C8 on the cluster passes.  With an empty symmetry group ([NS = 0]) the
    passes over [r], [(b, b, r)] and [k] throw; the pass over [(b, b, k)]
    has no test of [NS], divides by [double(0)] and returns. *)
Theorem empty_group_rejection {K : Type} `{Scalar K} (mag : K -> Qc)
  (Nb Nc : nat) (sym : symmetry_matrix)
  (f1 : func nat K) (f3 : func (nat * nat * nat) K) :
  throws (execute_r mag Nc 0 sym f1) = true /\
  throws (execute_bbr mag Nb Nc 0 sym f3) = true /\
  throws (execute_k mag Nc 0 sym f1) = true /\
  throws (execute_bbk mag Nb Nc 0 sym f3) = false.
Proof. repeat split. Qed.

(** C8 on a concrete run: one band, two momenta, no symmetry operation, and
    the function with entries 1 and 2.  The pass returns; the model's quotient
    [x / 0] is 0 (the source's is not a number), so both entries are
    overwritten. *)
Example empty_group_bbk_run :
  let g := fun k : nat * nat * nat => of_Z (Z.of_nat (snd k) + 1) in
  throws (execute_bbk Qcabs 1 2 0 two_site_table g) = false /\
  map (returned (execute_bbk Qcabs 1 2 0 two_site_table g) g) (keys3 1 2)
    = map of_Z [0; 0]%Z.
Proof.
  intros g. split; [reflexivity|]. cbn [map keys3].
  unfold keys3. cbn [mbind list_bind seq map app concat].
  repeat f_equal; apply Qc_is_canon; vm_compute; reflexivity.
Qed.

End IdempotenceWitness.

Section RejectionClaim.
Import Solver Symmetrize.
Local Open Scope Z_scope.

(** C8.  The constructor throws for [W < 1] or [A < 1], the dispatch loop of
    [integrate] throws on a task string it does not know, and the cluster
    passes over [r], [(b, b, r)] and [k] throw for an empty symmetry group;
    the pass over [(b, b, k)] does not: it returns for [NS = 0]. *)
Theorem invalid_configuration_rejection :
  (forall p, get_walkers p < 1 \/ get_accumulators p < 1 ->
             throws (construct p) = true) /\
  (forall tasks, (exists t, In t tasks /\ known_task t = false) ->
                 throws (integrate_dispatch tasks) = true) /\
  (forall (K : Type) (HK : Scalar K) (mag : K -> Qc) (Nb Nc : nat)
          (sym : symmetry_matrix) (f1 : func nat K) (f3 : func (nat * nat * nat) K),
     throws (execute_r mag Nc 0 sym f1) = true /\
     throws (execute_bbr mag Nb Nc 0 sym f3) = true /\
     throws (execute_k mag Nc 0 sym f1) = true /\
     throws (execute_bbk mag Nb Nc 0 sym f3) = false).
Proof.
  split; [|split].
  - apply construct_rejects.
  - intros tasks Hbad. now apply dispatch_rejects.
  - intros. apply empty_group_rejection.
Qed.

End RejectionClaim.

(** ** The rendezvous *)

Section RendezvousRun.
Import Rendezvous.

(** C1 on a concrete run with the shared counter: two walkers, one
    accumulator and a budget of one measurement.  Both walkers read
    [measurements_done_ = 0] in the init statement of their loop before
    either increments it, so both sweep and hand a sample over.  All threads
    return, the accumulator has measured twice and merged two
    measurements. *)
Theorem shared_counter_overrun :
  let cfg := mkConfig 2 1 false 1 in
  let schedule :=
    [Walker 0; Walker 1;
     Walker 0; Walker 0; Acc 0; Walker 0; Walker 0; Acc 0; Acc 0; Walker 0; Walker 0;
     Walker 1; Walker 1; Acc 0; Walker 1; Walker 1; Acc 0; Acc 0; Walker 1; Walker 1;
     Walker 0; Walker 1; Walker 1; Acc 0; Acc 0] in
  let st :=
    mkState 2 2 []
      [mkWalkerThread W_Done 1 1; mkWalkerThread W_Done 2 1]
      [mkAccThread A_Finished (mkAccumulator false false 2)] 2 in
  run cfg schedule (initial cfg) = Some st /\
  finished st = true /\
  total_sweeps st = 2 /\
  total_measurements st = 2 /\
  accumulator_ st = 2 /\
  total_meas cfg = 1.
Proof. intros cfg schedule st. split; [vm_compute; reflexivity|]. repeat split. Qed.

End RendezvousRun.

Section RendezvousFacts.
Import Rendezvous.

Lemma sum_list_with_insert {A : Type} (g : A -> nat) (l : list A) (i : nat) (x y : A) :
  l !! i = Some x ->
  sum_list_with g (<[i := y]> l) + g x = sum_list_with g l + g y.
Proof.
  revert i. induction l as [|z l IH]; intros [|i] Hi; try discriminate.
  - injection Hi as ->. simpl. lia.
  - simpl in Hi |- *. specialize (IH i Hi). lia.
Qed.

(** Replacing an entry by one of the same weight leaves the sum alone. *)
Lemma sum_list_with_insert_same {A : Type} (g : A -> nat) (l : list A) (i : nat)
  (x y : A) :
  l !! i = Some x -> g y = g x -> sum_list_with g (<[i := y]> l) = sum_list_with g l.
Proof.
  intros Hi Hg. pose proof (sum_list_with_insert g l i x y Hi). lia.
Qed.

Lemma sum_list_with_pointwise {A : Type} (g : A -> nat) (l l' : list A) :
  length l = length l' ->
  (forall i a a', l !! i = Some a -> l' !! i = Some a' -> g a = g a') ->
  sum_list_with g l = sum_list_with g l'.
Proof.
  revert l'. induction l as [|x l IH]; intros [|x' l'] Hlen Hg; try discriminate.
  - reflexivity.
  - cbn. rewrite (Hg 0 x x') by reflexivity. f_equal. apply IH.
    + now injection Hlen.
    + intros i a a' Ha Ha'. apply (Hg (S i)); assumption.
Qed.

Lemma sum_list_with_same {A : Type} (g g' : A -> nat) (l : list A) :
  (forall i a, l !! i = Some a -> g a = g' a) ->
  sum_list_with g l = sum_list_with g' l.
Proof.
  induction l as [|x l IH]; intros Hg; [reflexivity|].
  cbn. rewrite (Hg 0 x) by reflexivity. f_equal. apply IH.
  intros i a Ha. apply (Hg (S i)). exact Ha.
Qed.

Lemma sum_list_with_zero {A : Type} (g : A -> nat) (l : list A) :
  (forall i a, l !! i = Some a -> g a = 0) -> sum_list_with g l = 0.
Proof.
  induction l as [|x l IH]; intros Hg; [reflexivity|].
  cbn. rewrite (Hg 0 x) by reflexivity. apply IH.
  intros i a Ha. apply (Hg (S i)). exact Ha.
Qed.

Lemma sum_list_with_full {A : Type} (g : A -> nat) (l : list A) :
  (forall a, a ∈ l -> g a <= 1) -> sum_list_with g l = length l ->
  forall i a, l !! i = Some a -> g a = 1.
Proof.
  induction l as [|x l IH]; intros Hle Hsum i a Ha; [discriminate|].
  cbn in Hsum.
  assert (Hx : g x <= 1) by (apply Hle, list_elem_of_here).
  assert (Hl : sum_list_with g l <= length l).
  { clear -Hle. induction l as [|y l IHl]; [cbn; lia|]. cbn.
    assert (g y <= 1) by (apply Hle, list_elem_of_further, list_elem_of_here).
    assert (sum_list_with g l <= length l).
    { apply IHl. intros b Hb. apply Hle. apply elem_of_cons in Hb as [->|Hb].
      - apply list_elem_of_here.
      - now do 2 apply list_elem_of_further. }
    lia. }
  destruct i as [|i].
  - injection Ha as <-. lia.
  - apply (IH (fun b Hb => Hle b (list_elem_of_further _ _ _ Hb)) ltac:(lia) i a Ha).
Qed.

Lemma queued_cons (j j' : nat) (q : list nat) :
  queued j (j' :: q) = (if decide (j' = j) then 1 else 0) + queued j q.
Proof.
  unfold queued. rewrite filter_cons. destruct (decide (j' = j)); reflexivity.
Qed.

Lemma queued_nil (j : nat) : queued j [] = 0.
Proof. reflexivity. Qed.

Lemma queued_positive (j : nat) (q : list nat) : j ∈ q -> 0 < queued j q.
Proof.
  induction q as [|j' q IH]; intros Hin.
  - now apply not_elem_of_nil in Hin.
  - rewrite queued_cons. apply elem_of_cons in Hin as [->|Hin].
    + rewrite decide_True by reflexivity. lia.
    + specialize (IH Hin). lia.
Qed.

Lemma queued_zero (j : nat) (q : list nat) : j ∉ q -> queued j q = 0.
Proof.
  induction q as [|j' q IH]; intros Hin; [reflexivity|].
  rewrite queued_cons. rewrite decide_False.
  - apply IH. intros Hc. apply Hin. now apply list_elem_of_further.
  - intros ->. apply Hin. apply list_elem_of_here.
Qed.

(** The accumulators after the drain loop. *)
Lemma notify_all_length (q : list nat) (accs : list AccThread) :
  length (notify_all q accs) = length accs.
Proof.
  unfold notify_all. revert accs. induction q as [|j q IH]; intros accs; [reflexivity|].
  cbn. rewrite IH. destruct (accs !! j); [apply length_insert|reflexivity].
Qed.

Lemma notify_all_lookup (q : list nat) (accs : list AccThread) (j : nat) :
  notify_all q accs !! j
  = (fun a => if decide (j ∈ q)
              then mkAccThread (a_pc a) (notifyDone (accumulator_obj a)) else a)
    <$> accs !! j.
Proof.
  unfold notify_all. revert accs. induction q as [|j' q IH]; intros accs.
  - cbn. destruct (accs !! j) as [a|]; [|reflexivity]. cbn.
    rewrite decide_False by apply not_elem_of_nil. reflexivity.
  - cbn [foldl]. rewrite IH. destruct (decide (j' = j)) as [->|Hne].
    + destruct (accs !! j) as [a|] eqn:Ha; [|rewrite Ha; reflexivity].
      rewrite list_lookup_insert_eq by (eapply lookup_lt_Some; eassumption).
      cbn. rewrite (decide_True (P := j ∈ j :: q)) by apply list_elem_of_here.
      destruct (decide (j ∈ q)); reflexivity.
    + assert (Hlook : (match accs !! j' with
                       | Some a => <[j' := mkAccThread (a_pc a)
                                             (notifyDone (accumulator_obj a))]> accs
                       | None => accs
                       end) !! j = accs !! j).
      { destruct (accs !! j'); [now apply list_lookup_insert_ne|reflexivity]. }
      rewrite Hlook. destruct (accs !! j) as [a|]; [|reflexivity]. cbn.
      destruct (decide (j ∈ q)) as [Hin|Hin].
      * rewrite decide_True by now apply list_elem_of_further. reflexivity.
      * rewrite decide_False; [reflexivity|].
        intros Hc. apply elem_of_cons in Hc as [->|Hc]; tauto.
Qed.

End RendezvousFacts.

Section RendezvousInvariant.
Import Rendezvous.
Variable cfg : Config.

Lemma invariant_initial : invariant cfg (initial cfg).
Proof.
  unfold initial. constructor; cbn [walkers accumulators accumulators_queue_
                                    walk_finished_ accumulator_].
  - apply length_replicate.
  - symmetry. apply sum_list_with_zero. intros i a Ha.
    apply lookup_replicate in Ha as [-> _]. reflexivity.
  - intros i w Hw Hpc. apply lookup_replicate in Hw as [-> _]. discriminate.
  - intros j a Ha Hd. apply lookup_replicate in Ha as [-> _]. discriminate.
  - intros j a Ha. apply lookup_replicate in Ha as [-> _].
    rewrite queued_nil. cbn. apply sum_list_with_zero. intros i w Hw.
    apply lookup_replicate in Hw as [-> _]. reflexivity.
  - intros j a Ha _. apply lookup_replicate in Ha as [-> _]. reflexivity.
  - intros j a Ha Hm. apply lookup_replicate in Ha as [-> _]. discriminate.
  - intros j a Ha Hpc. apply lookup_replicate in Ha as [-> _]. discriminate.
  - rewrite !(sum_list_with_zero sweeps), !(sum_list_with_zero in_flight),
      !(sum_list_with_zero pending),
      !(sum_list_with_zero (fun a => measurements (accumulator_obj a))); try reflexivity;
      intros i a Ha; apply lookup_replicate in Ha as [-> _]; reflexivity.
  - symmetry. apply sum_list_with_zero. intros i a Ha.
    apply lookup_replicate in Ha as [-> _]. reflexivity.
Qed.

(** A step of walker [i] that touches neither the queue, nor an accumulator,
    nor [walk_finished_]. *)
Lemma invariant_walker_local (st : State) (i : nat) (w w' : WalkerThread) (md : nat) :
  invariant cfg st -> walkers st !! i = Some w ->
  (forall j, holds j w' = holds j w) ->
  past_finish w' = past_finish w ->
  w_pc w' <> W_Drain ->
  sweeps w' + in_flight w = sweeps w + in_flight w' ->
  invariant cfg
    (set_walker
       (mkState (walk_finished_ st) md (accumulators_queue_ st)
          (walkers st) (accumulators st) (accumulator_ st)) i w').
Proof.
  intros [Hlen Hfin Hdrain Hdone Hheld Hquiet Hexcl Hready Hbal Hmerged]
         Hw Hholds Hpast Hpc Hsw.
  constructor; cbn [set_walker walkers accumulators accumulators_queue_
                    walk_finished_ accumulator_ measurements_done_].
  - now rewrite length_insert.
  - now rewrite (sum_list_with_insert_same past_finish _ i w w').
  - intros i0 w0 Hw0 Hpc0. apply list_lookup_insert_Some in Hw0 as [(-> & <- & _)|[_ Hw0]].
    + contradiction.
    + eauto.
  - exact Hdone.
  - intros j a Ha. rewrite (sum_list_with_insert_same (holds j) _ i w w'); auto.
  - exact Hquiet.
  - exact Hexcl.
  - exact Hready.
  - pose proof (sum_list_with_insert sweeps _ i w w' Hw).
    pose proof (sum_list_with_insert in_flight _ i w w' Hw). lia.
  - exact Hmerged.
Qed.

(** A step of accumulator [j] that leaves the queue alone. *)
Lemma invariant_acc_local (st : State) (j : nat) (a a' : AccThread) (total : nat) :
  invariant cfg st -> accumulators st !! j = Some a ->
  (done (accumulator_obj a') = true -> walk_finished_ st = get_walkers cfg) ->
  idle a' = idle a ->
  (quiet_pc (a_pc a') = true -> measuring (accumulator_obj a') = false) ->
  (measuring (accumulator_obj a') = true -> done (accumulator_obj a') = false) ->
  (a_pc a' = A_Measure -> wait_over (accumulator_obj a') = true) ->
  measurements (accumulator_obj a') + pending a'
    = measurements (accumulator_obj a) + pending a ->
  total + merged a = accumulator_ st + merged a' ->
  invariant cfg
    (set_acc
       (mkState (walk_finished_ st) (measurements_done_ st) (accumulators_queue_ st)
          (walkers st) (accumulators st) total) j a').
Proof.
  intros [Hlen Hfin Hdrain Hdone Hheld Hquiet Hexcl Hready Hbal Hmerged]
         Ha Hd Hidle Hq He Hr Hmp Htot.
  constructor; cbn [set_acc walkers accumulators accumulators_queue_
                    walk_finished_ accumulator_ measurements_done_].
  - exact Hlen.
  - exact Hfin.
  - exact Hdrain.
  - intros j0 a0 Ha0 Hd0. apply list_lookup_insert_Some in Ha0 as [(-> & <- & _)|[_ Ha0]]; eauto.
  - intros j0 a0 Ha0. apply list_lookup_insert_Some in Ha0 as [(-> & <- & _)|[_ Ha0]].
    + rewrite Hidle. eauto.
    + eauto.
  - intros j0 a0 Ha0. apply list_lookup_insert_Some in Ha0 as [(-> & <- & _)|[_ Ha0]]; eauto.
  - intros j0 a0 Ha0. apply list_lookup_insert_Some in Ha0 as [(-> & <- & _)|[_ Ha0]]; eauto.
  - intros j0 a0 Ha0. apply list_lookup_insert_Some in Ha0 as [(-> & <- & _)|[_ Ha0]]; eauto.
  - pose proof (sum_list_with_insert (fun a => measurements (accumulator_obj a)) _ j a a' Ha).
    pose proof (sum_list_with_insert pending _ j a a' Ha). cbn beta in *. lia.
  - pose proof (sum_list_with_insert merged _ j a a' Ha). lia.
Qed.

(** The accumulator a walker holds is waiting without a sample. *)
Lemma held_is_idle (st : State) (i j : nat) (w : WalkerThread) (a : AccThread) :
  invariant cfg st -> walkers st !! i = Some w -> w_pc w = W_Update j ->
  accumulators st !! j = Some a ->
  idle a = 1 /\ queued j (accumulators_queue_ st) = 0 /\
  sum_list_with (holds j) (walkers st) = 1.
Proof.
  intros Hinv Hw Hpc Ha. pose proof (inv_held cfg st Hinv j a Ha) as Hheld.
  assert (Hle : holds j w <= sum_list_with (holds j) (walkers st)).
  { apply sum_list_with_in. eapply list_elem_of_lookup_2. eassumption. }
  assert (Hw1 : holds j w = 1).
  { unfold holds. rewrite Hpc. now rewrite decide_True. }
  assert (Hidle : idle a <= 1).
  { unfold idle. destruct (a_pc a); try lia. destruct (_ || _); lia. }
  lia.
Qed.

Lemma idle_1 (a : AccThread) :
  idle a = 1 ->
  a_pc a = A_Waiting /\ measuring (accumulator_obj a) = false /\
  done (accumulator_obj a) = false.
Proof.
  unfold idle. destruct (a_pc a); try discriminate.
  destruct (measuring _), (done _); cbn; try discriminate. auto.
Qed.

Lemma invariant_pop (st : State) (i : nat) (w : WalkerThread) (acc_ptr : nat)
  (q : list nat) :
  invariant cfg st -> walkers st !! i = Some w -> w_pc w = W_Pop ->
  accumulators_queue_ st = acc_ptr :: q ->
  invariant cfg
    (set_walker (set_queue st q) i
       (mkWalkerThread (W_Update acc_ptr) (meas_id w) (sweeps w))).
Proof.
  intros [Hlen Hfin Hdrain Hdone Hheld Hquiet Hexcl Hready Hbal Hmerged] Hw Hpc Hq.
  set (w' := mkWalkerThread (W_Update acc_ptr) (meas_id w) (sweeps w)).
  constructor; cbn [set_walker set_queue walkers accumulators accumulators_queue_
                    walk_finished_ accumulator_ measurements_done_].
  - now rewrite length_insert.
  - rewrite (sum_list_with_insert_same past_finish _ i w w'); auto.
    unfold past_finish. now rewrite Hpc.
  - intros i0 w0 Hw0 Hpc0. apply list_lookup_insert_Some in Hw0 as [(-> & <- & _)|[_ Hw0]].
    + discriminate.
    + eauto.
  - exact Hdone.
  - intros j a Ha. specialize (Hheld j a Ha). rewrite Hq, queued_cons in Hheld.
    pose proof (sum_list_with_insert (holds j) _ i w w' Hw) as Hs.
    assert (H0 : holds j w = 0) by (unfold holds; now rewrite Hpc).
    assert (H1 : holds j w' = if decide (acc_ptr = j) then 1 else 0) by reflexivity.
    lia.
  - exact Hquiet.
  - exact Hexcl.
  - exact Hready.
  - pose proof (sum_list_with_insert sweeps _ i w w' Hw).
    pose proof (sum_list_with_insert in_flight _ i w w' Hw).
    assert (in_flight w = 1) by (unfold in_flight; now rewrite Hpc).
    assert (in_flight w' = 1) by reflexivity.
    assert (sweeps w' = sweeps w) by reflexivity. lia.
  - exact Hmerged.
Qed.

Lemma invariant_update (st : State) (i : nat) (w : WalkerThread) (acc_ptr : nat)
  (a : AccThread) :
  invariant cfg st -> walkers st !! i = Some w -> w_pc w = W_Update acc_ptr ->
  accumulators st !! acc_ptr = Some a ->
  invariant cfg
    (set_walker
       (set_acc st acc_ptr (mkAccThread (a_pc a) (updateFrom (accumulator_obj a))))
       i (mkWalkerThread W_Incr (meas_id w) (sweeps w))).
Proof.
  intros Hinv Hw Hpc Ha.
  destruct (held_is_idle st i acc_ptr w a Hinv Hw Hpc Ha) as (Hidle & Hqueued & Hsum).
  apply idle_1 in Hidle as (Hapc & Hmeas & Hdn).
  destruct Hinv as [Hlen Hfin Hdrain Hdone Hheld Hquiet Hexcl Hready Hbal Hmerged].
  set (w' := mkWalkerThread W_Incr (meas_id w) (sweeps w)).
  set (a' := mkAccThread (a_pc a) (updateFrom (accumulator_obj a))).
  constructor; cbn [set_walker set_acc walkers accumulators accumulators_queue_
                    walk_finished_ accumulator_ measurements_done_].
  - now rewrite length_insert.
  - rewrite (sum_list_with_insert_same past_finish _ i w w'); auto.
    unfold past_finish. now rewrite Hpc.
  - intros i0 w0 Hw0 Hpc0. apply list_lookup_insert_Some in Hw0 as [(-> & <- & _)|[_ Hw0]].
    + discriminate.
    + eauto.
  - intros j a0 Ha0 Hd0. apply list_lookup_insert_Some in Ha0 as [(-> & <- & _)|[_ Ha0]].
    + cbn in Hd0. congruence.
    + eauto.
  - intros j a0 Ha0.
    pose proof (sum_list_with_insert (holds j) _ i w w' Hw) as Hs.
    assert (H1 : holds j w' = 0) by reflexivity.
    apply list_lookup_insert_Some in Ha0 as [(-> & <- & _)|[Hne Ha0]].
    + assert (H0 : holds j w = 1) by (unfold holds; rewrite Hpc; now rewrite decide_True).
      assert (Hi : idle a' = 0) by (unfold idle, a'; cbn; now rewrite Hapc).
      lia.
    + assert (H0 : holds j w = 0) by (unfold holds; rewrite Hpc; now rewrite decide_False).
      specialize (Hheld j a0 Ha0). lia.
  - intros j a0 Ha0 Hq0. apply list_lookup_insert_Some in Ha0 as [(-> & <- & _)|[_ Ha0]].
    + cbn in Hq0. rewrite Hapc in Hq0. discriminate.
    + eauto.
  - intros j a0 Ha0 Hm0. apply list_lookup_insert_Some in Ha0 as [(-> & <- & _)|[_ Ha0]].
    + exact Hdn.
    + eauto.
  - intros j a0 Ha0 Hp0. apply list_lookup_insert_Some in Ha0 as [(-> & <- & _)|[_ Ha0]].
    + cbn in Hp0. congruence.
    + eauto.
  - pose proof (sum_list_with_insert sweeps _ i w w' Hw).
    pose proof (sum_list_with_insert in_flight _ i w w' Hw).
    pose proof (sum_list_with_insert (fun a => measurements (accumulator_obj a))
                  _ acc_ptr a a' Ha).
    pose proof (sum_list_with_insert pending _ acc_ptr a a' Ha).
    assert (in_flight w = 1) by (unfold in_flight; now rewrite Hpc).
    assert (in_flight w' = 0) by reflexivity.
    assert (sweeps w' = sweeps w) by reflexivity.
    assert (pending a = 0) by (unfold pending; now rewrite Hmeas).
    assert (pending a' = 1) by reflexivity.
    assert (measurements (accumulator_obj a') = measurements (accumulator_obj a))
      by reflexivity.
    cbn beta in *. lia.
  - rewrite (sum_list_with_insert_same merged _ acc_ptr a a'); auto.
Qed.

(** While a walker has yet to increment [walk_finished_], the counter is
    below the number of walkers. *)
Lemma not_all_finished (st : State) (i : nat) (w : WalkerThread) :
  invariant cfg st -> walkers st !! i = Some w -> past_finish w = 0 ->
  walk_finished_ st <> get_walkers cfg.
Proof.
  intros Hinv Hw Hpast Heq.
  rewrite (inv_finished cfg st Hinv), <- (inv_walkers cfg st Hinv) in Heq.
  assert (H1 : past_finish w = 1).
  { apply (sum_list_with_full past_finish (walkers st)) with (i := i); auto.
    intros w0 _. unfold past_finish. destruct (w_pc w0); lia. }
  lia.
Qed.

Lemma invariant_finish (st : State) (i : nat) (w : WalkerThread) :
  invariant cfg st -> walkers st !! i = Some w -> w_pc w = W_Finish ->
  invariant cfg
    (set_walker
       (mkState (S (walk_finished_ st)) (measurements_done_ st)
          (accumulators_queue_ st) (walkers st) (accumulators st) (accumulator_ st))
       i (mkWalkerThread
            (if S (walk_finished_ st) =? get_walkers cfg then W_Drain else W_Done)
            (meas_id w) (sweeps w))).
Proof.
  intros Hinv Hw Hpc.
  assert (Hpast : past_finish w = 0) by (unfold past_finish; now rewrite Hpc).
  pose proof (not_all_finished st i w Hinv Hw Hpast) as Hnot.
  destruct Hinv as [Hlen Hfin Hdrain Hdone Hheld Hquiet Hexcl Hready Hbal Hmerged].
  set (w' := mkWalkerThread
               (if S (walk_finished_ st) =? get_walkers cfg then W_Drain else W_Done)
               (meas_id w) (sweeps w)).
  assert (Hpast' : past_finish w' = 1).
  { unfold past_finish, w'. cbn [w_pc].
    destruct (S (walk_finished_ st) =? get_walkers cfg); reflexivity. }
  assert (Hholds : forall j, holds j w' = 0 /\ holds j w = 0).
  { intros j. unfold holds, w'. cbn [w_pc]. rewrite Hpc.
    destruct (S (walk_finished_ st) =? get_walkers cfg); auto. }
  constructor; cbn [set_walker walkers accumulators accumulators_queue_
                    walk_finished_ accumulator_ measurements_done_].
  - now rewrite length_insert.
  - pose proof (sum_list_with_insert past_finish _ i w w' Hw). lia.
  - intros i0 w0 Hw0 Hpc0. apply list_lookup_insert_Some in Hw0 as [(-> & <- & _)|[_ Hw0]].
    + unfold w' in Hpc0. cbn [w_pc] in Hpc0.
      destruct (S (walk_finished_ st) =? get_walkers cfg) eqn:E; [|discriminate].
      now apply Nat.eqb_eq in E.
    + exfalso. eauto.
  - intros j a Ha Hd. exfalso. eauto.
  - intros j a Ha. destruct (Hholds j) as [H1 H0].
    rewrite (sum_list_with_insert_same (holds j) _ i w w'); auto. lia.
  - exact Hquiet.
  - exact Hexcl.
  - exact Hready.
  - pose proof (sum_list_with_insert sweeps _ i w w' Hw).
    pose proof (sum_list_with_insert in_flight _ i w w' Hw).
    assert (in_flight w = 0) by (unfold in_flight; now rewrite Hpc).
    assert (in_flight w' = 0).
    { unfold in_flight, w'. cbn [w_pc].
      destruct (S (walk_finished_ st) =? get_walkers cfg); reflexivity. }
    assert (sweeps w' = sweeps w) by reflexivity. lia.
  - exact Hmerged.
Qed.

Lemma invariant_drain (st : State) (i : nat) (w : WalkerThread) :
  invariant cfg st -> walkers st !! i = Some w -> w_pc w = W_Drain ->
  invariant cfg
    (set_walker
       (mkState (walk_finished_ st) (measurements_done_ st) []
          (walkers st) (notify_all (accumulators_queue_ st) (accumulators st))
          (accumulator_ st))
       i (mkWalkerThread W_Done (meas_id w) (sweeps w))).
Proof.
  intros Hinv Hw Hpc.
  pose proof (inv_drain cfg st Hinv i w Hw Hpc) as Hwf.
  destruct Hinv as [Hlen Hfin Hdrain Hdone Hheld Hquiet Hexcl Hready Hbal Hmerged].
  set (w' := mkWalkerThread W_Done (meas_id w) (sweeps w)).
  set (q := accumulators_queue_ st) in *.
  assert (Hlook : forall j a0, notify_all q (accumulators st) !! j = Some a0 ->
            exists a, accumulators st !! j = Some a /\
              a0 = (if decide (j ∈ q)
                    then mkAccThread (a_pc a) (notifyDone (accumulator_obj a)) else a)).
  { intros j a0 Ha0. rewrite notify_all_lookup in Ha0.
    destruct (accumulators st !! j) as [a|]; [|discriminate].
    injection Ha0 as <-. eauto. }
  assert (Hin : forall j a, accumulators st !! j = Some a -> j ∈ q ->
            idle a = 1 /\ sum_list_with (holds j) (walkers st) = 0).
  { intros j a Ha Hj. specialize (Hheld j a Ha).
    pose proof (queued_positive j q Hj).
    assert (idle a <= 1).
    { unfold idle. destruct (a_pc a); try lia. destruct (_ || _); lia. }
    lia. }
  assert (Hsame : forall (g : AccThread -> nat),
            (forall a, g (mkAccThread (a_pc a) (notifyDone (accumulator_obj a))) = g a) ->
            sum_list_with g (notify_all q (accumulators st))
            = sum_list_with g (accumulators st)).
  { intros g Hg. apply sum_list_with_pointwise; [apply notify_all_length|].
    intros j a0 a Ha0 Ha. apply Hlook in Ha0 as (a1 & Ha1 & ->).
    rewrite Ha in Ha1. injection Ha1 as <-. destruct (decide (j ∈ q)); auto. }
  constructor; cbn [set_walker walkers accumulators accumulators_queue_
                    walk_finished_ accumulator_ measurements_done_].
  - now rewrite length_insert.
  - rewrite (sum_list_with_insert_same past_finish _ i w w'); auto.
    unfold past_finish. now rewrite Hpc.
  - intros. exact Hwf.
  - intros. exact Hwf.
  - intros j a0 Ha0. apply Hlook in Ha0 as (a & Ha & ->).
    rewrite queued_nil.
    rewrite (sum_list_with_insert_same (holds j) _ i w w'); auto;
      [|unfold holds; now rewrite Hpc].
    destruct (decide (j ∈ q)) as [Hj|Hj].
    + destruct (Hin j a Ha Hj) as [Hidle ->].
      apply idle_1 in Hidle as (Hapc & _ & _).
      unfold idle. cbn. rewrite Hapc. now rewrite orb_true_r.
    + specialize (Hheld j a Ha). rewrite (queued_zero j q Hj) in Hheld. exact Hheld.
  - intros j a0 Ha0 Hq0. apply Hlook in Ha0 as (a & Ha & ->).
    destruct (decide (j ∈ q)); cbn in *; eauto.
  - intros j a0 Ha0 Hm0. apply Hlook in Ha0 as (a & Ha & ->).
    destruct (decide (j ∈ q)) as [Hj|Hj]; [|eauto].
    destruct (Hin j a Ha Hj) as [Hidle _]. apply idle_1 in Hidle as (_ & Hm & _).
    cbn in Hm0. congruence.
  - intros j a0 Ha0 Hp0. apply Hlook in Ha0 as (a & Ha & ->).
    destruct (decide (j ∈ q)) as [Hj|Hj]; [|eauto].
    destruct (Hin j a Ha Hj) as [Hidle _]. apply idle_1 in Hidle as (Hapc & _ & _).
    cbn in Hp0. congruence.
  - rewrite (Hsame (fun a => measurements (accumulator_obj a))) by reflexivity.
    rewrite (Hsame pending) by reflexivity.
    pose proof (sum_list_with_insert sweeps _ i w w' Hw).
    pose proof (sum_list_with_insert in_flight _ i w w' Hw).
    assert (in_flight w = 0) by (unfold in_flight; now rewrite Hpc).
    assert (in_flight w' = 0) by reflexivity.
    assert (sweeps w' = sweeps w) by reflexivity. lia.
  - rewrite (Hsame merged) by reflexivity. exact Hmerged.
Qed.

Lemma invariant_push (st : State) (j : nat) (a : AccThread) :
  invariant cfg st -> accumulators st !! j = Some a -> a_pc a = A_Top ->
  walk_finished_ st <> get_walkers cfg ->
  invariant cfg
    (set_acc (set_queue st (j :: accumulators_queue_ st)) j
       (mkAccThread A_Waiting (accumulator_obj a))).
Proof.
  intros [Hlen Hfin Hdrain Hdone Hheld Hquiet Hexcl Hready Hbal Hmerged] Ha Hpc Hwf.
  set (a' := mkAccThread A_Waiting (accumulator_obj a)).
  assert (Hm : measuring (accumulator_obj a) = false).
  { apply (Hquiet j a Ha). now rewrite Hpc. }
  assert (Hd : done (accumulator_obj a) = false).
  { destruct (done (accumulator_obj a)) eqn:E; [|reflexivity].
    exfalso. apply Hwf. eauto. }
  constructor; cbn [set_acc set_queue walkers accumulators accumulators_queue_
                    walk_finished_ accumulator_ measurements_done_].
  - exact Hlen.
  - exact Hfin.
  - exact Hdrain.
  - intros j0 a0 Ha0 Hd0. apply list_lookup_insert_Some in Ha0 as [(-> & <- & _)|[_ Ha0]].
    + cbn in Hd0. congruence.
    + eauto.
  - intros j0 a0 Ha0. rewrite queued_cons.
    apply list_lookup_insert_Some in Ha0 as [(-> & <- & _)|[Hne Ha0]].
    + rewrite decide_True by reflexivity. specialize (Hheld j0 a Ha).
      assert (idle a = 0) by (unfold idle; now rewrite Hpc).
      assert (idle a' = 1) by (unfold idle, a'; cbn; now rewrite Hm, Hd).
      lia.
    + rewrite decide_False by assumption. specialize (Hheld j0 a0 Ha0). lia.
  - intros j0 a0 Ha0 Hq0. apply list_lookup_insert_Some in Ha0 as [(-> & <- & _)|[_ Ha0]].
    + discriminate.
    + eauto.
  - intros j0 a0 Ha0 Hm0. apply list_lookup_insert_Some in Ha0 as [(-> & <- & _)|[_ Ha0]].
    + exact Hd.
    + eauto.
  - intros j0 a0 Ha0 Hp0. apply list_lookup_insert_Some in Ha0 as [(-> & <- & _)|[_ Ha0]].
    + discriminate.
    + eauto.
  - rewrite (sum_list_with_insert_same (fun a => measurements (accumulator_obj a)) _ j a a');
      auto.
    rewrite (sum_list_with_insert_same pending _ j a a'); auto.
  - rewrite (sum_list_with_insert_same merged _ j a a'); auto.
    unfold merged. now rewrite Hpc.
Qed.

Lemma walker_step_invariant (st st' : State) (i : nat) (w : WalkerThread) :
  invariant cfg st -> walkers st !! i = Some w ->
  walker_step cfg i w st = Some st' -> invariant cfg st'.
Proof.
  intros Hinv Hw Hstep. unfold walker_step in Hstep.
  destruct (w_pc w) as [| | | |acc_ptr| | | |] eqn:Hpc.
  - (* init statement *)
    injection Hstep as <-.
    refine (invariant_walker_local st i w _ (measurements_done_ st) Hinv Hw _ _ _ _);
      [intros j; unfold holds; now rewrite Hpc
      |unfold past_finish; now rewrite Hpc
      |discriminate
      |unfold in_flight; rewrite Hpc; cbn; lia].
  - (* loop test *)
    destruct (meas_id w <? n_local_meas cfg i); injection Hstep as <-;
      refine (invariant_walker_local st i w _ (measurements_done_ st) Hinv Hw _ _ _ _);
      try (intros j; unfold holds; now rewrite Hpc);
      try (unfold past_finish; now rewrite Hpc);
      try discriminate;
      unfold in_flight; rewrite Hpc; cbn; lia.
  - (* sweep *)
    injection Hstep as <-.
    refine (invariant_walker_local st i w _ (measurements_done_ st) Hinv Hw _ _ _ _);
      [intros j; unfold holds; now rewrite Hpc
      |unfold past_finish; now rewrite Hpc
      |discriminate
      |unfold in_flight; rewrite Hpc; cbn; lia].
  - (* pop *)
    destruct (accumulators_queue_ st) as [|acc_ptr q] eqn:Hq; [discriminate|].
    injection Hstep as <-. now apply invariant_pop.
  - (* updateFrom *)
    destruct (accumulators st !! acc_ptr) as [a|] eqn:Ha; [|discriminate].
    injection Hstep as <-. now apply invariant_update.
  - (* loop increment *)
    destruct (fix_meas_per_walker cfg); injection Hstep as <-.
    + refine (invariant_walker_local st i w _ (measurements_done_ st) Hinv Hw _ _ _ _);
        [intros j; unfold holds; now rewrite Hpc
        |unfold past_finish; now rewrite Hpc
        |discriminate
        |unfold in_flight; rewrite Hpc; cbn; lia].
    + refine (invariant_walker_local st i w _ (S (measurements_done_ st)) Hinv Hw _ _ _ _);
        [intros j; unfold holds; now rewrite Hpc
        |unfold past_finish; now rewrite Hpc
        |discriminate
        |unfold in_flight; rewrite Hpc; cbn; lia].
  - (* ++walk_finished_ *)
    injection Hstep as <-. now apply invariant_finish.
  - (* drain *)
    injection Hstep as <-. now apply invariant_drain.
  - discriminate.
Qed.

Lemma acc_step_invariant (st st' : State) (j : nat) (a : AccThread) :
  invariant cfg st -> accumulators st !! j = Some a ->
  acc_step cfg j a st = Some st' -> invariant cfg st'.
Proof.
  intros Hinv Ha Hstep. unfold acc_step in Hstep.
  destruct (a_pc a) eqn:Hpc.
  - (* head of the loop *)
    destruct (walk_finished_ st =? get_walkers cfg) eqn:Hwf; injection Hstep as <-.
    + apply Nat.eqb_eq in Hwf.
      refine (invariant_acc_local st j a _ (accumulator_ st) Hinv Ha _ _ _ _ _ _ _);
        cbn [a_pc accumulator_obj].
      * intros _. exact Hwf.
      * unfold idle. cbn [a_pc]. now rewrite Hpc.
      * intros _. apply (inv_quiet cfg st Hinv j a Ha). now rewrite Hpc.
      * apply (inv_excl cfg st Hinv j a Ha).
      * discriminate.
      * reflexivity.
      * unfold merged. cbn [a_pc]. rewrite Hpc. lia.
    + apply Nat.eqb_neq in Hwf. now apply invariant_push.
  - (* waitForQmciWalker *)
    destruct (wait_over (accumulator_obj a)) eqn:Hwait; [|discriminate].
    injection Hstep as <-.
    refine (invariant_acc_local st j a _ (accumulator_ st) Hinv Ha _ _ _ _ _ _ _);
      cbn [a_pc accumulator_obj].
    + apply (inv_done cfg st Hinv j a Ha).
    + unfold idle. cbn [a_pc accumulator_obj]. rewrite Hpc.
      unfold wait_over in Hwait. now rewrite Hwait.
    + discriminate.
    + apply (inv_excl cfg st Hinv j a Ha).
    + intros _. exact Hwait.
    + reflexivity.
    + unfold merged. cbn [a_pc]. rewrite Hpc. lia.
  - (* measure *)
    injection Hstep as <-.
    pose proof (inv_ready cfg st Hinv j a Ha Hpc) as Hwait.
    pose proof (inv_excl cfg st Hinv j a Ha) as Hexcl.
    pose proof (inv_done cfg st Hinv j a Ha) as Hdone.
    unfold wait_over in Hwait.
    refine (invariant_acc_local st j a _ (accumulator_ st) Hinv Ha _ _ _ _ _ _ _);
      cbn [a_pc accumulator_obj]; unfold measure, pending, idle, merged;
      cbn [a_pc accumulator_obj]; rewrite ?Hpc;
      destruct (done (accumulator_obj a)) eqn:Hd;
      destruct (measuring (accumulator_obj a)) eqn:Hm;
      cbn [measuring done measurements accumulator_obj]; rewrite ?Hd, ?Hm;
      try discriminate; try (specialize (Hexcl eq_refl); discriminate);
      auto; try lia.
  - (* sumTo *)
    injection Hstep as <-.
    refine (invariant_acc_local st j a _ _ Hinv Ha _ _ _ _ _ _ _);
      cbn [a_pc accumulator_obj].
    + apply (inv_done cfg st Hinv j a Ha).
    + unfold idle. cbn [a_pc]. now rewrite Hpc.
    + intros _. apply (inv_quiet cfg st Hinv j a Ha). now rewrite Hpc.
    + apply (inv_excl cfg st Hinv j a Ha).
    + discriminate.
    + reflexivity.
    + unfold merged. cbn [a_pc accumulator_obj]. rewrite Hpc. lia.
  - discriminate.
Qed.

Lemma step_invariant (t : thread) (st st' : State) :
  invariant cfg st -> step cfg t st = Some st' -> invariant cfg st'.
Proof.
  intros Hinv Hstep. destruct t as [i|j]; cbn [step] in Hstep.
  - destruct (walkers st !! i) as [w|] eqn:Hw; [|discriminate].
    eapply walker_step_invariant; eassumption.
  - destruct (accumulators st !! j) as [a|] eqn:Ha; [|discriminate].
    eapply acc_step_invariant; eassumption.
Qed.

Lemma run_invariant (schedule : list thread) (st st' : State) :
  invariant cfg st -> run cfg schedule st = Some st' -> invariant cfg st'.
Proof.
  revert st. induction schedule as [|t rest IH]; intros st Hinv Hrun.
  - injection Hrun as <-. exact Hinv.
  - cbn [run] in Hrun. destruct (step cfg t st) as [st1|] eqn:Hstep; [|discriminate].
    apply (IH st1); [|exact Hrun]. eapply step_invariant; eassumption.
Qed.

(** In a state in which every thread has returned, nothing is in flight. *)
Lemma finished_totals (st : State) :
  invariant cfg st -> finished st = true ->
  total_measurements st = total_sweeps st /\ accumulator_ st = total_sweeps st.
Proof.
  intros Hinv Hfin. unfold finished in Hfin. apply andb_true_iff in Hfin as [Hws Has].
  rewrite forallb_forall in Hws, Has.
  assert (Hflight : sum_list_with in_flight (walkers st) = 0).
  { apply sum_list_with_zero. intros i w Hw.
    apply list_elem_of_lookup_2, list_elem_of_In in Hw. specialize (Hws w Hw).
    unfold in_flight. destruct (w_pc w); try discriminate. reflexivity. }
  assert (Hpend : sum_list_with pending (accumulators st) = 0).
  { apply sum_list_with_zero. intros j a Ha.
    pose proof Ha as Hin. apply list_elem_of_lookup_2, list_elem_of_In in Hin.
    specialize (Has a Hin). unfold pending.
    rewrite (inv_quiet cfg st Hinv j a Ha); [reflexivity|].
    destruct (a_pc a); try discriminate. reflexivity. }
  assert (Hmerged : sum_list_with merged (accumulators st)
                    = sum_list_with (fun a => measurements (accumulator_obj a))
                        (accumulators st)).
  { apply sum_list_with_same. intros j a Ha.
    apply list_elem_of_lookup_2, list_elem_of_In in Ha. specialize (Has a Ha).
    unfold merged. destruct (a_pc a); try discriminate. reflexivity. }
  pose proof (inv_balance cfg st Hinv) as Hbal.
  pose proof (inv_merged cfg st Hinv) as Hm.
  unfold total_measurements, total_sweeps. lia.
Qed.

End RendezvousInvariant.

Section FixedMode.
Import Rendezvous.
Variable cfg : Config.
Hypothesis fixed : fix_meas_per_walker cfg = true.

Lemma walker_step_progress (st st' : State) (i : nat) (w : WalkerThread) :
  walkers st !! i = Some w ->
  walker_step cfg i w st = Some st' ->
  fixed_progress (n_local_meas cfg i) w ->
  exists w', walkers st' = <[i := w']> (walkers st) /\
             fixed_progress (n_local_meas cfg i) w'.
Proof.
  intros Hw Hstep Hprog. unfold walker_step in Hstep. unfold fixed_progress in Hprog.
  rewrite fixed in Hstep.
  destruct (w_pc w) as [| | | |acc_ptr| | | |] eqn:Hpc.
  - injection Hstep as <-. eexists. split; [reflexivity|].
    unfold fixed_progress. cbn. lia.
  - destruct (meas_id w <? n_local_meas cfg i) eqn:E; injection Hstep as <-;
      (eexists; split; [reflexivity|]); unfold fixed_progress; cbn.
    + apply Nat.ltb_lt in E. lia.
    + apply Nat.ltb_ge in E. lia.
  - injection Hstep as <-. eexists. split; [reflexivity|].
    unfold fixed_progress. cbn. lia.
  - destruct (accumulators_queue_ st) as [|acc_ptr q]; [discriminate|].
    injection Hstep as <-. eexists. split; [reflexivity|].
    unfold fixed_progress. cbn. lia.
  - destruct (accumulators st !! acc_ptr) as [a|]; [|discriminate].
    injection Hstep as <-. eexists. split; [reflexivity|].
    unfold fixed_progress. cbn. lia.
  - injection Hstep as <-. eexists. split; [reflexivity|].
    unfold fixed_progress. cbn. lia.
  - set (b := S (walk_finished_ st) =? get_walkers cfg) in Hstep.
    injection Hstep as <-. eexists. split; [reflexivity|].
    unfold fixed_progress. cbn [w_pc sweeps]. destruct b; exact Hprog.
  - injection Hstep as <-. eexists. split; [reflexivity|].
    unfold fixed_progress. cbn. exact Hprog.
  - discriminate.
Qed.

Lemma acc_step_walkers (st st' : State) (j : nat) (a : AccThread) :
  acc_step cfg j a st = Some st' -> walkers st' = walkers st.
Proof.
  unfold acc_step. destruct (a_pc a); try discriminate.
  - destruct (_ =? _); intros [= <-]; reflexivity.
  - destruct (wait_over _); [|discriminate]. intros [= <-]. reflexivity.
  - intros [= <-]. reflexivity.
  - intros [= <-]. reflexivity.
Qed.

Lemma step_progress (t : thread) (st st' : State) :
  all_progress cfg st -> step cfg t st = Some st' -> all_progress cfg st'.
Proof.
  intros Hall Hstep. destruct t as [i|j]; cbn [step] in Hstep.
  - destruct (walkers st !! i) as [w|] eqn:Hw; [|discriminate].
    destruct (walker_step_progress st st' i w Hw Hstep (Hall i w Hw)) as (w' & Hws & Hp).
    intros i0 w0 Hw0. rewrite Hws in Hw0.
    apply list_lookup_insert_Some in Hw0 as [(-> & <- & _)|[_ Hw0]]; auto.
  - destruct (accumulators st !! j) as [a|] eqn:Ha; [|discriminate].
    intros i0 w0 Hw0. rewrite (acc_step_walkers st st' j a Hstep) in Hw0. auto.
Qed.

Lemma run_progress (schedule : list thread) (st st' : State) :
  all_progress cfg st -> run cfg schedule st = Some st' -> all_progress cfg st'.
Proof.
  revert st. induction schedule as [|t rest IH]; intros st Hall Hrun.
  - injection Hrun as <-. exact Hall.
  - cbn [run] in Hrun. destruct (step cfg t st) as [st1|] eqn:Hstep; [|discriminate].
    apply (IH st1); [|exact Hrun]. eapply step_progress; eassumption.
Qed.

Lemma initial_progress : all_progress cfg (initial cfg).
Proof.
  intros i w Hw. unfold initial in Hw. cbn [walkers] in Hw.
  apply lookup_replicate in Hw as [-> _]. reflexivity.
Qed.

Lemma sum_by_index {A : Type} (g : A -> nat) (h : nat -> nat) (l : list A) (k : nat) :
  (forall i a, l !! i = Some a -> g a = h (k + i)) ->
  sum_list_with g l = foldr Nat.add 0 (map h (seq k (length l))).
Proof.
  revert k. induction l as [|x l IH]; intros k Hg; [reflexivity|].
  cbn. rewrite (Hg 0 x) by reflexivity. rewrite Nat.add_0_r. f_equal.
  apply IH. intros i a Ha. rewrite (Hg (S i) a Ha). f_equal. lia.
Qed.

Lemma shares_add_up :
  1 <= get_walkers cfg ->
  foldr Nat.add 0 (map (n_local_meas cfg) (seq 0 (get_walkers cfg))) = total_meas cfg.
Proof.
  intros HW. unfold n_local_meas. rewrite fixed.
  apply Nat2Z.inj.
  rewrite (getWorkload_prefix_sum (Z.of_nat (total_meas cfg))
             (Z.of_nat (get_walkers cfg)) (get_walkers cfg)) by lia.
  pose proof (Z.mod_pos_bound (Z.of_nat (total_meas cfg)) (Z.of_nat (get_walkers cfg))
                ltac:(lia)) as Hm.
  pose proof (Z.div_mod (Z.of_nat (total_meas cfg)) (Z.of_nat (get_walkers cfg))
                ltac:(lia)) as Hd.
  lia.
Qed.

Lemma fixed_total_sweeps (schedule : list thread) (st : State) :
  1 <= get_walkers cfg ->
  run cfg schedule (initial cfg) = Some st -> finished st = true ->
  total_sweeps st = total_meas cfg.
Proof.
  intros HW Hrun Hfin.
  pose proof (run_progress schedule _ _ initial_progress Hrun) as Hall.
  pose proof (run_invariant cfg schedule _ _ (invariant_initial cfg) Hrun) as Hinv.
  unfold total_sweeps.
  rewrite (sum_by_index sweeps (n_local_meas cfg) (walkers st) 0).
  - rewrite (inv_walkers cfg st Hinv). now apply shares_add_up.
  - intros i w Hw. specialize (Hall i w Hw).
    unfold finished in Hfin. apply andb_true_iff in Hfin as [Hws _].
    rewrite forallb_forall in Hws.
    pose proof Hw as Hin. apply list_elem_of_lookup_2, list_elem_of_In in Hin.
    specialize (Hws w Hin). unfold fixed_progress in Hall.
    destruct (w_pc w); try discriminate. exact Hall.
Qed.

End FixedMode.

Section RendezvousClaims.
Import Rendezvous.

(** In every run of the walker and accumulator threads that has returned,
    each sample a walker produced has been measured by exactly one
    accumulator: the measurements of the accumulators, and what they merged
    into the global accumulator, add up to the number of sweeps of the
    walkers' measurement loops. *)
Theorem rendezvous_exactly_once (cfg : Config) (schedule : list thread) (st : State) :
  run cfg schedule (initial cfg) = Some st -> finished st = true ->
  total_measurements st = total_sweeps st /\ accumulator_ st = total_sweeps st.
Proof.
  intros Hrun Hfin. apply (finished_totals cfg); [|exact Hfin].
  exact (run_invariant cfg schedule _ _ (invariant_initial cfg) Hrun).
Qed.

(** With the fixed-per-walker flag and at least one walker, a run that has
    returned has measured exactly the process's share of the measurements. *)
Theorem fixed_mode_total (cfg : Config) (schedule : list thread) (st : State) :
  fix_meas_per_walker cfg = true -> 1 <= get_walkers cfg ->
  run cfg schedule (initial cfg) = Some st -> finished st = true ->
  total_sweeps st = total_meas cfg /\
  total_measurements st = total_meas cfg /\
  accumulator_ st = total_meas cfg.
Proof.
  intros Hfix HW Hrun Hfin.
  pose proof (fixed_total_sweeps cfg Hfix schedule st HW Hrun Hfin) as Hs.
  pose proof (run_invariant cfg schedule _ _ (invariant_initial cfg) Hrun) as Hinv.
  destruct (finished_totals cfg st Hinv Hfin) as [Hm Ha].
  rewrite <- Hs. auto.
Qed.

(** Scenario 3: three walkers, two accumulators, ten measurements, fixed per
    walker.  The scheduler's run returns; the walkers have swept 4, 3 and 3
    times and the accumulators have measured ten samples. *)
Lemma fixed_mode_total_witness :
  let cfg := mkConfig 3 2 true 10 in
  exists st,
    run cfg (schedule_to_end cfg 400 (initial cfg)) (initial cfg) = Some st /\
    finished st = true /\
    map sweeps (walkers st) = [4; 3; 3] /\
    total_sweeps st = 10 /\ total_measurements st = 10 /\ accumulator_ st = 10.
Proof.
  intros cfg.
  destruct (run cfg (schedule_to_end cfg 400 (initial cfg)) (initial cfg))
    as [st|] eqn:Hrun; [|vm_compute in Hrun; discriminate].
  assert (Hfin : finished st = true /\ map sweeps (walkers st) = [4; 3; 3]).
  { pose proof Hrun as Hrun'. vm_compute in Hrun'. injection Hrun' as <-.
    split; reflexivity. }
  destruct Hfin as [Hfin Hsw].
  exists st. split; [reflexivity|]. split; [exact Hfin|]. split; [exact Hsw|].
  exact (fixed_mode_total cfg _ st eq_refl ltac:(cbn; lia) Hrun Hfin).
Defined.

(** The run with the shared counter of [shared_counter_overrun]: two sweeps,
    two measurements. *)
Lemma rendezvous_exactly_once_witness :
  let cfg := mkConfig 2 1 false 1 in
  let schedule :=
    [Walker 0; Walker 1;
     Walker 0; Walker 0; Acc 0; Walker 0; Walker 0; Acc 0; Acc 0; Walker 0; Walker 0;
     Walker 1; Walker 1; Acc 0; Walker 1; Walker 1; Acc 0; Acc 0; Walker 1; Walker 1;
     Walker 0; Walker 1; Walker 1; Acc 0; Acc 0] in
  let st :=
    mkState 2 2 []
      [mkWalkerThread W_Done 1 1; mkWalkerThread W_Done 2 1]
      [mkAccThread A_Finished (mkAccumulator false false 2)] 2 in
  total_measurements st = total_sweeps st /\ accumulator_ st = total_sweeps st.
Proof.
  intros cfg schedule st.
  assert (Hrun : run cfg schedule (initial cfg) = Some st) by (vm_compute; reflexivity).
  exact (rendezvous_exactly_once cfg schedule st Hrun eq_refl).
Defined.

End RendezvousClaims.

(** ** The loop with the shared counter under interleaving *)

Section SharedMode.
Import Rendezvous Progress.
Variable cfg : Config.
Hypothesis shared : fix_meas_per_walker cfg = false.
Hypothesis some_walker : 1 <= get_walkers cfg.










End SharedMode.

(** ** No thread of the rendezvous waits for ever *)

Section Liveness.
Import Rendezvous Progress.
Variable cfg : Config.

Lemma live_initial : live_invariant cfg (initial cfg).
Proof.
  constructor; unfold initial;
    cbn [walkers accumulators accumulators_queue_ walk_finished_].
  - apply length_replicate.
  - intros j Hj. inversion Hj.
  - intros i w j Hw Hpc. apply lookup_replicate in Hw as [-> _]. discriminate.
  - intros j a Ha. apply lookup_replicate in Ha as [-> _]. discriminate.
  - intros _. now right.
Qed.

Lemma held_insert (l : list WalkerThread) (i n : nat) (w' : WalkerThread) :
  (forall i0 w0 j, l !! i0 = Some w0 -> w_pc w0 = W_Update j -> j < n) ->
  (forall j, w_pc w' = W_Update j -> j < n) ->
  forall i0 w0 j, <[i := w']> l !! i0 = Some w0 -> w_pc w0 = W_Update j -> j < n.
Proof.
  intros Hl Hw' i0 w0 j Hw0 Hpc.
  apply list_lookup_insert_Some in Hw0 as [(-> & <- & _)|[_ Hw0]]; eauto.
Qed.

Lemma drain_insert (l : list WalkerThread) (i : nat) (w w' : WalkerThread) :
  l !! i = Some w -> w_pc w <> W_Drain ->
  (exists i0 w0, l !! i0 = Some w0 /\ w_pc w0 = W_Drain) ->
  exists i0 w0, <[i := w']> l !! i0 = Some w0 /\ w_pc w0 = W_Drain.
Proof.
  intros Hw Hpc (i0 & w0 & Hw0 & Hpc0). exists i0, w0. split; [|exact Hpc0].
  rewrite list_lookup_insert_ne; [exact Hw0|].
  intros ->. rewrite Hw in Hw0. injection Hw0 as ->. contradiction.
Qed.

Lemma exit_insert (accs : list AccThread) (j : nat) (a' : AccThread) (P : Prop) :
  (forall j0 a0, accs !! j0 = Some a0 -> exited a0 = true -> P) ->
  (exited a' = true -> P) ->
  forall j0 a0, <[j := a']> accs !! j0 = Some a0 -> exited a0 = true -> P.
Proof.
  intros Hl Ha' j0 a0 Ha0 He.
  apply list_lookup_insert_Some in Ha0 as [(-> & <- & _)|[_ Ha0]]; eauto.
Qed.

Lemma live_walker_step (st st' : State) (i : nat) (w : WalkerThread) :
  invariant cfg st -> live_invariant cfg st -> walkers st !! i = Some w ->
  walker_step cfg i w st = Some st' -> live_invariant cfg st'.
Proof.
  intros Hinv Hlive Hw Hstep. unfold walker_step in Hstep.
  destruct Hlive as [Hlen Hq Hheld Hexit Hdr].
  destruct (w_pc w) as [| | | |acc_ptr| | | |] eqn:Hpc; try discriminate;
    [ | destruct (meas_id w <? n_local_meas cfg i)
      | | destruct (accumulators_queue_ st) as [|acc_ptr q] eqn:Eq; [discriminate|]
      | destruct (accumulators st !! acc_ptr) as [a|] eqn:Ea; [|discriminate]
      | destruct (fix_meas_per_walker cfg) | | ];
    injection Hstep as <-; constructor;
    cbn [walkers accumulators accumulators_queue_ walk_finished_ set_walker set_acc
         set_queue];
    rewrite ?length_insert, ?notify_all_length; try assumption;
    try (apply held_insert; [assumption|cbn [w_pc]; discriminate]);
    try (intros Hwf; destruct (Hdr Hwf) as [Hex|Hnil]; [left|now right];
         apply (drain_insert _ i w); [assumption|rewrite Hpc; discriminate|assumption]).
  - (* pop: the queue *)
    intros j Hj. apply Hq. now apply list_elem_of_further.
  - (* pop: the pointer taken *)
    apply held_insert; [assumption|]. cbn [w_pc]. intros j [= <-].
    apply Hq. apply list_elem_of_here.
  - (* updateFrom *)
    apply exit_insert; [exact Hexit|]. cbn [exited a_pc]. intros He.
    apply (Hexit acc_ptr a Ea He).
  - (* ++walk_finished_ *)
    apply held_insert; [assumption|]. cbn [w_pc]. intros j. now case_match.
  - (* ++walk_finished_: no accumulator has left its loop *)
    intros j a Ha He. exfalso.
    apply (not_all_finished cfg st i w Hinv Hw); [unfold past_finish; now rewrite Hpc|].
    exact (Hexit j a Ha He).
  - (* ++walk_finished_: the last walker drains *)
    intros Hwf. left. exists i. eexists. split.
    + apply list_lookup_insert_eq. now apply lookup_lt_Some in Hw.
    + cbn [w_pc]. rewrite <- Hwf. cbn. now rewrite Nat.eqb_refl.
  - (* drain *)
    intros j Hj. inversion Hj.
  - intros j a Ha He. rewrite notify_all_lookup in Ha.
    destruct (accumulators st !! j) as [a0|] eqn:Ea0; [|discriminate].
    injection Ha as <-. apply (Hexit j a0 Ea0).
    now destruct (decide (j ∈ accumulators_queue_ st)).
  - intros _. now right.
Qed.

Lemma live_acc_step (st st' : State) (j : nat) (a : AccThread) :
  live_invariant cfg st -> accumulators st !! j = Some a ->
  acc_step cfg j a st = Some st' -> live_invariant cfg st'.
Proof.
  intros Hlive Ha Hstep. unfold acc_step in Hstep.
  destruct Hlive as [Hlen Hq Hheld Hexit Hdr].
  pose proof (lookup_lt_Some _ _ _ Ha) as Hj.
  destruct (a_pc a) eqn:Hpc; try discriminate;
    [ destruct (walk_finished_ st =? get_walkers cfg) eqn:Hwf;
        [apply Nat.eqb_eq in Hwf|apply Nat.eqb_neq in Hwf]
    | destruct (wait_over (accumulator_obj a)); [|discriminate] | | ];
    injection Hstep as <-; constructor;
    cbn [walkers accumulators accumulators_queue_ walk_finished_ set_walker set_acc
         set_queue];
    rewrite ?length_insert; try assumption;
    try (apply exit_insert; [exact Hexit|]; cbn [exited a_pc]; try discriminate;
         intros _; try assumption;
         apply (Hexit j a Ha); unfold exited; now rewrite Hpc).
  - intros j0 Hj0. apply elem_of_cons in Hj0 as [->|Hj0]; auto.
  - intros Hwf'. contradiction.
Qed.

Lemma live_step (t : thread) (st st' : State) :
  invariant cfg st -> live_invariant cfg st -> step cfg t st = Some st' ->
  live_invariant cfg st'.
Proof.
  intros Hinv Hlive Hstep. destruct t as [i|j]; cbn [step] in Hstep.
  - destruct (walkers st !! i) as [w|] eqn:Hw; [|discriminate].
    eapply live_walker_step; eassumption.
  - destruct (accumulators st !! j) as [a|] eqn:Ha; [|discriminate].
    eapply live_acc_step; eassumption.
Qed.

Lemma live_run (schedule : list thread) (st st' : State) :
  invariant cfg st -> live_invariant cfg st -> run cfg schedule st = Some st' ->
  live_invariant cfg st'.
Proof.
  revert st. induction schedule as [|t rest IH]; intros st Hinv Hlive Hrun.
  - injection Hrun as <-. exact Hlive.
  - cbn [run] in Hrun. destruct (step cfg t st) as [st1|] eqn:Hstep; [|discriminate].
    apply (IH st1); [| |exact Hrun].
    + eapply step_invariant; eassumption.
    + eapply live_step; eassumption.
Qed.






Lemma sum_list_with_ones {A : Type} (g : A -> nat) (l : list A) :
  (forall i a, l !! i = Some a -> g a = 1) -> sum_list_with g l = length l.
Proof.
  induction l as [|x l IH]; intros Hg; cbn; [reflexivity|].
  rewrite (Hg 0 x eq_refl), IH; [reflexivity|].
  intros i a Ha. exact (Hg (S i) a Ha).
Qed.


End Liveness.

(** ** Every run of the rendezvous is finite and can be completed *)

Section Termination.
Import Rendezvous Progress.
Variable cfg : Config.


Lemma loop_initial : loop_invariant cfg (initial cfg).
Proof.
  constructor; unfold initial; cbn [walkers measurements_done_].
  - intros i w Hw. apply lookup_replicate in Hw as [-> _]. discriminate.
  - intros _ i w Hw. apply lookup_replicate in Hw as [-> _]. intros Hpc. now destruct Hpc.
Qed.

Lemma loop_walker_step (st st' : State) (i : nat) (w : WalkerThread) :
  loop_invariant cfg st -> walkers st !! i = Some w ->
  walker_step cfg i w st = Some st' -> loop_invariant cfg st'.
Proof.
  intros [Hbody Hread] Hw Hstep. unfold walker_step in Hstep.
  pose proof (Hbody i w Hw) as Hb. unfold in_body in Hb.
  assert (Hkeep : forall w' D',
            (in_body w' = true -> meas_id w' < n_local_meas cfg i) ->
            measurements_done_ st <= D' ->
            (fix_meas_per_walker cfg = false -> w_pc w' <> W_Init -> meas_id w' <= D') ->
            forall st1, walkers st1 = <[i := w']> (walkers st) ->
                        measurements_done_ st1 = D' -> loop_invariant cfg st1).
  { intros w' D' Hb' HD Hr' st1 Hws HD1. constructor; rewrite ?Hws, ?HD1.
    - intros i0 w0 Hw0 Hin.
      apply list_lookup_insert_Some in Hw0 as [(-> & <- & _)|[_ Hw0]]; eauto.
    - intros Hsh i0 w0 Hw0 Hpc0.
      apply list_lookup_insert_Some in Hw0 as [(-> & <- & _)|[_ Hw0]]; [auto|].
      specialize (Hread Hsh i0 w0 Hw0 Hpc0). lia. }
  destruct (w_pc w) as [| | | |acc_ptr| | | |] eqn:Hpc; try discriminate;
    [ | destruct (meas_id w <? n_local_meas cfg i) eqn:E;
        [apply Nat.ltb_lt in E|apply Nat.ltb_ge in E]
      | | destruct (accumulators_queue_ st) as [|acc_ptr q]; [discriminate|]
      | destruct (accumulators st !! acc_ptr) as [a|]; [|discriminate]
      | destruct (fix_meas_per_walker cfg) eqn:Hfix | | ];
    injection Hstep as <-;
    (eapply Hkeep; [| | |reflexivity|reflexivity]);
    cbn [measurements_done_ set_walker set_acc set_queue w_pc meas_id sweeps in_body];
    try lia; try discriminate; try (intros _; now apply Hb);
    try (intros Hsh _; apply (Hread Hsh i w Hw); rewrite Hpc; discriminate);
    try (intros Hsh; destruct (fix_meas_per_walker cfg); [discriminate|lia]).
  - now case_match.
Qed.

Lemma acc_step_counter (st st' : State) (j : nat) (a : AccThread) :
  acc_step cfg j a st = Some st' -> measurements_done_ st' = measurements_done_ st.
Proof.
  unfold acc_step. destruct (a_pc a); try discriminate.
  - destruct (_ =? _); intros [= <-]; reflexivity.
  - destruct (wait_over _); [|discriminate]. intros [= <-]. reflexivity.
  - intros [= <-]. reflexivity.
  - intros [= <-]. reflexivity.
Qed.

Lemma loop_step (t : thread) (st st' : State) :
  loop_invariant cfg st -> step cfg t st = Some st' -> loop_invariant cfg st'.
Proof.
  intros Hinv Hstep. destruct t as [i|j]; cbn [step] in Hstep.
  - destruct (walkers st !! i) as [w|] eqn:Hw; [|discriminate].
    eapply loop_walker_step; eassumption.
  - destruct (accumulators st !! j) as [a|] eqn:Ha; [|discriminate].
    destruct Hinv as [Hbody Hread].
    constructor; rewrite (acc_step_walkers cfg st st' j a Hstep),
      ?(acc_step_counter st st' j a Hstep); assumption.
Qed.

Lemma reachable_initial : reachable_invariant cfg (initial cfg).
Proof.
  split; [apply invariant_initial|]. split; [apply live_initial|apply loop_initial].
Qed.

Lemma reachable_step (t : thread) (st st' : State) :
  reachable_invariant cfg st -> step cfg t st = Some st' -> reachable_invariant cfg st'.
Proof.
  intros (Hinv & Hlive & Hloop) Hstep. split; [|split].
  - eapply step_invariant; eassumption.
  - eapply live_step; eassumption.
  - eapply loop_step; eassumption.
Qed.

Lemma reachable_run (schedule : list thread) (st st' : State) :
  reachable_invariant cfg st -> run cfg schedule st = Some st' ->
  reachable_invariant cfg st'.
Proof.
  revert st. induction schedule as [|t rest IH]; intros st Hinv Hrun.
  - injection Hrun as <-. exact Hinv.
  - cbn [run] in Hrun. destruct (step cfg t st) as [st1|] eqn:Hstep; [|discriminate].
    apply (IH st1); [|exact Hrun]. eapply reachable_step; eassumption.
Qed.










End Termination.

(** ** The rendezvous: bounds with the shared counter, progress, termination *)

Section RendezvousProgress.
Import Rendezvous Progress.







Lemma sum_list_with_lookup_le {A : Type} (g : A -> nat) (l : list A) (i : nat) (a : A) :
  l !! i = Some a -> g a <= sum_list_with g l.
Proof.
  revert i. induction l as [|x l IH]; intros [|i] Ha; try discriminate; cbn in *.
  - injection Ha as ->. lia.
  - specialize (IH i Ha). lia.
Qed.

(** A walker calls [updateFrom] only on an accumulator that is waiting in
    [waitForQmciWalker] with no sample and no terminate flag, that is not in
    the queue, and that no other walker holds. *)
Theorem exclusive_handoff (cfg : Config) (schedule : list thread) (st : State)
  (i j : nat) (w : WalkerThread) :
  run cfg schedule (initial cfg) = Some st ->
  walkers st !! i = Some w -> w_pc w = W_Update j ->
  exists a, accumulators st !! j = Some a /\
    a_pc a = A_Waiting /\
    measuring (accumulator_obj a) = false /\ done (accumulator_obj a) = false /\
    (j ∉ accumulators_queue_ st) /\
    forall i' w', walkers st !! i' = Some w' -> w_pc w' = W_Update j -> i' = i.
Proof.
  intros Hrun Hw Hpc.
  destruct (reachable_run cfg schedule _ _ (reachable_initial cfg) Hrun)
    as (Hinv & Hlive & _).
  destruct (lookup_lt_is_Some_2 (accumulators st) j (lv_held cfg st Hlive i w j Hw Hpc))
    as [a Ha].
  destruct (held_is_idle cfg st i j w a Hinv Hw Hpc Ha) as (Hidle & Hq & Hsum).
  destruct (idle_1 a Hidle) as (Hwait & Hm & Hd).
  exists a. repeat split; try assumption.
  - intros Hin. apply queued_positive in Hin. lia.
  - intros i' w' Hw' Hpc'. destruct (decide (i' = i)) as [|Hne]; [assumption|exfalso].
    pose proof (sum_list_with_insert (holds j) (walkers st) i w
                  (mkWalkerThread W_Done 0 0) Hw) as Es.
    assert (Hw'' : <[i := mkWalkerThread W_Done 0 0]> (walkers st) !! i' = Some w').
    { rewrite list_lookup_insert_ne by auto. exact Hw'. }
    pose proof (sum_list_with_lookup_le (holds j) _ i' w' Hw'') as Hle.
    unfold holds in Es, Hle. rewrite Hpc, Hpc' in *. cbn in Es.
    rewrite decide_True in Es, Hle by reflexivity. unfold holds in Hsum. lia.
Qed.

Lemma exclusive_handoff_witness :
  let cfg := mkConfig 1 1 false 1 in
  let schedule := [Walker 0; Walker 0; Walker 0; Acc 0; Walker 0] in
  exists st a, run cfg schedule (initial cfg) = Some st /\
    accumulators st !! 0 = Some a /\ a_pc a = A_Waiting /\
    accumulators_queue_ st = [].
Proof.
  intros cfg schedule.
  destruct (run cfg schedule (initial cfg)) as [st|] eqn:Hrun;
    [|vm_compute in Hrun; discriminate].
  assert (Hst : walkers st !! 0 = Some (mkWalkerThread (W_Update 0) 0 1) /\
                accumulators_queue_ st = []).
  { pose proof Hrun as Hrun'. vm_compute in Hrun'. injection Hrun' as <-.
    split; reflexivity. }
  destruct (exclusive_handoff cfg schedule st 0 0 _ Hrun (proj1 Hst) eq_refl)
    as (a & Ha & Hpc & _).
  exists st, a. split; [reflexivity|]. split; [exact Ha|]. split; [exact Hpc|apply Hst].
Defined.

(** When all threads have returned, [walk_finished_] equals the number of
    walkers (the assertion that closes [integrate]) and the queue of idle
    accumulators is empty. *)
Theorem integrate_postcondition (cfg : Config) (schedule : list thread) (st : State) :
  run cfg schedule (initial cfg) = Some st -> finished st = true ->
  walk_finished_ st = get_walkers cfg /\ accumulators_queue_ st = [].
Proof.
  intros Hrun Hfin.
  destruct (reachable_run cfg schedule _ _ (reachable_initial cfg) Hrun)
    as (Hinv & Hlive & _).
  unfold finished in Hfin. apply andb_true_iff in Hfin as [Hws _].
  rewrite forallb_forall in Hws.
  assert (Hdone : forall i w, walkers st !! i = Some w -> w_pc w = W_Done).
  { intros i w Hw. apply list_elem_of_lookup_2, list_elem_of_In in Hw.
    specialize (Hws w Hw). now destruct (w_pc w). }
  assert (Hwf : walk_finished_ st = get_walkers cfg).
  { rewrite (inv_finished cfg st Hinv), <- (inv_walkers cfg st Hinv).
    apply sum_list_with_ones. intros i w Hw. unfold past_finish.
    now rewrite (Hdone i w Hw). }
  split; [exact Hwf|].
  destruct (lv_drained cfg st Hlive Hwf) as [(i & w & Hw & Hpc)|Hq]; [|exact Hq].
  rewrite (Hdone i w Hw) in Hpc. discriminate.
Qed.

Lemma integrate_postcondition_witness :
  let cfg := mkConfig 2 1 true 3 in
  exists st,
    run cfg (schedule_to_end cfg 100 (initial cfg)) (initial cfg) = Some st /\
    finished st = true /\
    walk_finished_ st = 2 /\ accumulators_queue_ st = [].
Proof.
  intros cfg.
  destruct (run cfg (schedule_to_end cfg 100 (initial cfg)) (initial cfg))
    as [st|] eqn:Hrun; [|vm_compute in Hrun; discriminate].
  assert (Hfin : finished st = true).
  { pose proof Hrun as Hrun'. vm_compute in Hrun'. injection Hrun' as <-. reflexivity. }
  exists st. split; [reflexivity|]. split; [exact Hfin|].
  exact (integrate_postcondition cfg _ st Hrun Hfin).
Defined.

End RendezvousProgress.

(** ** Threads that walk and accumulate *)

Section CombinedFacts.
Import Combined.
Variable cfg : Rendezvous.Config.
Hypothesis some_walker : 1 <= Rendezvous.get_walkers cfg.






End CombinedFacts.

Section CombinedClaims.
Import Combined.



End CombinedClaims.

(** ** Matrix views: writing, copying and printing *)

Section MatrixViewOperations.
Import MatrixView MatrixViewOps.
Local Open Scope Z_scope.

Lemma elem_of_range (n k : Z) : k ∈ range n <-> 0 <= k < n.
Proof.
  unfold range. rewrite list_elem_of_In, in_map_iff. split.
  - intros (m & <- & Hm). apply in_seq in Hm. lia.
  - intros Hk. exists (Z.to_nat k). split; [lia|]. apply in_seq. lia.
Qed.

Lemma elem_of_elements (v : MatrixView) (i j : Z) :
  (i, j) ∈ elements v <-> 0 <= i < nrRows v /\ 0 <= j < nrCols v.
Proof.
  unfold elements. rewrite list_elem_of_bind. split.
  - intros (j0 & Hin & Hj). apply list_elem_of_bind in Hin as (i0 & Hin & Hi).
    apply list_elem_of_singleton in Hin. injection Hin as -> ->.
    apply elem_of_range in Hi, Hj. auto.
  - intros [Hi Hj]. exists j. split; [|now apply elem_of_range].
    apply list_elem_of_bind. exists i. split; [|now apply elem_of_range].
    now apply list_elem_of_singleton.
Qed.

Lemma at_address (v : MatrixView) (i j : Z) :
  wf v -> 0 <= i < nrRows v -> 0 <= j < nrCols v ->
  at_ v i j = Some (address v i j).
Proof. intros. unfold address. now apply at_valid. Qed.

(** Distinct elements of a view lie at distinct addresses. *)
Lemma address_injective (v : MatrixView) (i j i' j' : Z) :
  wf v -> 0 <= i < nrRows v -> 0 <= i' < nrRows v -> 0 <= j -> 0 <= j' ->
  address v i j = address v i' j' -> i = i' /\ j = j'.
Proof.
  unfold wf, address. intros (Hr & Hc & Hld & Hsz) Hi Hi' Hj Hj' Heq.
  destruct (Z.lt_trichotomy j j') as [Hlt|[->|Hgt]].
  - exfalso. assert (j * ldm_ v + ldm_ v <= j' * ldm_ v) by nia. lia.
  - lia.
  - exfalso. assert (j' * ldm_ v + ldm_ v <= j * ldm_ v) by nia. lia.
Qed.

(** Writing an element of a view and reading the view back: the element
    written holds the new value, every other element of the view is
    unchanged, and so is the store outside the address written. *)
Theorem view_get_set (T : Type) (mem : store T) (v : MatrixView) (i j : Z) (x : T) :
  wf v -> 0 <= i < nrRows v -> 0 <= j < nrCols v ->
  exists mem', set mem v i j x = Some mem' /\
    get mem' v i j = Some x /\
    (forall i' j', 0 <= i' < nrRows v -> 0 <= j' < nrCols v -> (i', j') <> (i, j) ->
       get mem' v i' j' = get mem v i' j') /\
    (forall a, a <> address v i j -> mem' a = mem a).
Proof.
  intros Hwf Hi Hj. unfold set, get. rewrite (at_address v i j Hwf Hi Hj).
  eexists. split; [reflexivity|]. split; [|split].
  - now rewrite Z.eqb_refl.
  - intros i' j' Hi' Hj' Hne. rewrite (at_address v i' j' Hwf Hi' Hj').
    destruct (Z.eqb_spec (address v i' j') (address v i j)) as [Heq|]; [|reflexivity].
    apply address_injective in Heq as [-> ->]; try assumption; try lia.
    now destruct Hne.
  - intros a Ha. now destruct (Z.eqb_spec a (address v i j)).
Qed.

Lemma view_get_set_witness :
  let v := mkView 100 4 (4, 5) in
  exists mem', set (fun _ => 0) v 1 2 7 = Some mem' /\
    get mem' v 1 2 = Some 7 /\ get mem' v 2 1 = Some 0.
Proof.
  intros v.
  assert (Hwf : wf v) by (unfold wf, Int.INT_MAX; cbn; lia).
  destruct (view_get_set Z (fun _ => 0) v 1 2 7 Hwf ltac:(cbn; lia) ltac:(cbn; lia))
    as (mem' & Hset & Hget & Hother & _).
  exists mem'. split; [exact Hset|]. split; [exact Hget|].
  rewrite (Hother 2 1 ltac:(cbn; lia) ltac:(cbn; lia) ltac:(discriminate)).
  reflexivity.
Defined.

Lemma foldl_bind_list {A B C : Type} (f : A -> C -> A) (g : B -> list C)
  (l : list B) (a : A) :
  foldl f a (l ≫= g) = foldl (fun a x => foldl f a (g x)) a l.
Proof.
  revert a. induction l as [|x l IH]; intros a; [reflexivity|].
  rewrite bind_cons, foldl_app, IH. reflexivity.
Qed.

Lemma foldl_ext_in {A B : Type} (f g : A -> B -> A) (l : list B) (a : A) :
  (forall a x, f a x = g a x) -> foldl f a l = foldl g a l.
Proof.
  intros Hfg. revert a. induction l as [|x l IH]; intros a; [reflexivity|].
  cbn. now rewrite Hfg, IH.
Qed.

(** The two loops of [operator=] visit the elements in the order of
    [elements]. *)
Lemma assign_elements (T : Type) (mem : store T) (v rhs : MatrixView) :
  assign mem v rhs =
  if assign_asserts v rhs
  then foldl (fun m p => assign_element v rhs (snd p) (fst p) m) (Some mem) (elements v)
  else None.
Proof.
  unfold assign, elements. destruct (assign_asserts v rhs); [|reflexivity].
  rewrite foldl_bind_list. apply foldl_ext_in. intros m j.
  rewrite foldl_bind_list. apply foldl_ext_in. intros m' i. reflexivity.
Qed.

Lemma assign_list (T : Type) (mem : store T) (v rhs : MatrixView) (l : list (Z * Z)) :
  wf v -> wf rhs -> nrRows v = nrRows rhs -> nrCols v = nrCols rhs ->
  disjoint v rhs ->
  (forall p, p ∈ l -> 0 <= fst p < nrRows v /\ 0 <= snd p < nrCols v) ->
  forall mem0,
    (forall i j, 0 <= i < nrRows rhs -> 0 <= j < nrCols rhs ->
       mem0 (address rhs i j) = mem (address rhs i j)) ->
    exists mem',
      foldl (fun m p => assign_element v rhs (snd p) (fst p) m) (Some mem0) l = Some mem' /\
      (forall a, (forall p, p ∈ l -> a <> address v (fst p) (snd p)) -> mem' a = mem0 a) /\
      (forall p, p ∈ l -> mem' (address v (fst p) (snd p))
                          = mem (address rhs (fst p) (snd p))).
Proof.
  intros Hwf Hwf' Hrows Hcols Hdis.
  induction l as [|[i j] l IH]; intros Hl mem0 Hrhs.
  - exists mem0. split; [reflexivity|]. split; [reflexivity|].
    intros p Hp. inversion Hp.
  - destruct (Hl (i, j) (list_elem_of_here _ _)) as [Hi Hj]. cbn [fst snd] in Hi, Hj.
    cbn [foldl fst snd]. unfold assign_element at 2. unfold get, set.
    rewrite (at_address rhs i j Hwf') by lia.
    rewrite (at_address v i j Hwf Hi Hj).
    set (mem1 := fun b => if b =? address v i j then mem0 (address rhs i j) else mem0 b).
    destruct (IH (fun p Hp => Hl p (list_elem_of_further _ _ _ Hp)) mem1)
      as (mem' & Hrun & Hframe & Hcopy).
    { intros i' j' Hi' Hj'. unfold mem1.
      destruct (Z.eqb_spec (address rhs i' j') (address v i j)) as [Heq|]; [|auto].
      exfalso. now apply (Hdis i j i' j'). }
    exists mem'. split; [exact Hrun|]. split.
    + intros a Ha. rewrite Hframe.
      * unfold mem1. destruct (Z.eqb_spec a (address v i j)) as [->|]; [|reflexivity].
        now destruct (Ha (i, j) (list_elem_of_here _ _)).
      * intros p Hp. apply Ha. now apply list_elem_of_further.
    + intros p Hp. apply elem_of_cons in Hp as [->|Hp]; [|now apply Hcopy].
      cbn [fst snd]. destruct (decide ((i, j) ∈ l)) as [Hin|Hnin];
        [exact (Hcopy (i, j) Hin)|].
      rewrite Hframe.
      * unfold mem1. rewrite Z.eqb_refl. apply Hrhs; lia.
      * intros [i' j'] Hp Heq. cbn [fst snd] in Heq.
        destruct (Hl (i', j') (list_elem_of_further _ _ _ Hp)) as [Hi' Hj'].
        cbn [fst snd] in Hi', Hj'.
        apply address_injective in Heq as [-> ->]; try assumption; try lia.
        contradiction.
Qed.

(** [operator=]: views of different sizes fail the assertion; between views
    of equal sizes that share no element, every element of the target ends
    up holding the source's element, the source is unchanged, and so is the
    store outside the target. *)
Theorem assign_copies (T : Type) (mem : store T) (v rhs : MatrixView) :
  wf v -> wf rhs ->
  (nrRows v <> nrRows rhs \/ nrCols v <> nrCols rhs -> assign mem v rhs = None) /\
  (nrRows v = nrRows rhs -> nrCols v = nrCols rhs -> disjoint v rhs ->
   exists mem', assign mem v rhs = Some mem' /\
     (forall i j, 0 <= i < nrRows v -> 0 <= j < nrCols v ->
        get mem' v i j = get mem rhs i j /\ get mem' rhs i j = get mem rhs i j) /\
     (forall a, (forall i j, 0 <= i < nrRows v -> 0 <= j < nrCols v ->
                   a <> address v i j) -> mem' a = mem a)).
Proof.
  intros Hwf Hwf'. split.
  - intros Hne. unfold assign, assign_asserts.
    destruct (Z.eqb_spec (nrCols v) (nrCols rhs)); [|reflexivity].
    destruct (Z.eqb_spec (nrRows v) (nrRows rhs)); [|reflexivity]. lia.
  - intros Hrows Hcols Hdis. rewrite assign_elements.
    replace (assign_asserts v rhs) with true
      by (unfold assign_asserts; now rewrite Hrows, Hcols, !Z.eqb_refl).
    destruct (assign_list T mem v rhs (elements v) Hwf Hwf' Hrows Hcols Hdis)
      with (mem0 := mem) as (mem' & Hrun & Hframe & Hcopy).
    { intros [i j] Hp. now apply elem_of_elements in Hp. }
    { reflexivity. }
    exists mem'. split; [exact Hrun|]. split.
    + intros i j Hi Hj. unfold get.
      rewrite (at_address v i j Hwf Hi Hj), (at_address rhs i j Hwf') by lia.
      split; f_equal.
      * apply (Hcopy (i, j)). now apply elem_of_elements.
      * apply Hframe. intros [i' j'] Hp Heq. apply elem_of_elements in Hp as [Hi' Hj'].
        cbn [fst snd] in Heq. symmetry in Heq. revert Heq. apply Hdis; lia.
    + intros a Ha. apply Hframe. intros [i j] Hp. apply elem_of_elements in Hp as [Hi Hj].
      now apply Ha.
Qed.

Lemma assign_copies_witness :
  let v := mkView 0 2 (2, 2) in
  let rhs := mkView 10 3 (2, 2) in
  let mem := fun a : Z => a in
  exists mem', assign mem v rhs = Some mem' /\
    get mem' v 1 1 = Some 14 /\ mem' 4 = 4.
Proof.
  intros v rhs mem.
  assert (Hwf : wf v) by (unfold wf, Int.INT_MAX; cbn; lia).
  assert (Hwf' : wf rhs) by (unfold wf, Int.INT_MAX; cbn; lia).
  assert (Hdis : disjoint v rhs).
  { unfold disjoint, address. cbn. intros. lia. }
  destruct (proj2 (assign_copies Z mem v rhs Hwf Hwf') eq_refl eq_refl Hdis)
    as (mem' & Hrun & Hcopy & Hframe).
  exists mem'. split; [exact Hrun|]. split.
  - rewrite (proj1 (Hcopy 1 1 ltac:(cbn; lia) ltac:(cbn; lia))). reflexivity.
  - apply Hframe. unfold address. cbn. intros. lia.
Defined.

Lemma foldl_none {A B : Type} (f : option A -> B -> option A) (l : list B) :
  (forall x, f None x = None) -> foldl f None l = None.
Proof. intros Hf. induction l as [|x l IH]; cbn; [reflexivity|]. now rewrite Hf. Qed.

Lemma foldl_fails {A B : Type} (f : option A -> B -> option A) (l : list B) (x : B) :
  (forall y, f None y = None) -> (forall o, f (Some o) x = None) -> x ∈ l ->
  forall o, foldl f o l = None.
Proof.
  intros Hnone Hx. induction l as [|y l IH]; intros Hin o; [inversion Hin|].
  cbn. destruct o as [o|]; [|rewrite Hnone; now apply foldl_none].
  apply elem_of_cons in Hin as [<-|Hin]; [|now apply IH].
  rewrite Hx. now apply foldl_none.
Qed.

Lemma print_line_none (T : Type) (mem : store T) (v : MatrixView) (j : Z) :
  print_line mem v j None = None.
Proof. unfold print_line. now rewrite foldl_none. Qed.

Lemma print_line_ok (T : Type) (mem : store T) (v : MatrixView) (j : Z)
  (o : list (item T)) :
  wf v -> 0 <= j < nrCols v ->
  print_line mem v j (Some o)
  = Some (o ++ (range (nrRows v) ≫= fun i => [Value (mem (address v i j)); Text tab])
            ++ [Text endl]).
Proof.
  intros Hwf Hj. unfold print_line.
  assert (Hloop : forall l o, (forall i, i ∈ l -> 0 <= i < nrRows v) ->
            foldl (fun out i => print_element mem v j i out) (Some o) l
            = Some (o ++ (l ≫= fun i => [Value (mem (address v i j)); Text tab]))).
  { induction l as [|i l IH]; intros o' Hl.
    - cbn. now rewrite app_nil_r.
    - cbn [foldl]. unfold print_element at 2. unfold get.
      rewrite (at_address v i j Hwf (Hl i (list_elem_of_here _ _)) Hj).
      rewrite IH by (intros i' Hi'; apply Hl; now apply list_elem_of_further).
      rewrite bind_cons, <- app_assoc. reflexivity. }
  rewrite Hloop by (intros i Hi; now apply elem_of_range). now rewrite <- app_assoc.
Qed.

(** [print] runs both loops up to [nrRows()]: on a view with fewer columns
    than rows it reaches a column that does not exist and fails the
    assertion of the element access; otherwise it prints, after the two
    header lines, the leading [rows x rows] block, line [j] listing column
    [j] of the view. *)
Theorem print_square_block (T : Type) (mem : store T) (v : MatrixView)
  (out : list (item T)) :
  wf v ->
  (nrCols v < nrRows v -> print mem v out = None) /\
  (nrRows v <= nrCols v ->
   print mem v out
   = Some (out ++ header v
           ++ (range (nrRows v) ≫= fun j =>
                 (range (nrRows v) ≫= fun i => [Value (mem (address v i j)); Text tab])
                 ++ [Text endl])
           ++ [Text endl; Text endl])).
Proof.
  intros Hwf. pose proof Hwf as (Hr & Hc & _). split.
  - intros Hlt. unfold print.
    rewrite (foldl_fails (fun out j => print_line mem v j out) _ (nrCols v));
      [reflexivity|apply print_line_none| |apply elem_of_range; lia].
    intros o. unfold print_line.
    rewrite (foldl_fails (fun out i => print_element mem v (nrCols v) i out) _ 0);
      [reflexivity|reflexivity| |apply elem_of_range; lia].
    intros o'. unfold print_element, get, at_, access_asserts.
    replace (nrCols v <? snd (size_ v)) with false by (symmetry; apply Z.ltb_irrefl).
    now rewrite !andb_false_r.
  - intros Hle. unfold print.
    assert (Hloop : forall l o, (forall j, j ∈ l -> 0 <= j < nrCols v) ->
              foldl (fun out j => print_line mem v j out) (Some o) l
              = Some (o ++ (l ≫= fun j =>
                        (range (nrRows v) ≫= fun i =>
                           [Value (mem (address v i j)); Text tab]) ++ [Text endl]))).
    { induction l as [|j l IH]; intros o Hl.
      - cbn. now rewrite app_nil_r.
      - cbn [foldl]. rewrite (print_line_ok T mem v j o Hwf (Hl j (list_elem_of_here _ _))).
        rewrite IH by (intros j' Hj'; apply Hl; now apply list_elem_of_further).
        rewrite bind_cons, <- !app_assoc. reflexivity. }
    rewrite Hloop by (intros j Hj; apply elem_of_range in Hj; lia).
    now rewrite <- !app_assoc.
Qed.

Lemma print_square_block_witness :
  print (fun a : Z => a) (mkView 0 2 (2, 1)) [] = None /\
  print (fun a : Z => a) (mkView 0 2 (2, 2)) []
  = Some (header (mkView 0 2 (2, 2))
          ++ [Value 0; Text tab; Value 1; Text tab; Text endl;
              Value 2; Text tab; Value 3; Text tab; Text endl]
          ++ [Text endl; Text endl]).
Proof.
  split.
  - apply (print_square_block Z (fun a => a) (mkView 0 2 (2, 1)) []);
      [unfold wf, Int.INT_MAX; cbn; lia|cbn; lia].
  - rewrite (proj2 (print_square_block Z (fun a => a) (mkView 0 2 (2, 2)) []
                      ltac:(unfold wf, Int.INT_MAX; cbn; lia)) ltac:(cbn; lia)).
    reflexivity.
Defined.

Lemma sub_asserts_plain (mat : MatrixView) (oi oj ni nj : Z) :
  Int.is_int (ni + oi) -> Int.is_int (nj + oj) ->
  sub_asserts mat oi oj ni nj = (ni + oi <=? nrRows mat) && (nj + oj <=? nrCols mat).
Proof. intros Hi Hj. unfold sub_asserts, Int.add. now rewrite !wrap_id. Qed.

(** A view of a view is the view of the parent at the sum of the offsets,
    and a view taken inside the bounds of a well-formed parent is
    well-formed. *)
Theorem sub_view_nested (mat : MatrixView) (oi oj ni nj oi' oj' ni' nj' : Z) :
  wf mat ->
  0 <= oi -> 0 <= oj -> 0 <= ni -> 0 <= nj ->
  ni + oi <= nrRows mat -> nj + oj <= nrCols mat ->
  0 <= oi' -> 0 <= oj' -> 0 <= ni' -> 0 <= nj' ->
  ni' + oi' <= ni -> nj' + oj' <= nj ->
  exists v1 v2,
    of_matrix_sub mat oi oj ni nj = Some v1 /\ wf v1 /\
    of_matrix_sub v1 oi' oj' ni' nj' = Some v2 /\
    of_matrix_sub mat (oi + oi') (oj + oj') ni' nj' = Some v2.
Proof.
  intros Hwf Hoi Hoj Hni Hnj Hfi Hfj Hoi' Hoj' Hni' Hnj' Hfi' Hfj'.
  pose proof Hwf as (Hr & Hc & Hld & Hsz).
  assert (Hwf1 : wf (mkView (ptr_ mat + ldm_ mat * oj + oi) (ldm_ mat) (ni, nj))).
  { unfold wf. cbn [nrRows nrCols size_ fst snd ldm_].
    repeat split; try lia. assert (ldm_ mat * nj <= ldm_ mat * nrCols mat) by nia. lia. }
  exists (mkView (ptr_ mat + ldm_ mat * oj + oi) (ldm_ mat) (ni, nj)),
         (mkView (ptr_ mat + ldm_ mat * (oj + oj') + (oi + oi')) (ldm_ mat) (ni', nj')).
  split; [|split; [exact Hwf1|split]].
  - unfold of_matrix_sub. rewrite (ptr_valid mat oi oj Hwf) by lia.
    rewrite sub_asserts_plain by (apply int_bounds; lia).
    replace (ni + oi <=? nrRows mat) with true by (symmetry; apply Z.leb_le; lia).
    replace (nj + oj <=? nrCols mat) with true by (symmetry; apply Z.leb_le; lia).
    reflexivity.
  - unfold of_matrix_sub. rewrite (ptr_valid _ oi' oj' Hwf1)
      by (cbn [nrRows nrCols size_ fst snd]; lia).
    rewrite sub_asserts_plain by (apply int_bounds; lia).
    cbn [nrRows nrCols size_ fst snd ptr_ ldm_ leadingDimension].
    replace (ni' + oi' <=? ni) with true by (symmetry; apply Z.leb_le; lia).
    replace (nj' + oj' <=? nj) with true by (symmetry; apply Z.leb_le; lia).
    cbn [andb]. do 2 f_equal. lia.
  - unfold of_matrix_sub. rewrite (ptr_valid mat (oi + oi') (oj + oj') Hwf) by lia.
    rewrite sub_asserts_plain by (apply int_bounds; lia).
    replace (ni' + (oi + oi') <=? nrRows mat) with true by (symmetry; apply Z.leb_le; lia).
    replace (nj' + (oj + oj') <=? nrCols mat) with true by (symmetry; apply Z.leb_le; lia).
    reflexivity.
Qed.

Lemma sub_view_nested_witness :
  let mat := mkView 0 4 (4, 5) in
  exists v1 v2,
    of_matrix_sub mat 1 1 3 4 = Some v1 /\ wf v1 /\
    of_matrix_sub v1 1 2 2 2 = Some v2 /\
    of_matrix_sub mat 2 3 2 2 = Some v2.
Proof.
  intros mat.
  apply (sub_view_nested mat 1 1 3 4 1 2 2 2);
    try (unfold wf, Int.INT_MAX; cbn; lia).
Defined.

(** The offsets the two-offset constructor accepts, and the view it builds:
    the delegate requires [0 <= offset_i <= rows] and [0 <= offset_j <= cols],
    the body [offset_i < cols] and [offset_j < rows]. *)
Theorem of_matrix_offset_spec (mat : MatrixView) (oi oj : Z) :
  wf mat ->
  of_matrix_offset mat oi oj =
  if decide ((0 <= oi <= nrRows mat /\ oi < nrCols mat) /\
             (0 <= oj <= nrCols mat /\ oj < nrRows mat))
  then Some (mkView (ptr_ mat + ldm_ mat * oj + oi) (ldm_ mat)
               (nrRows mat - oi, nrCols mat - oj))
  else None.
Proof.
  intros Hwf. pose proof Hwf as (Hr & Hc & Hld & Hsz).
  unfold of_matrix_offset, of_matrix_sub.
  destruct (ptr_asserts mat oi oj) eqn:Hptr.
  - apply ptr_asserts_spec in Hptr as [Hi Hj].
    rewrite (ptr_valid mat oi oj Hwf Hi Hj).
    assert (Hsi : Int.sub (nrRows mat) oi = nrRows mat - oi).
    { unfold Int.sub. apply wrap_id, int_bounds. lia. }
    assert (Hsj : Int.sub (nrCols mat) oj = nrCols mat - oj).
    { unfold Int.sub. apply wrap_id, int_bounds. lia. }
    rewrite Hsi, Hsj. rewrite sub_asserts_plain by (apply int_bounds; lia).
    replace (nrRows mat - oi + oi <=? nrRows mat) with true
      by (symmetry; apply Z.leb_le; lia).
    replace (nrCols mat - oj + oj <=? nrCols mat) with true
      by (symmetry; apply Z.leb_le; lia).
    cbn [andb]. unfold leadingDimension.
    destruct (offset_asserts mat oi oj) eqn:Hoff.
    + apply offset_asserts_spec in Hoff. rewrite decide_True by lia. reflexivity.
    + rewrite decide_False; [reflexivity|]. intros [[_ H1] [_ H2]].
      assert (offset_asserts mat oi oj = true) by (apply offset_asserts_spec; lia).
      congruence.
  - unfold ptr. rewrite Hptr. rewrite decide_False; [reflexivity|].
    intros [[H1 _] [H2 _]].
    assert (ptr_asserts mat oi oj = true) by (apply ptr_asserts_spec; lia).
    congruence.
Qed.

Lemma of_matrix_offset_spec_witness :
  of_matrix_offset (mkView 0 4 (4, 5)) 1 2 = Some (mkView 9 4 (3, 3)) /\
  of_matrix_offset (mkView 0 4 (4, 5)) 0 4 = None.
Proof.
  assert (Hwf : wf (mkView 0 4 (4, 5))) by (unfold wf, Int.INT_MAX; cbn; lia).
  split.
  - rewrite (of_matrix_offset_spec (mkView 0 4 (4, 5)) 1 2 Hwf). reflexivity.
  - rewrite (of_matrix_offset_spec (mkView 0 4 (4, 5)) 0 4 Hwf). reflexivity.
Defined.

End MatrixViewOperations.

(** ** The dispatch loop, the loop with the shared counter, the snapshots *)

Section SolverOperations.
Import Solver Snapshot Dispatch.
Local Open Scope Z_scope.

Lemma dispatch_jobs (tasks : list string) (i : Z) (futures : list job) :
  dispatch tasks i futures =
  if forallb known_task tasks
  then Ok (futures ++ imap (fun k task => job_of (i + Z.of_nat k) task) tasks)
  else Throw (logic_error "Thread task is undefined.").
Proof.
  revert i futures. induction tasks as [|task rest IH]; intros i futures.
  - cbn. now rewrite app_nil_r.
  - cbn [dispatch forallb imap]. unfold known_task at 1, job_of at 1.
    rewrite Z.add_0_r.
    assert (Hshift : imap ((fun k task => job_of (i + Z.of_nat k) task) ∘ S) rest
                     = imap (fun k task => job_of (i + 1 + Z.of_nat k) task) rest).
    { apply imap_ext. intros k t _. cbn. f_equal. lia. }
    rewrite Hshift.
    destruct (String.eqb task "walker");
      [|destruct (String.eqb task "accumulator");
        [|destruct (String.eqb task "walker and accumulator")]];
      cbn [orb andb]; try reflexivity;
      rewrite IH; destruct (forallb known_task rest); try reflexivity;
      now rewrite <- app_assoc.
Qed.

(** [integrate] enqueues one job per entry of the task table, in the order
    of the table, entry [i] with argument [i] and the start routine its
    string names; it throws [std::logic_error] exactly when some entry is
    none of the three strings. *)
Theorem integrate_dispatch_jobs (tasks : list string) :
  integrate_dispatch tasks =
  if forallb known_task tasks
  then Ok (imap (fun k task => job_of (Z.of_nat k) task) tasks)
  else Throw (logic_error "Thread task is undefined.").
Proof. unfold integrate_dispatch. rewrite dispatch_jobs. reflexivity. Qed.




Lemma assoc_remove_key_ne {A : Type} (k k' : string) (l : list (string * A)) :
  k' <> k -> assoc k' (remove_key k l) = assoc k' l.
Proof.
  intros Hne. unfold remove_key. induction l as [|[k0 v] l IH]; [reflexivity|].
  cbn [filter list_filter assoc fst]. unfold filter in *. cbn [list_filter].
  destruct (String.eqb_spec k0 k) as [->|Hk0]; cbn [negb].
  - rewrite decide_False by (intros []). rewrite IH.
    destruct (String.eqb_spec k k'); [congruence|reflexivity].
  - rewrite decide_True by exact I. cbn [assoc]. now rewrite IH.
Qed.

Lemma configuration_key_inj (i j : Z) :
  configuration_key i = configuration_key j -> i = j.
Proof.
  unfold configuration_key. intros Heq.
  apply (inj (String.app "configuration_")) in Heq. now apply (inj pretty) in Heq.
Qed.

Lemma write_slots_stores (path : string) (slots : list Buffer) :
  forall (i : Z) (fs0 : FileSystem) (arch : Archive),
    assoc path (files fs0) = Some arch ->
    exists fs' arch',
      write_slots path i slots fs0 = (fs', None) /\
      assoc path (files fs') = Some arch' /\
      creatable fs' = creatable fs0 /\
      (forall path', path' <> path -> assoc path' (files fs') = assoc path' (files fs0)) /\
      (forall k buf, slots !! k = Some buf ->
         assoc (configuration_key (i + Z.of_nat k)) arch' = Some buf) /\
      (forall key, (forall k, (k < length slots)%nat ->
                      key <> configuration_key (i + Z.of_nat k)) ->
         assoc key arch' = assoc key arch).
Proof.
  induction slots as [|buf rest IH]; intros i fs0 arch Hpath.
  - exists fs0, arch. cbn. repeat split; auto. intros k buf Hk. discriminate.
  - cbn [write_slots]. unfold execute. rewrite Hpath.
    set (arch1 := (configuration_key i, buf) :: remove_key (configuration_key i) arch).
    set (fs1 := mkFS ((path, arch1) :: remove_key path (files fs0)) (creatable fs0)).
    assert (Hpath1 : assoc path (files fs1) = Some arch1).
    { cbn. now rewrite String.eqb_refl. }
    destruct (IH (i + 1) fs1 arch1 Hpath1)
      as (fs' & arch' & Hrun & Hp' & Hcr & Hother & Hstored & Hframe).
    exists fs', arch'. rewrite Hrun. repeat split; auto.
    + intros path' Hne. rewrite (Hother path' Hne). cbn.
      destruct (String.eqb_spec path path'); [congruence|].
      now apply assoc_remove_key_ne.
    + intros [|k] b Hk.
      * injection Hk as ->. rewrite Hframe.
        -- rewrite Z.add_0_r. cbn. now rewrite String.eqb_refl.
        -- intros k _ Heq. apply configuration_key_inj in Heq. lia.
      * rewrite <- (Hstored k b Hk). f_equal. f_equal. lia.
    + intros key Hkey. rewrite Hframe.
      * cbn. destruct (String.eqb_spec (configuration_key i) key) as [<-|Hne].
        -- exfalso. apply (Hkey 0%nat); [cbn; lia|]. now rewrite Z.add_0_r.
        -- now apply assoc_remove_key_ne.
      * intros k Hk. replace (i + 1 + Z.of_nat k) with (i + Z.of_nat (S k)) by lia.
        apply Hkey. cbn. lia.
Qed.

(** [writeConfigurations] never changes the slots of [config_dump_]; with
    no write directory it does nothing; when the archive can be created it
    logs nothing and the archive [<dir>/process_<id>.hdf5] holds the buffer of
    every walker [i] under the key [configuration_<i>], the archives at other
    paths being untouched; when it cannot, the file system is unchanged and
    one message is logged. *)
Theorem writeConfigurations_outcome (p : Parameters) (c : Concurrency) (w : World) :
  let path := process_file (get_directory_config_write p) c in
  let w' := writeConfigurations p c w in
  config_dump w' = config_dump w /\
  (get_directory_config_write p = ""%string -> w' = w) /\
  (get_directory_config_write p <> ""%string -> creatable (fs w) path = true ->
   cerr w' = cerr w /\
   (forall path', path' <> path ->
      assoc path' (files (fs w')) = assoc path' (files (fs w))) /\
   exists arch, assoc path (files (fs w')) = Some arch /\
     (forall (i : nat) buf, config_dump w !! i = Some buf ->
        assoc (configuration_key (Z.of_nat i)) arch = Some buf) /\
     (forall key, (forall i : nat, (i < length (config_dump w))%nat ->
                     key <> configuration_key (Z.of_nat i)) ->
        assoc key arch = None)) /\
  (get_directory_config_write p <> ""%string -> creatable (fs w) path = false ->
   fs w' = fs w /\ length (cerr w') = S (length (cerr w))).
Proof.
  intros path w'. subst w'. unfold writeConfigurations.
  destruct (String.eqb_spec (get_directory_config_write p) "") as [Hempty|Hdir].
  { repeat split; try contradiction; auto. }
  unfold try_block, open_file. fold path.
  destruct (creatable (fs w) path) eqn:Hcr.
  - set (fs1 := mkFS ((path, []) :: remove_key path (files (fs w))) (creatable (fs w))).
    assert (Hpath1 : assoc path (files fs1) = Some []).
    { cbn. now rewrite String.eqb_refl. }
    destruct (write_slots_stores path (config_dump w) 0 fs1 [] Hpath1)
      as (fs' & arch' & Hrun & Hp' & _ & Hother & Hstored & Hframe).
    rewrite Hrun. cbn [config_dump fs cerr].
    split; [reflexivity|]. split; [contradiction|]. split; [|discriminate].
    intros _ _. split; [reflexivity|]. split.
    + intros path' Hne. rewrite (Hother path' Hne). cbn.
      destruct (String.eqb_spec path path'); [congruence|].
      now apply assoc_remove_key_ne.
    + exists arch'. split; [exact Hp'|]. split.
      * intros i buf Hi. exact (Hstored i buf Hi).
      * intros key Hkey. rewrite Hframe; [reflexivity|]. exact Hkey.
  - cbn [config_dump fs cerr].
    split; [reflexivity|]. split; [contradiction|]. split; [discriminate|].
    intros _ _. split; [reflexivity|]. rewrite length_app. cbn. lia.
Qed.

Lemma writeConfigurations_outcome_witness :
  let p := mkParameters 2 1 false 0 10 true "" "out" in
  let c := mkConcurrency 3 0 4 in
  let w := mkWorld (mkFS [] (fun _ => true)) [[1; 2]; [3]] [] in
  exists arch,
    assoc "out/process_3.hdf5" (files (fs (writeConfigurations p c w))) = Some arch /\
    assoc "configuration_0" arch = Some [1; 2] /\
    assoc "configuration_1" arch = Some [3].
Proof.
  intros p c w.
  destruct (writeConfigurations_outcome p c w) as (_ & _ & Hok & _).
  destruct (Hok ltac:(discriminate) eq_refl) as (_ & _ & arch & Ha & Hs & _).
  exists arch. split; [exact Ha|]. split.
  - exact (Hs 0%nat [1; 2] eq_refl).
  - exact (Hs 1%nat [3] eq_refl).
Defined.

(** [readConfigurations] never fills a slot: each slot is left as it was or
    all are emptied.  With a read directory configured its effect does not
    depend on which directory that is, and, when a write directory is
    configured and its archive can be created, it is the effect of
    [writeConfigurations]. *)
Theorem readConfigurations_never_reads (p : Parameters) (c : Concurrency) (w : World) :
  (config_dump (readConfigurations p c w) = config_dump w \/
   config_dump (readConfigurations p c w) = map (fun _ => []) (config_dump w)) /\
  (get_directory_config_read p = ""%string -> readConfigurations p c w = w) /\
  (get_directory_config_read p <> ""%string ->
   forall dir, dir <> ""%string ->
     readConfigurations
       (mkParameters (get_walkers p) (get_accumulators p)
          (shared_walk_and_accumulation_thread p) (get_warm_up_sweeps p)
          (get_measurements p) (fix_meas_per_walker p) dir
          (get_directory_config_write p)) c w
     = readConfigurations p c w) /\
  (get_directory_config_read p <> ""%string ->
   get_directory_config_write p <> ""%string ->
   creatable (fs w) (process_file (get_directory_config_write p) c) = true ->
   readConfigurations p c w = writeConfigurations p c w).
Proof.
  split; [apply readConfigurations_slots|]. split; [|split].
  - intros Hempty. unfold readConfigurations. now rewrite Hempty.
  - intros Hread dir Hdir. now apply readConfigurations_ignores_read_directory.
  - intros Hread Hwrite Hcr. unfold readConfigurations, writeConfigurations.
    destruct (String.eqb_spec (get_directory_config_read p) ""); [contradiction|].
    destruct (String.eqb_spec (get_directory_config_write p) ""); [contradiction|].
    unfold try_block, open_file. rewrite Hcr.
    set (path := process_file (get_directory_config_write p) c).
    set (fs1 := mkFS ((path, []) :: remove_key path (files (fs w))) (creatable (fs w))).
    assert (Hpath1 : assoc path (files fs1) = Some []).
    { cbn. now rewrite String.eqb_refl. }
    destruct (write_slots_stores path (config_dump w) 0 fs1 [] Hpath1)
      as (fs' & arch' & Hrun & _).
    now rewrite Hrun.
Qed.

Lemma readConfigurations_never_reads_witness :
  let p := mkParameters 2 1 false 0 10 true "in" "out" in
  let c := mkConcurrency 0 0 1 in
  let w := mkWorld (mkFS [] (fun _ => true)) [[1]; [2]] [] in
  readConfigurations p c w = writeConfigurations p c w /\
  config_dump (readConfigurations p c w) = [[1]; [2]].
Proof.
  intros p c w.
  destruct (readConfigurations_never_reads p c w) as (_ & _ & _ & Hsame).
  split; [|reflexivity].
  exact (Hsame ltac:(discriminate) ltac:(discriminate) eq_refl).
Defined.

End SolverOperations.

(** ** Residuals and fixed points of the passes over one domain *)

Section OneDomainResiduals.
Import Symmetrize.
Context {K : Type} `{ScalarLaws K}.
Variable mag : K -> Qc.

(** A loop that carries a function and a running maximum: the maximum taken
    in iteration [i] is that of the function as the first [i] iterations
    left it. *)
Lemma for_range_snd (n : nat) (body : nat -> func nat K * Qc -> func nat K * Qc)
  (step : nat -> func nat K -> func nat K) (r : nat -> func nat K -> Qc)
  (f : func nat K) (m0 : Qc) :
  (forall i s, body i s = (step i (fst s), Qcmax (snd s) (r i (fst s)))) ->
  snd (for_range n body (f, m0))
  = for_range n (fun i m => Qcmax m (r i (for_range i step f))) m0.
Proof.
  intros Hbody. induction n as [|n IH]; [reflexivity|].
  rewrite !for_range_S, Hbody. cbn [snd]. rewrite IH. f_equal. f_equal.
  rewrite (for_range_fst n body step (f, m0)); [reflexivity|].
  intros i s. now rewrite Hbody.
Qed.

Lemma execute_t_residual (Nt : nat) (f : func nat K) :
  snd (execute_t mag Nt f)
  = for_range (Nt / 2)
      (fun i m => Qcmax m (mag (shalf (splus (f i) (f (i + Nt / 2)))))) 0%Qc.
Proof.
  unfold execute_t.
  rewrite (for_range_snd _ _
             (fun i f => fst (execute_t_body mag (Nt / 2) i (f, 0%Qc)))
             (fun i f => mag (shalf (splus (f i) (f (i + Nt / 2))))))
    by reflexivity.
  apply for_range_ext. intros i m Hi. f_equal. f_equal. f_equal.
  assert (Hread : forall k, (if decide (k < Nt / 2) then k else k - Nt / 2) = i ->
            for_range i (fun i f => fst (execute_t_body mag (Nt / 2) i (f, 0%Qc))) f k
            = f k).
  { intros k Hk.
    rewrite (for_range_blocks (fun k => if decide (k < Nt / 2) then k else k - Nt / 2))
      by (intros j Hj; apply execute_t_body_local; lia).
    rewrite Hk. now rewrite decide_False by lia. }
  rewrite !Hread; [reflexivity| |].
  - rewrite decide_False by lia. lia.
  - now rewrite decide_True by lia.
Qed.

Lemma execute_w_residual (Nw : nat) (f : func nat K) :
  snd (execute_w mag Nw f)
  = for_range (Nw / 2)
      (fun i m => Qcmax m (mag (shalf (sminus (f i) (sconj (f (Nw - i - 1))))))) 0%Qc.
Proof.
  assert (Hn : Nw / 2 + Nw / 2 <= Nw).
  { pose proof (Nat.div_mod_eq Nw 2). lia. }
  unfold execute_w.
  rewrite (for_range_snd _ _
             (fun i f => fst (mirror_body mag Nw i (f, 0%Qc)))
             (fun i f => mag (shalf (sminus (f i) (sconj (f (Nw - i - 1)))))))
    by reflexivity.
  apply for_range_ext. intros i m Hi. f_equal. f_equal. f_equal.
  assert (Hread : forall k,
            (if decide (k < Nw / 2) then k
             else if decide (k < Nw) then Nw - 1 - k else Nw) = i ->
            for_range i (fun i f => fst (mirror_body mag Nw i (f, 0%Qc))) f k = f k).
  { intros k Hk.
    rewrite (for_range_blocks
               (fun k => if decide (k < Nw / 2) then k
                         else if decide (k < Nw) then Nw - 1 - k else Nw))
      by (intros j Hj; apply mirror_body_local; lia).
    rewrite Hk. now rewrite decide_False by lia. }
  rewrite !Hread; [reflexivity| |].
  - rewrite decide_False by lia. rewrite decide_True by lia. lia.
  - now rewrite decide_True by lia.
Qed.

Lemma max_of_zeros (n : nat) (r : nat -> Qc) :
  (forall i, i < n -> r i = 0%Qc) ->
  for_range n (fun i m => Qcmax m (r i)) 0%Qc = 0%Qc.
Proof.
  intros Hr. induction n as [|n IH]; [reflexivity|].
  rewrite for_range_S, IH by (intros i Hi; apply Hr; lia).
  rewrite Hr by lia. unfold Qcmax. now destruct (Qclt_le_dec 0 0).
Qed.

End OneDomainResiduals.

Section OneDomainExtras.
Import Symmetrize.

(** The residual a pass over one domain hands to [difference] is the
    maximum, over the pairs of entries the pass couples, of the magnitude of
    the part it removes, computed from the entries as they were before the
    pass; entries outside the coupled pairs (the last entry of a time domain
    of odd size, the middle entry of a frequency domain of odd size) are not
    written. *)
Theorem one_domain_residuals {K : Type} `{Scalar K} (mag : K -> Qc)
  (N : nat) (f : func nat K) :
  snd (execute_t mag N f)
  = for_range (N / 2)
      (fun i m => Qcmax m (mag (shalf (splus (f i) (f (i + N / 2)))))) 0%Qc /\
  snd (execute_w mag N f)
  = for_range (N / 2)
      (fun i m => Qcmax m (mag (shalf (sminus (f i) (sconj (f (N - i - 1))))))) 0%Qc /\
  (forall k, N / 2 + N / 2 <= k -> fst (execute_t mag N f) k = f k) /\
  (forall k, N / 2 <= k -> ~ (N - N / 2 <= k < N) -> fst (execute_w mag N f) k = f k).
Proof.
  split; [apply execute_t_residual|]. split; [apply execute_w_residual|]. split.
  - intros k Hk. rewrite execute_t_closed. now rewrite !decide_False by lia.
  - intros k Hk Hk'. unfold execute_w. rewrite mirror_closed.
    rewrite decide_False by lia. now rewrite decide_False by assumption.
Qed.

End OneDomainExtras.

(** ** What the passes establish *)

Section PassOutputs.
Import Solver Symmetrize.

(** A function that already has the symmetry of a pass over one domain is
    left unchanged by it, and the residual is zero when the magnitude of a
    vanishing half-difference is. *)
Theorem symmetric_input_unchanged {K : Type} `{ScalarLaws K} (mag : K -> Qc)
  (N : nat) (f : func nat K) :
  ((forall i, i < N / 2 -> f (i + N / 2) = sneg (f i)) ->
   (forall k, fst (execute_t mag N f) k = f k) /\
   (mag (shalf s0) = 0%Qc -> snd (execute_t mag N f) = 0%Qc)) /\
  ((forall i, i < N / 2 -> f (N - 1 - i) = sconj (f i)) ->
   (forall k, fst (execute_w mag N f) k = f k) /\
   ((forall x, mag (shalf (sminus x x)) = 0%Qc) -> snd (execute_w mag N f) = 0%Qc)).
Proof.
  assert (Hn : N / 2 + N / 2 <= N).
  { pose proof (Nat.div_mod_eq N 2). lia. }
  split; intros Hsym; split.
  - intros k. rewrite execute_t_closed.
    destruct (decide (k < N / 2)) as [Hk|Hk].
    + rewrite (Hsym k Hk). apply shalf_minus_neg.
    + destruct (decide (k < N / 2 + N / 2)) as [Hk2|Hk2]; [|reflexivity].
      pose proof (Hsym (k - N / 2) ltac:(lia)) as Hs.
      replace (k - N / 2 + N / 2) with k in Hs by lia.
      rewrite Hs, shalf_minus_neg. reflexivity.
  - intros Hmag. rewrite execute_t_residual. apply max_of_zeros. intros i Hi.
    now rewrite (Hsym i Hi), splus_sneg.
  - intros k. unfold execute_w. rewrite mirror_closed.
    destruct (decide (k < N / 2)) as [Hk|Hk].
    + rewrite (Hsym k Hk), sconj_sconj. apply shalf_plus_self.
    + destruct (decide (N - N / 2 <= k < N)) as [Hk2|Hk2]; [|reflexivity].
      pose proof (Hsym (N - 1 - k) ltac:(lia)) as Hs.
      replace (N - 1 - (N - 1 - k)) with k in Hs by lia.
      rewrite Hs, sconj_sconj, shalf_plus_self. reflexivity.
  - intros Hmag. rewrite execute_w_residual. apply max_of_zeros. intros i Hi.
    replace (N - i - 1) with (N - 1 - i) by lia.
    now rewrite (Hsym i Hi), sconj_sconj.
Qed.

Lemma symmetric_input_unchanged_witness :
  let f := of_list (map of_Z [1; 2; -1; -2]%Z) in
  (forall k, fst (execute_t Qcabs 4 f) k = f k) /\
  snd (execute_t Qcabs 4 f) = 0%Qc.
Proof.
  intros f.
  assert (Hsym : forall i, i < 4 / 2 -> f (i + 4 / 2) = sneg (f i)).
  { intros i Hi. change (4 / 2) with 2 in *.
    destruct i as [|[|i]]; [| |lia]; apply Qc_is_canon; vm_compute; reflexivity. }
  destruct (proj1 (symmetric_input_unchanged Qcabs 4 f) Hsym) as [Hfix Hres].
  split; [exact Hfix|]. apply Hres. apply Qc_is_canon. vm_compute. reflexivity.
Defined.

(** After the passes over a band pair and a time or a frequency, the
    function has the symmetry of the pass: [f(b0, b1, t) + f(b1, b0, t +
    Nt/2) = 0], and [f(b1, b0, Nw - 1 - w)] is the conjugate of [f(b0, b1,
    w)]. *)
Theorem band_pair_outputs {K : Type} `{ScalarLaws K} (mag : K -> Qc)
  (Nb N : nat) (f : func (nat * nat * nat) K) (b0 b1 i : nat) :
  b0 < Nb -> b1 < Nb -> i < N / 2 ->
  splus (fst (execute_bbt mag Nb N f) (b0, b1, i))
        (fst (execute_bbt mag Nb N f) (b1, b0, i + N / 2)) = s0 /\
  fst (execute_bbw mag Nb N f) (b1, b0, N - 1 - i)
  = sconj (fst (execute_bbw mag Nb N f) (b0, b1, i)).
Proof.
  intros Hb0 Hb1 Hi.
  assert (Hn : N / 2 + N / 2 <= N).
  { pose proof (Nat.div_mod_eq N 2). lia. }
  split.
  - rewrite !execute_bbt_closed.
    repeat case_decide; try (exfalso; lia).
    replace (i + N / 2 - N / 2) with i by lia. apply splus_sneg.
  - rewrite !execute_bbw_closed.
    repeat case_decide; try (exfalso; lia).
    replace (N - 1 - (N - 1 - i)) with i by lia. reflexivity.
Qed.

Lemma band_pair_outputs_witness :
  let g := fun k : nat * nat * nat => of_Z (Z.of_nat (fst (fst k) + 2 * snd k)) in
  splus (fst (execute_bbt Qcabs 2 4 g) (0, 1, 1)) (fst (execute_bbt Qcabs 2 4 g) (1, 0, 3))
  = 0%Qc.
Proof.
  intros g.
  exact (proj1 (band_pair_outputs Qcabs 2 4 g 0 1 1 ltac:(lia) ltac:(lia)
                  ltac:(cbn; lia))).
Defined.

(** After the pass over the electron spin, the entries with opposite spins
    are zero and the two entries with equal spins both hold the mean of the
    two they held before. *)
Theorem spin_outputs {K : Type} `{Scalar K} (Nb N0 N1 : nat) (f : func spin_key K)
  (i j a b : nat) :
  i < Nb -> j < Nb -> a < N0 -> b < N1 ->
  let f' := symmetrize_over_electron_spin Nb N0 N1 f in
  f' (i, 0, j, 1, a, b) = s0 /\ f' (i, 1, j, 0, a, b) = s0 /\
  f' (i, 0, j, 0, a, b) = shalf (splus (f (i, 0, j, 0, a, b)) (f (i, 1, j, 1, a, b))) /\
  f' (i, 1, j, 1, a, b) = f' (i, 0, j, 0, a, b).
Proof.
  intros Hi Hj Ha Hb f'. subst f'. rewrite !spin_closed.
  repeat case_decide; try (exfalso; lia). auto.
Qed.

Lemma spin_outputs_witness :
  let f := fun k : spin_key => of_Z (Z.of_nat (snd (fst (fst (fst (fst k)))))) in
  symmetrize_over_electron_spin 1 1 1 f (0, 0, 0, 1, 0, 0) = 0%Qc /\
  symmetrize_over_electron_spin 1 1 1 f (0, 1, 0, 1, 0, 0)
  = symmetrize_over_electron_spin 1 1 1 f (0, 0, 0, 0, 0, 0).
Proof.
  intros f.
  destruct (spin_outputs 1 1 1 f 0 0 0 0 ltac:(lia) ltac:(lia) ltac:(lia) ltac:(lia))
    as (H1 & _ & _ & H4).
  split; [exact H1|exact H4].
Defined.

End PassOutputs.

Section GroupInvariance.
Import Solver Symmetrize.
Context {K : Type} `{ScalarLaws K}.

(** The average over the operations takes the same value on an entry and
    on its image under any operation. *)
Lemma average_invariant {Key : Type} (act : nat -> Key -> Key) (NS : nat)
  (in_range : Key -> Prop) `{forall k, Decision (in_range k)} (g f : func Key K) :
  orbit_closed act NS in_range ->
  (forall k, g k = if decide (in_range k)
                   then sdiv (for_range NS (fun S_ind acc => splus acc (f (act S_ind k))) s0) NS
                   else f k) ->
  forall S_ind k, S_ind < NS -> in_range k -> g (act S_ind k) = g k.
Proof.
  intros Hclosed Hg S_ind k HS Hk.
  destruct (Hclosed S_ind k HS Hk) as [Hin Hperm].
  rewrite !Hg. rewrite !decide_True by assumption. f_equal.
  unfold for_range. rewrite !sum_as_foldl.
  apply foldl_splus_perm.
  rewrite <- (map_map (fun T => act T (act S_ind k)) f).
  rewrite <- (map_map (fun U => act U k) f).
  now apply Permutation_map.
Qed.

End GroupInvariance.

Section ClusterOutputs.
Import Solver Symmetrize.

(** When the symmetry table describes a group acting on the entries, a
    cluster pass that returns leaves a function that is invariant under
    every operation of the group: the entry at the image of [k] equals the
    entry at [k]. *)
Theorem cluster_outputs_invariant {K : Type} `{ScalarLaws K} (mag : K -> Qc)
  (NS : nat) (sym : symmetry_matrix) :
  (forall Nr f p, orbit_closed (r_action sym) NS (in_range1 Nr) ->
     execute_r mag Nr NS sym f = Ok p ->
     forall S_ind k, S_ind < NS -> k < Nr -> fst p (r_action sym S_ind k) = fst p k) /\
  (forall Nk f p, orbit_closed (r_action sym) NS (in_range1 Nk) ->
     execute_k mag Nk NS sym f = Ok p ->
     forall S_ind k, S_ind < NS -> k < Nk -> fst p (r_action sym S_ind k) = fst p k) /\
  (forall Nb Nr f p, orbit_closed (bbr_action sym) NS (in_range3 Nb Nr) ->
     execute_bbr mag Nb Nr NS sym f = Ok p ->
     forall S_ind k, S_ind < NS -> in_range3 Nb Nr k ->
       fst p (bbr_action sym S_ind k) = fst p k) /\
  (forall Nb Nk f p, orbit_closed (bbk_action sym) NS (in_range3 Nb Nk) ->
     execute_bbk mag Nb Nk NS sym f = Ok p ->
     forall S_ind k, S_ind < NS -> in_range3 Nb Nk k ->
       fst p (bbk_action sym S_ind k) = fst p k).
Proof.
  repeat match goal with |- _ /\ _ => split end.
  - intros Nr f p Hclosed Hp S_ind k HS Hk.
    destruct (execute_r_closed mag Nr NS sym f p Hp) as [_ Hg].
    now apply (average_invariant (r_action sym) NS (in_range1 Nr) (fst p) f).
  - intros Nk f p Hclosed Hp S_ind k HS Hk.
    destruct (execute_k_closed mag Nk NS sym f p Hp) as [_ Hg].
    now apply (average_invariant (r_action sym) NS (in_range1 Nk) (fst p) f).
  - intros Nb Nr f p Hclosed Hp S_ind k HS Hk.
    destruct (execute_bbr_closed mag Nb Nr NS sym f p Hp) as [_ Hg].
    now apply (average_invariant (bbr_action sym) NS (in_range3 Nb Nr) (fst p) f).
  - intros Nb Nk f p Hclosed Hp S_ind k HS Hk.
    pose proof (execute_bbk_closed mag Nb Nk NS sym f p Hp) as Hg.
    now apply (average_invariant (bbk_action sym) NS (in_range3 Nb Nk) (fst p) f).
Qed.

(** The two-site cluster: after the pass the two sites hold the same
    value. *)
Lemma cluster_outputs_invariant_witness :
  let f := of_list (map of_Z [1; 3]%Z) in
  exists p, execute_r Qcabs 2 2 two_site_table f = Ok p /\ fst p 1 = fst p 0.
Proof.
  intros f.
  destruct (execute_r_returns Qcabs 2 2 two_site_table f ltac:(lia)) as [p Hp].
  exists p. split; [exact Hp|].
  exact (proj1 (cluster_outputs_invariant Qcabs 2 two_site_table) 2 f p
           two_site_closed1 Hp 1 0 ltac:(lia) ltac:(lia)).
Defined.

End ClusterOutputs.

(** ** The overloads that symmetrize block by block *)

Section BlockLoops.
Import Solver Symmetrize SymmetrizeBlocks.

Lemma foldl_throw {A X : Type} (g : X -> A -> result A) (l : list X) (e : exception) :
  foldl (fun r x => bind r (g x)) (Throw e) l = Throw e.
Proof. induction l as [|x l IH]; [reflexivity|]. cbn. exact IH. Qed.

(** Two nested loops that may throw visit the pairs of their counters in
    order. *)
Lemma foldl_r_flatten {A X Y : Type} (g : X -> Y -> A -> result A) (h : X -> list Y)
  (l : list X) (r : result A) :
  foldl (fun r x => bind r (fun a => foldl (fun r y => bind r (g x y)) (Ok a) (h x))) r l
  = foldl (fun r p => bind r (g (fst p) (snd p))) r (l ≫= fun x => pair x <$> h x).
Proof.
  revert r. induction l as [|x l IH]; intros r; [reflexivity|].
  rewrite bind_cons, foldl_app. cbn [foldl]. rewrite IH. f_equal.
  rewrite foldl_fmap. cbn [fst snd]. destruct r as [a|e]; [reflexivity|].
  cbn [bind]. now rewrite foldl_throw.
Qed.

(** Loops that assign to the entries of a list of keys. *)
Lemma assign_keys {Key K : Type} `{EqDecision Key} (v : Key -> K) (ks : list Key)
  (t : func Key K) (k0 : Key) :
  foldl (fun t k => upd t k (v k)) t ks k0 = if decide (k0 ∈ ks) then v k0 else t k0.
Proof.
  revert t. induction ks as [|k ks IH]; intros t.
  - cbn. rewrite decide_False; [reflexivity|]. intros Hin. inversion Hin.
  - cbn [foldl]. rewrite IH. destruct (decide (k0 ∈ ks)) as [Hin|Hnin].
    + rewrite decide_True; [reflexivity|]. now apply list_elem_of_further.
    + destruct (decide (k0 = k)) as [->|Hne].
      * rewrite decide_True by apply list_elem_of_here. apply upd_eq.
      * rewrite decide_False.
        -- now apply upd_ne.
        -- intros Hin. apply elem_of_cons in Hin as [?|?]; contradiction.
Qed.

Lemma scatter_keys {Key Sub K : Type} `{EqDecision Key} `{EqDecision Sub}
  (line : Sub -> Key) (v : Sub -> K) (ks : list Sub) :
  (forall k k', k ∈ ks -> k' ∈ ks -> line k = line k' -> k = k') ->
  forall f,
    (forall key, (forall k, k ∈ ks -> key <> line k) ->
       foldl (fun f k => upd f (line k) (v k)) f ks key = f key) /\
    (forall k, k ∈ ks -> foldl (fun f k => upd f (line k) (v k)) f ks (line k) = v k).
Proof.
  induction ks as [|k0 ks IH]; intros Hinj f.
  - split; [reflexivity|]. intros k Hk. inversion Hk.
  - assert (Hinj' : forall k k', k ∈ ks -> k' ∈ ks -> line k = line k' -> k = k').
    { intros k k' Hk Hk'. apply Hinj; now apply list_elem_of_further. }
    destruct (IH Hinj' (upd f (line k0) (v k0))) as [Hframe Hset]. cbn [foldl]. split.
    + intros key Hkey. rewrite Hframe.
      * apply upd_ne. apply Hkey. apply list_elem_of_here.
      * intros k Hk. apply Hkey. now apply list_elem_of_further.
    + intros k Hk. destruct (decide (k ∈ ks)) as [Hin|Hnin]; [now apply Hset|].
      apply elem_of_cons in Hk as [->|Hk]; [|contradiction].
      rewrite Hframe; [apply upd_eq|].
      intros k Hk Heq. apply Hnin. 
      rewrite (Hinj k0 k (list_elem_of_here _ _) (list_elem_of_further _ _ _ Hk) Heq).
      exact Hk.
Qed.

Lemma elem_of_pairs {X Y : Type} (l1 : list X) (l2 : list Y) (x : X) (y : Y) :
  (x, y) ∈ pairs l1 l2 <-> x ∈ l1 /\ y ∈ l2.
Proof.
  unfold pairs. rewrite list_elem_of_bind. split.
  - intros (x0 & Hin & Hx). apply list_elem_of_fmap in Hin as (y0 & [= -> ->] & Hy). auto.
  - intros [Hx Hy]. exists x. split; [|exact Hx]. now apply list_elem_of_fmap_2.
Qed.

Lemma NoDup_pairs {X Y : Type} (l1 : list X) (l2 : list Y) :
  NoDup l1 -> NoDup l2 -> NoDup (pairs l1 l2).
Proof.
  intros H1 H2. unfold pairs. apply NoDup_bind; [| |exact H1].
  - intros x1 x2 [x y] _ _ Hin1 Hin2.
    apply list_elem_of_fmap in Hin1 as (? & [= -> _] & _).
    apply list_elem_of_fmap in Hin2 as (? & [= -> _] & _). reflexivity.
  - intros x _. apply NoDup_fmap_2; [|exact H2]. intros y1 y2 [= ->]. reflexivity.
Qed.

(** Two nested loops that may throw, as one loop over the pairs. *)
Lemma for_range_r_pairs {A : Type} (g : nat -> nat -> A -> result A) (n m : nat)
  (r : result A) :
  for_range_r n (fun x a => for_range_r m (g x) (Ok a)) r
  = foldl (fun r p => bind r (g (fst p) (snd p))) r (pairs (seq 0 n) (seq 0 m)).
Proof. unfold for_range_r, pairs. apply (foldl_r_flatten g (fun _ => seq 0 m)). Qed.

Lemma foldl_r_ext {A X : Type} (g1 g2 : X -> A -> result A) (l : list X)
  (r : result A) :
  (forall x a, g1 x a = g2 x a) ->
  foldl (fun r x => bind r (g1 x)) r l = foldl (fun r x => bind r (g2 x)) r l.
Proof.
  intros E. apply foldl_ext_in. intros [a|e] x; cbn [bind]; [apply E|reflexivity].
Qed.

(** Three nested loops that may throw, as one loop over the nested pairs. *)
Lemma for_range_r_nest3 {A : Type} (g : nat -> nat -> nat -> A -> result A)
  (n1 n2 n3 : nat) (r : result A) :
  for_range_r n1 (fun x a =>
    for_range_r n2 (fun y a => for_range_r n3 (g x y) (Ok a)) (Ok a)) r
  = foldl (fun r q => bind r (g (fst q) (fst (snd q)) (snd (snd q)))) r
      (pairs (seq 0 n1) (pairs (seq 0 n2) (seq 0 n3))).
Proof.
  unfold pairs at 1.
  rewrite <- (foldl_r_flatten (fun x p => g x (fst p) (snd p))
                (fun _ => pairs (seq 0 n2) (seq 0 n3))).
  unfold for_range_r at 1. apply foldl_r_ext. intros x a. apply for_range_r_pairs.
Qed.

Section Blockwise.
Context {Key Sub B K : Type} `{EqDecision B}.
Variable in_sub : Sub -> Prop.
Variable P : func Sub K -> func Sub K.
Hypothesis P_ext : forall g1 g2, (forall k, in_sub k -> g1 k = g2 k) ->
                                 forall k, in_sub k -> P g1 k = P g2 k.
Variable line : B -> Sub -> Key.
Variable inv : B -> Key -> option Sub.
Hypothesis inv_line : forall b k, in_sub k -> inv b (line b k) = Some k.
Hypothesis inv_some : forall b key k, inv b key = Some k -> in_sub k.
Hypothesis disjoint : forall b b' key k, inv b key = Some k -> b' <> b -> inv b' key = None.
Variable step : B -> func Key K * func Sub K -> result (func Key K * func Sub K).
Hypothesis step_spec : forall b f tmp,
  exists f' tmp', step b (f, tmp) = Ok (f', tmp') /\
    forall key, f' key = match inv b key with
                         | Some k => P (fun k' => f (line b k')) k
                         | None => f key
                         end.

(** A loop over distinct blocks applies [P] to each of them as it was
    before the loop. *)
Lemma blockwise_loop (bs : list B) :
  NoDup bs ->
  forall f tmp, exists f' tmp',
    foldl (fun r b => bind r (step b)) (Ok (f, tmp)) bs = Ok (f', tmp') /\
    forall key,
      ((forall b, b ∈ bs -> inv b key = None) -> f' key = f key) /\
      (forall b k, b ∈ bs -> inv b key = Some k ->
                   f' key = P (fun k' => f (line b k')) k).
Proof.
  induction bs as [|b0 bs IH]; intros Hnd f tmp.
  - exists f, tmp. split; [reflexivity|]. intros key. split; [reflexivity|].
    intros b k Hb. inversion Hb.
  - apply NoDup_cons in Hnd as [Hb0 Hnd].
    destruct (step_spec b0 f tmp) as (f1 & tmp1 & Hstep & Hf1).
    destruct (IH Hnd f1 tmp1) as (f' & tmp' & Hrun & Hf').
    exists f', tmp'. cbn [foldl bind]. rewrite Hstep. split; [exact Hrun|].
    intros key. destruct (Hf' key) as [Hframe Hblock]. split.
    + intros Hnone. rewrite Hframe.
      * rewrite Hf1, (Hnone b0); [reflexivity|apply list_elem_of_here].
      * intros b Hb. apply Hnone. now apply list_elem_of_further.
    + intros b k Hb Hinv. apply elem_of_cons in Hb as [->|Hb].
      * rewrite Hframe; [now rewrite Hf1, Hinv|].
        intros b Hb. apply (disjoint b0 b key k Hinv). intros ->. contradiction.
      * rewrite (Hblock b k Hb Hinv). apply P_ext; [|now apply (inv_some b key)].
        intros k' Hk'. rewrite Hf1.
        rewrite (disjoint b b0 (line b k') k' (inv_line b k' Hk')); [reflexivity|].
        intros ->. contradiction.
Qed.

End Blockwise.

Lemma elem_of_triples (n1 n2 n3 x y z : nat) :
  (x, y, z) ∈ triples n1 n2 n3 <-> x < n1 /\ y < n2 /\ z < n3.
Proof.
  unfold triples. rewrite list_elem_of_bind. split.
  - intros (x0 & Hin & Hx). apply list_elem_of_bind in Hin as (y0 & Hin & Hy).
    apply list_elem_of_bind in Hin as (z0 & Hin & Hz).
    apply list_elem_of_singleton in Hin. injection Hin as -> -> ->.
    apply elem_of_seq in Hx, Hy, Hz. lia.
  - intros (Hx & Hy & Hz). exists x. split; [|apply elem_of_seq; lia].
    apply list_elem_of_bind. exists y. split; [|apply elem_of_seq; lia].
    apply list_elem_of_bind. exists z. split; [|apply elem_of_seq; lia].
    now apply list_elem_of_singleton.
Qed.

Lemma elem_of_keys_triples (Nb N0 : nat) (k : nat * nat * nat) :
  k ∈ triples Nb Nb N0 <-> in_range3 Nb N0 k.
Proof. destruct k as [[x y] z]. apply elem_of_triples. Qed.

Lemma for_range3_flatten {A : Type} (body : nat -> nat -> nat -> A -> A)
  (n1 n2 n3 : nat) (a : A) :
  for_range n1 (fun x => for_range n2 (fun y => for_range n3 (fun z => body x y z))) a
  = foldl (fun a q => body (fst (fst q)) (snd (fst q)) (snd q) a) a (triples n1 n2 n3).
Proof.
  unfold for_range, triples. rewrite foldl_bind_list. apply foldl_ext_in. intros a1 x.
  rewrite foldl_bind_list. apply foldl_ext_in. intros a2 y.
  rewrite foldl_bind_list. apply foldl_ext_in. intros a3 z. reflexivity.
Qed.

Lemma assign3_flatten {Key K : Type} `{EqDecision Key} (key : nat * nat * nat -> Key)
  (v : nat * nat * nat -> K) (n1 n2 n3 : nat) (t : func Key K) :
  for_range n1 (fun x => for_range n2 (fun y => for_range n3 (fun z t =>
    upd t (key (x, y, z)) (v (x, y, z))))) t
  = foldl (fun t q => upd t (key q) (v q)) t (triples n1 n2 n3).
Proof.
  rewrite (for_range3_flatten (fun x y z t => upd t (key (x, y, z)) (v (x, y, z)))).
  apply foldl_ext_in. intros a [[x y] z]. reflexivity.
Qed.

Section BlockStep.
Context {Key Sub K : Type} `{EqDecision Key} `{EqDecision Sub} `{Scalar K}.
Variable in_sub : Sub -> Prop.
Variable pass : func Sub K -> result (func Sub K * Qc).
Variable P : func Sub K -> func Sub K.
Hypothesis pass_P : acts_as in_sub pass P.
Variable ks : list Sub.
Hypothesis ks_range : forall k, k ∈ ks <-> in_sub k.
Variable line : Sub -> Key.
Variable inv : Key -> option Sub.
Hypothesis inv_line : forall k, in_sub k -> inv (line k) = Some k.
Hypothesis inv_some : forall key k, inv key = Some k -> key = line k /\ in_sub k.

(** Copy a block into the temporary, call the pass, copy the temporary
    back. *)
Lemma block_step (f : func Key K) (tmp : func Sub K) :
  exists f' tmp',
    bind (pass (foldl (fun t k => upd t k (f (line k))) tmp ks))
         (fun '(t', _) => Ok (foldl (fun f k => upd f (line k) (t' k)) f ks, t'))
    = Ok (f', tmp') /\
    forall key, f' key = match inv key with
                         | Some k => P (fun k' => f (line k')) k
                         | None => f key
                         end.
Proof.
  destruct pass_P as [Hret Hext].
  set (tmp1 := foldl (fun t k => upd t k (f (line k))) tmp ks).
  destruct (Hret tmp1) as (g' & m & Hpass & Hg').
  rewrite Hpass. cbn [bind]. eexists. eexists. split; [reflexivity|].
  assert (Hinj : forall k k', k ∈ ks -> k' ∈ ks -> line k = line k' -> k = k').
  { intros k k' Hk Hk' Heq. apply ks_range in Hk, Hk'.
    pose proof (inv_line k Hk) as E. rewrite Heq, (inv_line k' Hk') in E. congruence. }
  destruct (scatter_keys line g' ks Hinj f) as [Hframe Hset].
  intros key. destruct (inv key) as [k|] eqn:Hinv.
  - destruct (inv_some key k Hinv) as [-> Hk].
    rewrite Hset by now apply ks_range. rewrite (Hg' k Hk).
    apply Hext; [|exact Hk]. intros k' Hk'. unfold tmp1. rewrite assign_keys.
    now rewrite decide_True by now apply ks_range.
  - apply Hframe. intros k Hk ->. apply ks_range in Hk.
    rewrite (inv_line k Hk) in Hinv. discriminate.
Qed.

End BlockStep.

Section Phase.
Context {Key Sub B K : Type} `{EqDecision Key} `{EqDecision Sub} `{EqDecision B}
  `{Scalar K}.
Variable in_sub : Sub -> Prop.
Variable pass : func Sub K -> result (func Sub K * Qc).
Variable P : func Sub K -> func Sub K.
Hypothesis pass_P : acts_as in_sub pass P.
Variable ks : list Sub.
Hypothesis ks_range : forall k, k ∈ ks <-> in_sub k.
Variable line : B -> Sub -> Key.
Variable inv : B -> Key -> option Sub.
Hypothesis inv_line : forall b k, in_sub k -> inv b (line b k) = Some k.
Hypothesis inv_some : forall b key k, inv b key = Some k -> key = line b k /\ in_sub k.
Hypothesis disjoint : forall b b' key k, inv b key = Some k -> b' <> b -> inv b' key = None.
Variable step : B -> func Key K * func Sub K -> result (func Key K * func Sub K).
Hypothesis step_eq : forall b f tmp,
  step b (f, tmp)
  = bind (pass (foldl (fun t k => upd t k (f (line b k))) tmp ks))
         (fun '(t', _) => Ok (foldl (fun f k => upd f (line b k) (t' k)) f ks, t')).

(** One of the loop nests of an overload, seen as a loop over its blocks. *)
Lemma phase_closed (bs : list B) :
  NoDup bs ->
  forall f tmp, exists f' tmp',
    foldl (fun r b => bind r (step b)) (Ok (f, tmp)) bs = Ok (f', tmp') /\
    forall key,
      ((forall b, b ∈ bs -> inv b key = None) -> f' key = f key) /\
      (forall b k, b ∈ bs -> inv b key = Some k ->
                   f' key = P (fun k' => f (line b k')) k).
Proof.
  apply (blockwise_loop in_sub P (proj2 pass_P) line inv inv_line
           (fun b key k Hk => proj2 (inv_some b key k Hk)) disjoint step).
  intros b f tmp. rewrite step_eq.
  apply (block_step in_sub pass P pass_P ks ks_range (line b) (inv b) (inv_line b)
           (inv_some b)).
Qed.

End Phase.

End BlockLoops.

Section BlockOverloads.
Import Solver Symmetrize SymmetrizeBlocks.
Context {K : Type} `{Scalar K}.

(** The loop nest of the overload over [(b, b, d0, d1)] along [d0]. *)
Lemma bb_d0_phase (Nb N0 N1 : nat) (execute0 : pass1) (P0 : func nat K -> func nat K)
  (f : func key4 K) (tmp : func nat K) :
  acts_as (in_range1 N0) execute0 P0 ->
  exists f' tmp',
    for_range_r Nb (fun nu_0 st =>
      for_range_r Nb (fun nu_1 st =>
        for_range_r N1 (bb_d0_block N0 execute0 nu_0 nu_1) (Ok st)) (Ok st))
      (Ok (f, tmp)) = Ok (f', tmp') /\
    forall a b c d,
      f' (a, b, c, d)
      = if decide (a < Nb /\ b < Nb /\ c < N0 /\ d < N1)
        then P0 (fun k => f (a, b, k, d)) c
        else f (a, b, c, d).
Proof.
  intros Hpass. rewrite for_range_r_nest3.
  set (line := fun (b : nat * (nat * nat)) (k : nat) =>
                 ((fst b, fst (snd b), k, snd (snd b)) : key4)).
  set (inv := fun (b : nat * (nat * nat)) (key : key4) =>
                let '(x, y, c, d) := key in
                if decide (x = fst b /\ y = fst (snd b) /\ d = snd (snd b) /\ c < N0)
                then Some c else None).
  destruct (phase_closed (Key := key4) (B := nat * (nat * nat))
              (in_range1 N0) execute0 P0 Hpass (seq 0 N0)) with
    (line := line) (inv := inv)
    (step := fun b : nat * (nat * nat) =>
               bb_d0_block N0 execute0 (fst b) (fst (snd b)) (snd (snd b)))
    (bs := pairs (seq 0 Nb) (pairs (seq 0 Nb) (seq 0 N1))) (f := f) (tmp := tmp)
    as (f' & tmp' & Hrun & Hf').
  - intros k. rewrite elem_of_seq. unfold in_range1. lia.
  - intros [x [y d]] k Hk. unfold inv, line. cbn [fst snd].
    now rewrite decide_True by auto.
  - intros [x0 [y0 d0]] [[[x y] c] d] k. unfold inv, line. cbn [fst snd].
    destruct (decide _) as [(-> & -> & -> & Hc)|]; [|discriminate]. intros [= <-].
    split; [reflexivity|exact Hc].
  - intros [x0 [y0 d0]] [x1 [y1 d1]] [[[x y] c] d] k. unfold inv. cbn [fst snd].
    destruct (decide _) as [(-> & -> & -> & _)|]; [|discriminate]. intros _ Hne.
    rewrite decide_False; [reflexivity|]. intros (-> & -> & -> & _). now apply Hne.
  - intros b g t. reflexivity.
  - apply NoDup_pairs; [apply NoDup_seq|]. apply NoDup_pairs; apply NoDup_seq.
  - exists f', tmp'. split; [exact Hrun|]. intros a b c d.
    destruct (Hf' (a, b, c, d)) as [Hframe Hblock].
    destruct (decide (a < Nb /\ b < Nb /\ c < N0 /\ d < N1)) as [(Ha & Hb & Hc & Hd)|Hno].
    + apply (Hblock (a, (b, d)) c).
      * apply elem_of_pairs. split; [apply elem_of_seq; lia|].
        apply elem_of_pairs. split; apply elem_of_seq; lia.
      * unfold inv. cbn [fst snd]. now rewrite decide_True by auto.
    + apply Hframe. intros [x [y z]] Hb. apply elem_of_pairs in Hb as [Hx Hyz].
      apply elem_of_pairs in Hyz as [Hy Hz]. apply elem_of_seq in Hx, Hy, Hz.
      unfold inv. cbn [fst snd]. rewrite decide_False; [reflexivity|].
      intros (-> & -> & -> & ?). apply Hno. lia.
Qed.

(** The loop nest of the overload over [(b, b, d0, d1)] along [d1]. *)
Lemma bb_d1_phase (Nb N0 N1 : nat) (execute1 : pass1) (P1 : func nat K -> func nat K)
  (f : func key4 K) (tmp : func nat K) :
  acts_as (in_range1 N1) execute1 P1 ->
  exists f' tmp',
    for_range_r Nb (fun nu_0 st =>
      for_range_r Nb (fun nu_1 st =>
        for_range_r N0 (bb_d1_block N1 execute1 nu_0 nu_1) (Ok st)) (Ok st))
      (Ok (f, tmp)) = Ok (f', tmp') /\
    forall a b c d,
      f' (a, b, c, d)
      = if decide (a < Nb /\ b < Nb /\ c < N0 /\ d < N1)
        then P1 (fun k => f (a, b, c, k)) d
        else f (a, b, c, d).
Proof.
  intros Hpass. rewrite for_range_r_nest3.
  set (line := fun (b : nat * (nat * nat)) (k : nat) =>
                 ((fst b, fst (snd b), snd (snd b), k) : key4)).
  set (inv := fun (b : nat * (nat * nat)) (key : key4) =>
                let '(x, y, c, d) := key in
                if decide (x = fst b /\ y = fst (snd b) /\ c = snd (snd b) /\ d < N1)
                then Some d else None).
  destruct (phase_closed (Key := key4) (B := nat * (nat * nat))
              (in_range1 N1) execute1 P1 Hpass (seq 0 N1)) with
    (line := line) (inv := inv)
    (step := fun b : nat * (nat * nat) =>
               bb_d1_block N1 execute1 (fst b) (fst (snd b)) (snd (snd b)))
    (bs := pairs (seq 0 Nb) (pairs (seq 0 Nb) (seq 0 N0))) (f := f) (tmp := tmp)
    as (f' & tmp' & Hrun & Hf').
  - intros k. rewrite elem_of_seq. unfold in_range1. lia.
  - intros [x [y c]] k Hk. unfold inv, line. cbn [fst snd].
    now rewrite decide_True by auto.
  - intros [x0 [y0 c0]] [[[x y] c] d] k. unfold inv, line. cbn [fst snd].
    destruct (decide _) as [(-> & -> & -> & Hd)|]; [|discriminate]. intros [= <-].
    split; [reflexivity|exact Hd].
  - intros [x0 [y0 c0]] [x1 [y1 c1]] [[[x y] c] d] k. unfold inv. cbn [fst snd].
    destruct (decide _) as [(-> & -> & -> & _)|]; [|discriminate]. intros _ Hne.
    rewrite decide_False; [reflexivity|]. intros (-> & -> & -> & _). now apply Hne.
  - intros b g t. reflexivity.
  - apply NoDup_pairs; [apply NoDup_seq|]. apply NoDup_pairs; apply NoDup_seq.
  - exists f', tmp'. split; [exact Hrun|]. intros a b c d.
    destruct (Hf' (a, b, c, d)) as [Hframe Hblock].
    destruct (decide (a < Nb /\ b < Nb /\ c < N0 /\ d < N1)) as [(Ha & Hb & Hc & Hd)|Hno].
    + apply (Hblock (a, (b, c)) d).
      * apply elem_of_pairs. split; [apply elem_of_seq; lia|].
        apply elem_of_pairs. split; apply elem_of_seq; lia.
      * unfold inv. cbn [fst snd]. now rewrite decide_True by auto.
    + apply Hframe. intros [x [y z]] Hb. apply elem_of_pairs in Hb as [Hx Hyz].
      apply elem_of_pairs in Hyz as [Hy Hz]. apply elem_of_seq in Hx, Hy, Hz.
      unfold inv. cbn [fst snd]. rewrite decide_False; [reflexivity|].
      intros (-> & -> & -> & ?). apply Hno. lia.
Qed.

(** The loop nest of the overload over [(nu, nu, d0, d1)] along [d0]. *)
Lemma spin_d0_phase (Nb Ns N0 N1 : nat) (execute0 : pass3)
  (P0 : func (nat * nat * nat) K -> func (nat * nat * nat) K)
  (f : func spin_key K) (tmp : func (nat * nat * nat) K) :
  acts_as (in_range3 Nb N0) execute0 P0 ->
  exists f' tmp',
    for_range_r N1 (fun ind_1 st =>
      for_range_r Ns (spin_d0_block Nb N0 execute0 ind_1) (Ok st)) (Ok (f, tmp))
    = Ok (f', tmp') /\
    forall b0 s b1 s' i0 i1,
      f' (b0, s, b1, s', i0, i1)
      = if decide (s = s' /\ s < Ns /\ in_range3 Nb N0 (b0, b1, i0) /\ i1 < N1)
        then P0 (fun q => f (fst (fst q), s, snd (fst q), s, snd q, i1)) (b0, b1, i0)
        else f (b0, s, b1, s', i0, i1).
Proof.
  intros Hpass. rewrite for_range_r_pairs.
  set (line := fun (b : nat * nat) (q : nat * nat * nat) =>
                 ((fst (fst q), snd b, snd (fst q), snd b, snd q, fst b) : spin_key)).
  set (inv := fun (b : nat * nat) (key : spin_key) =>
                let '(b0, s, b1, s', i0, i1) := key in
                if decide (s = snd b /\ s' = snd b /\ i1 = fst b /\
                           in_range3 Nb N0 (b0, b1, i0))
                then Some (b0, b1, i0) else None).
  destruct (phase_closed (Key := spin_key) (B := nat * nat)
              (in_range3 Nb N0) execute0 P0 Hpass (triples Nb Nb N0)) with
    (line := line) (inv := inv)
    (step := fun b : nat * nat => spin_d0_block Nb N0 execute0 (fst b) (snd b))
    (bs := pairs (seq 0 N1) (seq 0 Ns)) (f := f) (tmp := tmp)
    as (f' & tmp' & Hrun & Hf').
  - apply elem_of_keys_triples.
  - intros [i1 s] [[b0 b1] i0] Hk. unfold inv, line. cbn [fst snd].
    now rewrite decide_True by auto.
  - intros [i s2] [[[[[b0 s] b1] s'] i0] i1] k. unfold inv, line. cbn [fst snd].
    destruct (decide _) as [(-> & -> & -> & Hr)|]; [|discriminate]. intros [= <-].
    split; [reflexivity|exact Hr].
  - intros [i s2] [i' s3] [[[[[b0 s] b1] s'] i0] i1] k. unfold inv. cbn [fst snd].
    destruct (decide _) as [(-> & -> & -> & _)|]; [|discriminate]. intros _ Hne.
    rewrite decide_False; [reflexivity|]. intros (-> & _ & -> & _). now apply Hne.
  - intros b g t. unfold spin_d0_block.
    rewrite (assign3_flatten (fun q => q) (fun q => g (line b q))).
    destruct (execute0 _) as [[t' m]|e]; [|reflexivity]. cbn [bind].
    now rewrite (assign3_flatten (line b) t').
  - apply NoDup_pairs; apply NoDup_seq.
  - exists f', tmp'. split; [exact Hrun|]. intros b0 s b1 s' i0 i1.
    destruct (Hf' (b0, s, b1, s', i0, i1)) as [Hframe Hblock].
    destruct (decide (s = s' /\ s < Ns /\ in_range3 Nb N0 (b0, b1, i0) /\ i1 < N1))
      as [(<- & Hs & Hr & Hi)|Hno].
    + apply (Hblock (i1, s) (b0, b1, i0)).
      * apply elem_of_pairs. split; apply elem_of_seq; lia.
      * unfold inv. cbn [fst snd]. now rewrite decide_True by auto.
    + apply Hframe. intros [i s2] Hb. apply elem_of_pairs in Hb as [Hi Hs].
      apply elem_of_seq in Hi, Hs. unfold inv. cbn [fst snd].
      rewrite decide_False; [reflexivity|]. intros (-> & -> & -> & Hr). apply Hno.
      unfold in_range3 in *. lia.
Qed.

Lemma elem_of_swapped_triples (Nb N1 : nat) (k : nat * nat * nat) :
  k ∈ (fun q : nat * nat * nat => (snd q, snd (fst q), fst (fst q))) <$> triples N1 Nb Nb
  <-> in_range3 Nb N1 k.
Proof.
  destruct k as [[x y] z]. rewrite list_elem_of_fmap. split.
  - intros ([[a b] c] & [= -> -> ->] & Hin). apply elem_of_triples in Hin. cbn. lia.
  - intros (Hx & Hy & Hz). exists (z, y, x). split; [reflexivity|].
    apply elem_of_triples. lia.
Qed.

(** The loop nest of the overload over [(nu, nu, d0, d1)] along [d1]. *)
Lemma spin_d1_phase (Nb Ns N0 N1 : nat) (execute1 : pass3)
  (P1 : func (nat * nat * nat) K -> func (nat * nat * nat) K)
  (f : func spin_key K) (tmp : func (nat * nat * nat) K) :
  acts_as (in_range3 Nb N1) execute1 P1 ->
  exists f' tmp',
    for_range_r N0 (fun ind_0 st =>
      for_range_r Ns (spin_d1_block Nb N1 execute1 ind_0) (Ok st)) (Ok (f, tmp))
    = Ok (f', tmp') /\
    forall b0 s b1 s' i0 i1,
      f' (b0, s, b1, s', i0, i1)
      = if decide (s = s' /\ s < Ns /\ in_range3 Nb N1 (b0, b1, i1) /\ i0 < N0)
        then P1 (fun q => f (fst (fst q), s, snd (fst q), s, i0, snd q)) (b0, b1, i1)
        else f (b0, s, b1, s', i0, i1).
Proof.
  intros Hpass. rewrite for_range_r_pairs.
  set (swap := fun q : nat * nat * nat => (snd q, snd (fst q), fst (fst q))).
  set (line := fun (b : nat * nat) (q : nat * nat * nat) =>
                 ((fst (fst q), snd b, snd (fst q), snd b, fst b, snd q) : spin_key)).
  set (inv := fun (b : nat * nat) (key : spin_key) =>
                let '(b0, s, b1, s', i0, i1) := key in
                if decide (s = snd b /\ s' = snd b /\ i0 = fst b /\
                           in_range3 Nb N1 (b0, b1, i1))
                then Some (b0, b1, i1) else None).
  destruct (phase_closed (Key := spin_key) (B := nat * nat)
              (in_range3 Nb N1) execute1 P1 Hpass (swap <$> triples N1 Nb Nb)) with
    (line := line) (inv := inv)
    (step := fun b : nat * nat => spin_d1_block Nb N1 execute1 (fst b) (snd b))
    (bs := pairs (seq 0 N0) (seq 0 Ns)) (f := f) (tmp := tmp)
    as (f' & tmp' & Hrun & Hf').
  - apply elem_of_swapped_triples.
  - intros [i0 s] [[b0 b1] i1] Hk. unfold inv, line. cbn [fst snd].
    now rewrite decide_True by auto.
  - intros [i s2] [[[[[b0 s] b1] s'] i0] i1] k. unfold inv, line. cbn [fst snd].
    destruct (decide _) as [(-> & -> & -> & Hr)|]; [|discriminate]. intros [= <-].
    split; [reflexivity|exact Hr].
  - intros [i s2] [i' s3] [[[[[b0 s] b1] s'] i0] i1] k. unfold inv. cbn [fst snd].
    destruct (decide _) as [(-> & -> & -> & _)|]; [|discriminate]. intros _ Hne.
    rewrite decide_False; [reflexivity|]. intros (-> & _ & -> & _). now apply Hne.
  - intros b g t. unfold spin_d1_block. rewrite !foldl_fmap.
    rewrite (assign3_flatten swap (fun q => g (line b (swap q)))).
    destruct (execute1 _) as [[t' m]|e]; [|reflexivity]. cbn [bind].
    rewrite foldl_fmap.
    now rewrite (assign3_flatten (fun q => line b (swap q)) (fun q => t' (swap q))).
  - apply NoDup_pairs; apply NoDup_seq.
  - exists f', tmp'. split; [exact Hrun|]. intros b0 s b1 s' i0 i1.
    destruct (Hf' (b0, s, b1, s', i0, i1)) as [Hframe Hblock].
    destruct (decide (s = s' /\ s < Ns /\ in_range3 Nb N1 (b0, b1, i1) /\ i0 < N0))
      as [(<- & Hs & Hr & Hi)|Hno].
    + apply (Hblock (i0, s) (b0, b1, i1)).
      * apply elem_of_pairs. split; apply elem_of_seq; lia.
      * unfold inv. cbn [fst snd]. now rewrite decide_True by auto.
    + apply Hframe. intros [i s2] Hb. apply elem_of_pairs in Hb as [Hi Hs].
      apply elem_of_seq in Hi, Hs. unfold inv. cbn [fst snd].
      rewrite decide_False; [reflexivity|]. intros (-> & -> & -> & Hr). apply Hno.
      unfold in_range3 in *. lia.
Qed.

(** The passes over one domain and over a band pair and a domain, as passes
    on a temporary. *)
Lemma execute_t_acts (mag : K -> Qc) (Nt : nat) :
  acts_as (in_range1 Nt) (fun g => Ok (execute_t mag Nt g))
          (fun g => fst (execute_t mag Nt g)).
Proof.
  split.
  - intros g. exists (fst (execute_t mag Nt g)), (snd (execute_t mag Nt g)).
    split; [now destruct (execute_t mag Nt g)|reflexivity].
  - intros g1 g2 Hagree k Hk. unfold in_range1 in *. pose proof (half_twice_le Nt).
    rewrite !execute_t_closed.
    repeat case_decide; rewrite ?Hagree by lia; reflexivity.
Qed.

Lemma execute_w_acts (mag : K -> Qc) (Nw : nat) :
  acts_as (in_range1 Nw) (fun g => Ok (execute_w mag Nw g))
          (fun g => fst (execute_w mag Nw g)).
Proof.
  split.
  - intros g. exists (fst (execute_w mag Nw g)), (snd (execute_w mag Nw g)).
    split; [now destruct (execute_w mag Nw g)|reflexivity].
  - intros g1 g2 Hagree k Hk. unfold in_range1 in *. pose proof (half_twice_le Nw).
    unfold execute_w. rewrite !mirror_closed.
    repeat case_decide; rewrite ?Hagree by lia; reflexivity.
Qed.

Lemma execute_bbt_acts (mag : K -> Qc) (Nb Nt : nat) :
  acts_as (in_range3 Nb Nt) (fun g => Ok (execute_bbt mag Nb Nt g))
          (fun g => fst (execute_bbt mag Nb Nt g)).
Proof.
  split.
  - intros g. exists (fst (execute_bbt mag Nb Nt g)), (snd (execute_bbt mag Nb Nt g)).
    split; [now destruct (execute_bbt mag Nb Nt g)|reflexivity].
  - intros g1 g2 Hagree [[x y] z] Hk. unfold in_range3 in Hk.
    pose proof (half_twice_le Nt). rewrite !execute_bbt_closed.
    repeat case_decide; rewrite ?Hagree by (unfold in_range3; lia); reflexivity.
Qed.

Lemma execute_bbw_acts (mag : K -> Qc) (Nb Nw : nat) :
  acts_as (in_range3 Nb Nw) (fun g => Ok (execute_bbw mag Nb Nw g))
          (fun g => fst (execute_bbw mag Nb Nw g)).
Proof.
  split.
  - intros g. exists (fst (execute_bbw mag Nb Nw g)), (snd (execute_bbw mag Nb Nw g)).
    split; [now destruct (execute_bbw mag Nb Nw g)|reflexivity].
  - intros g1 g2 Hagree [[x y] z] Hk. unfold in_range3 in Hk.
    pose proof (half_twice_le Nw). rewrite !execute_bbw_closed.
    repeat case_decide; rewrite ?Hagree by (unfold in_range3; lia); reflexivity.
Qed.

Lemma bind_ok {A B : Type} (r : result A) (a : A) (k : A -> result B) :
  r = Ok a -> bind r k = k a.
Proof. now intros ->. Qed.

(** A loop over blocks whose pass throws ends with the exception, if there
    is a block. *)
Lemma block_loop_throws {A B : Type} (step : B -> A -> result A) (a : A) (b : B)
  (bs : list B) (e : exception) :
  (forall b a, step b a = Throw e) -> b ∈ bs ->
  foldl (fun r b => bind r (step b)) (Ok a) bs = Throw e.
Proof.
  intros E Hin. destruct bs as [|b0 bs]; [inversion Hin|].
  cbn [foldl bind]. rewrite E. apply foldl_throw.
Qed.

End BlockOverloads.

Section BlockOverloadClaims.
Import Solver Symmetrize SymmetrizeBlocks.
Context {K : Type} `{Scalar K}.

(** The overload of [execute] over [(b, b, d0, d1)], called with passes
    that return and act on a temporary as the maps [P0] and [P1], returns;
    every entry in range becomes [P1], along [d1], of the lines that [P0]
    made along [d0] of the function as it was, and no other entry is
    written. *)
Theorem execute_bb_d0_d1_closed (Nb N0 N1 : nat) (execute0 execute1 : pass1)
  (P0 P1 : func nat K -> func nat K) (f : func key4 K) :
  acts_as (in_range1 N0) execute0 P0 ->
  acts_as (in_range1 N1) execute1 P1 ->
  exists f', execute_bb_d0_d1 Nb N0 N1 execute0 execute1 f = Ok f' /\
    forall a b c d,
      f' (a, b, c, d)
      = if decide (a < Nb /\ b < Nb /\ c < N0 /\ d < N1)
        then P1 (fun k1 => P0 (fun k0 => f (a, b, k0, k1)) c) d
        else f (a, b, c, d).
Proof.
  intros Hpass0 Hpass1.
  destruct (bb_d0_phase Nb N0 N1 execute0 P0 f (fun _ => s0) Hpass0)
    as (f1 & tmp1 & Hrun1 & Hf1).
  destruct (bb_d1_phase Nb N0 N1 execute1 P1 f1 (fun _ => s0) Hpass1)
    as (f2 & tmp2 & Hrun2 & Hf2).
  exists f2. split.
  - unfold execute_bb_d0_d1.
    etransitivity; [apply (bind_ok _ _ _ Hrun1)|]. cbv beta iota.
    etransitivity; [apply (bind_ok _ _ _ Hrun2)|]. reflexivity.
  - intros a b c d. rewrite Hf2.
    destruct (decide (a < Nb /\ b < Nb /\ c < N0 /\ d < N1)) as [Hr|Hno].
    + apply (proj2 Hpass1); [|unfold in_range1; lia].
      intros k Hk. unfold in_range1 in Hk. rewrite Hf1.
      now rewrite decide_True by lia.
    + rewrite Hf1. now rewrite decide_False by exact Hno.
Qed.

(** The overload of [execute] over [(nu, nu, d)], called with a pass
    that returns and acts on a temporary as the map [P], returns; each block
    of entries with both spins equal to [s < Ns] is replaced by [P] of that
    block as it was, and the entries with different spins, or out of range,
    are not written. *)
Theorem execute_nu_nu_d0_closed (Nb Ns N0 : nat) (execute0 : pass3)
  (P : func (nat * nat * nat) K -> func (nat * nat * nat) K) (f : func key5 K) :
  acts_as (in_range3 Nb N0) execute0 P ->
  exists f', execute_nu_nu_d0 Nb Ns N0 execute0 f = Ok f' /\
    forall b0 s b1 s' i,
      f' (b0, s, b1, s', i)
      = if decide (s = s' /\ s < Ns /\ in_range3 Nb N0 (b0, b1, i))
        then P (fun q => f (fst (fst q), s, snd (fst q), s, snd q)) (b0, b1, i)
        else f (b0, s, b1, s', i).
Proof.
  intros Hpass.
  set (line := fun (s : nat) (q : nat * nat * nat) =>
                 ((fst (fst q), s, snd (fst q), s, snd q) : key5)).
  set (inv := fun (s : nat) (key : key5) =>
                let '(b0, s0, b1, s1, i) := key in
                if decide (s0 = s /\ s1 = s /\ in_range3 Nb N0 (b0, b1, i))
                then Some (b0, b1, i) else None).
  unfold execute_nu_nu_d0, for_range_r.
  destruct (blockwise_loop (in_range3 Nb N0) P (proj2 Hpass) line inv) with
    (step := nu_nu_d0_block Nb N0 execute0) (bs := seq 0 Ns) (f := f) (tmp := fun _ : nat * nat * nat => s0 (K := K))
    as (f' & tmp' & Hrun & Hf').
  - intros s [[b0 b1] i] Hk. unfold inv, line. cbn [fst snd].
    now rewrite decide_True by auto.
  - intros s [[[[b0 s0] b1] s1] i] k. unfold inv.
    destruct (decide _) as [(_ & _ & Hr)|]; [|discriminate]. now intros [= <-].
  - intros s s2 [[[[b0 s0] b1] s1] i] k. unfold inv.
    destruct (decide _) as [(-> & _ & _)|]; [|discriminate]. intros _ Hne.
    rewrite decide_False; [reflexivity|]. intros (? & _). congruence.
  - intros s g tmp. unfold nu_nu_d0_block.
    rewrite (assign3_flatten (fun q => q) (fun q => g (line s q))).
    destruct (block_step (in_range3 Nb N0) execute0 P Hpass (triples Nb Nb N0)
                (elem_of_keys_triples Nb N0) (line s) (inv s)) with (f := g) (tmp := tmp)
      as (g' & tmp2 & Hstep & Hg').
    + intros q Hq. destruct q as [[b0 b1] i]. unfold inv, line. cbn [fst snd].
      now rewrite decide_True by auto.
    + intros [[[[b0 s0] b1] s1] i] k. unfold inv.
      destruct (decide _) as [(-> & -> & Hr)|]; [|discriminate]. intros [= <-].
      split; [reflexivity|exact Hr].
    + exists g', tmp2. split; [|exact Hg'].
      rewrite <- Hstep. destruct (execute0 _) as [[t' m]|e]; [|reflexivity]. cbn [bind].
      now rewrite (assign3_flatten (line s) t').
  - apply NoDup_seq.
  - exists f'. split; [exact (f_equal (fun r => bind r (fun '(f, _) => Ok f)) Hrun)|].
    intros b0 s b1 s' i. destruct (Hf' (b0, s, b1, s', i)) as [Hframe Hblock].
    destruct (decide (s = s' /\ s < Ns /\ in_range3 Nb N0 (b0, b1, i)))
      as [(<- & Hs & Hr)|Hno].
    + apply (Hblock s (b0, b1, i)); [apply elem_of_seq; lia|].
      unfold inv. now rewrite decide_True by auto.
    + apply Hframe. intros s2 Hs2. apply elem_of_seq in Hs2. unfold inv.
      rewrite decide_False; [reflexivity|]. intros (-> & -> & Hr). apply Hno. auto with lia.
Qed.

(** The overload of [execute] over [(nu, nu, d0, d1)], called with
    passes that return and act on a temporary as [P0] and [P1], returns.  An
    equal-spin entry in range becomes [P1], along [d1], of the blocks that
    [P0] made along [d0] of the spin-symmetrized function; every other entry
    is the one of the spin-symmetrized function.  So in range the
    opposite-spin entries are zero, and with both spins among the blocks the
    up-up and down-down entries are still equal. *)
Theorem execute_nu_nu_d0_d1_closed (Nb Ns N0 N1 : nat) (execute0 execute1 : pass3)
  (P0 P1 : func (nat * nat * nat) K -> func (nat * nat * nat) K)
  (f : func spin_key K) :
  acts_as (in_range3 Nb N0) execute0 P0 ->
  acts_as (in_range3 Nb N1) execute1 P1 ->
  exists f', execute_nu_nu_d0_d1 Nb Ns N0 N1 execute0 execute1 f = Ok f' /\
    (forall b0 s b1 s' i0 i1,
       f' (b0, s, b1, s', i0, i1)
       = if decide (s = s' /\ s < Ns /\ b0 < Nb /\ b1 < Nb /\ i0 < N0 /\ i1 < N1)
         then P1 (fun q1 =>
                    P0 (fun q0 =>
                          symmetrize_over_electron_spin Nb N0 N1 f
                            (fst (fst q0), s, snd (fst q0), s, snd q0, snd q1))
                       (fst (fst q1), snd (fst q1), i0))
                 (b0, b1, i1)
         else symmetrize_over_electron_spin Nb N0 N1 f (b0, s, b1, s', i0, i1)) /\
    (forall b0 b1 i0 i1, b0 < Nb -> b1 < Nb -> i0 < N0 -> i1 < N1 ->
       f' (b0, 0, b1, 1, i0, i1) = s0 /\
       f' (b0, 1, b1, 0, i0, i1) = s0 /\
       (2 <= Ns -> f' (b0, 0, b1, 0, i0, i1) = f' (b0, 1, b1, 1, i0, i1))).
Proof.
  intros Hpass0 Hpass1.
  set (g := symmetrize_over_electron_spin Nb N0 N1 f).
  destruct (spin_d0_phase Nb Ns N0 N1 execute0 P0 g (fun _ => s0) Hpass0)
    as (f1 & tmp1 & Hrun1 & Hf1).
  destruct (spin_d1_phase Nb Ns N0 N1 execute1 P1 f1 (fun _ => s0) Hpass1)
    as (f2 & tmp2 & Hrun2 & Hf2).
  assert (Hclosed : forall b0 s b1 s' i0 i1,
    f2 (b0, s, b1, s', i0, i1)
    = if decide (s = s' /\ s < Ns /\ b0 < Nb /\ b1 < Nb /\ i0 < N0 /\ i1 < N1)
      then P1 (fun q1 =>
                 P0 (fun q0 => g (fst (fst q0), s, snd (fst q0), s, snd q0, snd q1))
                    (fst (fst q1), snd (fst q1), i0))
              (b0, b1, i1)
      else g (b0, s, b1, s', i0, i1)).
  { intros b0 s b1 s' i0 i1. rewrite Hf2. unfold in_range3 at 1.
    destruct (decide (s = s' /\ s < Ns /\ b0 < Nb /\ b1 < Nb /\ i0 < N0 /\ i1 < N1))
      as [(<- & Hs & Hb0 & Hb1 & Hi0 & Hi1)|Hno].
    - rewrite decide_True by (repeat split; auto).
      apply (proj2 Hpass1); [|unfold in_range3; auto].
      intros [[x y] z] (Hx & Hy & Hz). cbn [fst snd]. rewrite Hf1.
      now rewrite decide_True by (unfold in_range3; repeat split; auto).
    - case_decide; [exfalso; tauto|].
      rewrite Hf1. case_decide; [exfalso|reflexivity].
      unfold in_range3 in *. tauto. }
  exists f2. split; [|split].
  - unfold execute_nu_nu_d0_d1. cbv zeta.
    etransitivity; [apply (bind_ok _ _ _ Hrun1)|]. cbv beta iota.
    etransitivity; [apply (bind_ok _ _ _ Hrun2)|]. reflexivity.
  - exact Hclosed.
  - intros b0 b1 i0 i1 Hb0 Hb1 Hi0 Hi1. split; [|split].
    + rewrite Hclosed, decide_False by lia. unfold g. rewrite spin_closed.
      rewrite decide_True by auto. now rewrite decide_True by auto.
    + rewrite Hclosed, decide_False by lia. unfold g. rewrite spin_closed.
      rewrite decide_True by auto. now rewrite decide_True by auto.
    + intros HNs. rewrite !Hclosed. rewrite !decide_True by (repeat split; lia).
      apply (proj2 Hpass1); [|unfold in_range3; auto].
      intros [[x y] z] (Hx & Hy & Hz). cbn [fst snd].
      apply (proj2 Hpass0); [|unfold in_range3; auto].
      intros [[x' y'] z'] (Hx' & Hy' & Hz'). cbn [fst snd]. unfold g.
      rewrite !spin_closed. rewrite !decide_True by auto.
      rewrite !decide_False by lia. now rewrite !decide_True by lia.
Qed.

(** An exception of the pass called on a temporary is not caught: when
    the pass throws and the loops reach a block, the overload ends with that
    exception. *)
Theorem block_overloads_throw (e : exception) (Nb Ns N0 N1 : nat) :
  (forall (execute0 : pass3) (f : func key5 K),
     (forall g, execute0 g = Throw e) -> 0 < Ns ->
     execute_nu_nu_d0 Nb Ns N0 execute0 f = Throw e) /\
  (forall (execute0 execute1 : pass1) (f : func key4 K),
     (forall g, execute0 g = Throw e) -> 0 < Nb -> 0 < N1 ->
     execute_bb_d0_d1 Nb N0 N1 execute0 execute1 f = Throw e) /\
  (forall (execute0 execute1 : pass3) (f : func spin_key K),
     (forall g, execute0 g = Throw e) -> 0 < N1 -> 0 < Ns ->
     execute_nu_nu_d0_d1 Nb Ns N0 N1 execute0 execute1 f = Throw e).
Proof.
  split; [|split].
  - intros execute0 f Hthrow HNs. unfold execute_nu_nu_d0, for_range_r.
    rewrite (block_loop_throws _ _ 0 _ e); [reflexivity| |apply elem_of_seq; lia].
    intros s [g t]. unfold nu_nu_d0_block. now rewrite Hthrow.
  - intros execute0 execute1 f Hthrow HNb HN1. unfold execute_bb_d0_d1.
    rewrite for_range_r_nest3.
    rewrite (block_loop_throws _ _ (0, (0, 0)) _ e); [reflexivity| |].
    + intros b [g t]. unfold bb_d0_block. now rewrite Hthrow.
    + apply elem_of_pairs. split; [apply elem_of_seq; lia|].
      apply elem_of_pairs. split; apply elem_of_seq; lia.
  - intros execute0 execute1 f Hthrow HN1 HNs. unfold execute_nu_nu_d0_d1. cbv zeta.
    rewrite for_range_r_pairs.
    rewrite (block_loop_throws _ _ (0, 0) _ e); [reflexivity| |].
    + intros b [g t]. unfold spin_d0_block. now rewrite Hthrow.
    + apply elem_of_pairs. split; apply elem_of_seq; lia.
Qed.

End BlockOverloadClaims.

Section BlockOverloadExamples.
Import Solver Symmetrize SymmetrizeBlocks.

(** For a function of a band pair, imaginary time and frequency: the
    imaginary-time pass along the third index, the frequency pass along the
    fourth. *)
Lemma execute_bb_d0_d1_closed_witness :
  exists f',
    execute_bb_d0_d1 1 2 2 (fun g => Ok (execute_t Qcabs 2 g))
      (fun g => Ok (execute_w Qcabs 2 g)) (fun _ : key4 => 1%Qc) = Ok f' /\
    forall a b c d,
      f' (a, b, c, d)
      = if decide (a < 1 /\ b < 1 /\ c < 2 /\ d < 2)
        then fst (execute_w Qcabs 2
                    (fun k1 => fst (execute_t Qcabs 2 (fun k0 => 1%Qc)) c)) d
        else 1%Qc.
Proof.
  apply (execute_bb_d0_d1_closed 1 2 2 (fun g => Ok (execute_t Qcabs 2 g))
           (fun g => Ok (execute_w Qcabs 2 g))
           (fun g => fst (execute_t Qcabs 2 g)) (fun g => fst (execute_w Qcabs 2 g))
           (fun _ : key4 => 1%Qc)).
  - apply execute_t_acts.
  - apply execute_w_acts.
Defined.

Lemma execute_nu_nu_d0_closed_witness :
  exists f',
    execute_nu_nu_d0 1 2 2 (fun g => Ok (execute_bbt Qcabs 1 2 g))
      (fun _ : key5 => 1%Qc) = Ok f' /\
    forall b0 s b1 s' i,
      f' (b0, s, b1, s', i)
      = if decide (s = s' /\ s < 2 /\ in_range3 1 2 (b0, b1, i))
        then fst (execute_bbt Qcabs 1 2 (fun q => 1%Qc)) (b0, b1, i)
        else 1%Qc.
Proof.
  apply (execute_nu_nu_d0_closed 1 2 2 (fun g => Ok (execute_bbt Qcabs 1 2 g))
           (fun g => fst (execute_bbt Qcabs 1 2 g)) (fun _ : key5 => 1%Qc)).
  apply execute_bbt_acts.
Defined.

(** For a function of two spin-orbitals, imaginary time and frequency. *)
Lemma execute_nu_nu_d0_d1_closed_witness :
  exists f',
    execute_nu_nu_d0_d1 1 2 2 2 (fun g => Ok (execute_bbt Qcabs 1 2 g))
      (fun g => Ok (execute_bbw Qcabs 1 2 g)) (fun _ : spin_key => 1%Qc) = Ok f' /\
    (forall b0 s b1 s' i0 i1,
       f' (b0, s, b1, s', i0, i1)
       = if decide (s = s' /\ s < 2 /\ b0 < 1 /\ b1 < 1 /\ i0 < 2 /\ i1 < 2)
         then fst (execute_bbw Qcabs 1 2 (fun q1 =>
                fst (execute_bbt Qcabs 1 2 (fun q0 =>
                  symmetrize_over_electron_spin 1 2 2 (fun _ : spin_key => 1%Qc)
                    (fst (fst q0), s, snd (fst q0), s, snd q0, snd q1)))
                  (fst (fst q1), snd (fst q1), i0)))
              (b0, b1, i1)
         else symmetrize_over_electron_spin 1 2 2 (fun _ : spin_key => 1%Qc)
                (b0, s, b1, s', i0, i1)) /\
    (forall b0 b1 i0 i1, b0 < 1 -> b1 < 1 -> i0 < 2 -> i1 < 2 ->
       f' (b0, 0, b1, 1, i0, i1) = 0%Qc /\
       f' (b0, 1, b1, 0, i0, i1) = 0%Qc /\
       (2 <= 2 -> f' (b0, 0, b1, 0, i0, i1) = f' (b0, 1, b1, 1, i0, i1))).
Proof.
  exact (execute_nu_nu_d0_d1_closed 1 2 2 2 (fun g => Ok (execute_bbt Qcabs 1 2 g))
           (fun g => Ok (execute_bbw Qcabs 1 2 g))
           (fun g => fst (execute_bbt Qcabs 1 2 g))
           (fun g => fst (execute_bbw Qcabs 1 2 g)) (fun _ : spin_key => 1%Qc)
           (execute_bbt_acts Qcabs 1 2) (execute_bbw_acts Qcabs 1 2)).
Defined.

(** With an empty symmetry group the band-pair pass over the real-space
    cluster throws, and so does the overload over [(nu, nu, r)]. *)
Lemma block_overloads_throw_witness :
  execute_nu_nu_d0 1 2 2 (execute_bbr Qcabs 1 2 0 two_site_table)
    (fun _ : key5 => 1%Qc)
  = Throw (logic_error "execute").
Proof.
  apply (proj1 (block_overloads_throw (logic_error "execute") 1 2 2 0)).
  - intros g. reflexivity.
  - lia.
Defined.

End BlockOverloadExamples.

